(** * yagaw: route registration and request dispatch

    A shallow embedding of [router.go] (the regular-expression router) and of
    the scanning variant of [RegisterRoute] that fills the parameter map,
    together with the part of Go's [regexp] package that the router calls.

    Conventions.
    - A Go [string] is modelled by the sequence of its Unicode code points
      (type [rune], a natural number); the text is assumed to be valid UTF-8,
      so that indices count runes.
    - A Go [map] is a finite map ([gmap]); the order in which [maps.Keys]
      yields the keys of a map is not fixed by the language, so the dispatcher
      takes the order of one iteration as an argument.
    - A call that can panic returns an [outcome]. *)

From Stdlib Require Import Ascii String.
From stdpp Require Import base option list gmap strings.

Local Open Scope N_scope.

(** ** Strings *)

Abbreviation rune := N.
Abbreviation gostring := (list N).

(** The code points of an ASCII string literal. *)
Fixpoint str (s : string) : gostring :=
  match s with
  | EmptyString => []
  | String a t => Ascii.N_of_ascii a :: str t
  end.

(** [strings.Contains(s, "c")] for a single rune. *)
Definition contains_rune (c : rune) (s : gostring) : bool :=
  existsb (N.eqb c) s.

(** ** Outcomes of a call *)

Inductive outcome (A : Type) : Type :=
| Ret (a : A)          (* the call returns *)
| Panic                (* a run-time panic unwinds the goroutine *)
| Fatal                (* [Log.FatalError]: the process exits *)
| Unmodelled.          (* the call leaves the modelled part of [regexp] *)
Arguments Ret {A} a.
Arguments Panic {A}.
Arguments Fatal {A}.
Arguments Unmodelled {A}.

Definition bind {A B} (o : outcome A) (k : A -> outcome B) : outcome B :=
  match o with
  | Ret a => k a
  | Panic => Panic
  | Fatal => Fatal
  | Unmodelled => Unmodelled
  end.

Notation "'do' x <- o ; k" := (bind o (fun x => k))
  (at level 10, x name, o at level 100, k at level 200).

(** ** The [regexp] package (Perl flags, as set by [regexp.MustCompile])

    The model covers: literals, [.], [^], [$], capture groups, alternation,
    the greedy operators [*], [+], [?] on operands that cannot match the empty
    string, bracket classes of single runes and ranges, escaped punctuation,
    and the flag group [(?i)] at the very start of the expression.  Every
    other construct, and an expression beyond [max_length] runes or with more
    than [max_depth] nested groups, makes [Compile] answer [CUnsupported], on
    which the theorems below are silent. *)
Module regexp.

Inductive Regexp : Type :=
| EmptyMatch
| Literal (r : rune) (fold : bool)
| CharClass (neg : bool) (ranges : list (rune * rune)) (fold : bool)
| AnyCharNotNL
| BeginText
| EndText
| Concat (a b : Regexp)
| Alternate (a b : Regexp)
| Star (a : Regexp)
| Plus (a : Regexp)
| Quest (a : Regexp)
| Capture (a : Regexp).

Inductive ErrorCode : Type :=
| ErrInvalidCharRange
| ErrInvalidRepeatOp
| ErrMissingBracket
| ErrMissingParen
| ErrMissingRepeatArgument
| ErrTrailingBackslash
| ErrUnexpectedParen.

Inductive compiled : Type :=
| COk (re : Regexp)
| CError (e : ErrorCode)
| CUnsupported.

(** *** Case folding *)

Definition is_upper (c : rune) : bool := (65 <=? c) && (c <=? 90).
Definition is_lower (c : rune) : bool := (97 <=? c) && (c <=? 122).
Definition is_digit (c : rune) : bool := (48 <=? c) && (c <=? 57).
Definition is_alnum (c : rune) : bool := is_digit c || is_upper c || is_lower c.

Definition KELVIN : rune := 8490.   (* U+212A, folds to k *)
Definition LONG_S : rune := 383.    (* U+017F, folds to s *)

(** The orbit of a lower-case ASCII letter under [unicode.SimpleFold]. *)
Definition orbit_of_lower (l : rune) : list rune :=
  (l - 32) :: l ::
  (if l =? 107 then [KELVIN] else if l =? 115 then [LONG_S] else []).

(** The runes that fold together with [c].  For a rune outside ASCII other
    than U+212A and U+017F the orbit holds no ASCII rune, and only the
    membership of ASCII runes is ever asked, so [[c]] stands for it. *)
Definition orbit (c : rune) : list rune :=
  if is_upper c then orbit_of_lower (c + 32)
  else if is_lower c then orbit_of_lower c
  else if c =? KELVIN then orbit_of_lower 107
  else if c =? LONG_S then orbit_of_lower 115
  else [c].

Definition in_ranges (ranges : list (rune * rune)) (c : rune) : bool :=
  existsb (fun lh => (fst lh <=? c) && (c <=? snd lh)) ranges.

Definition literal_matches (r : rune) (fold : bool) (c : rune) : bool :=
  if fold then existsb (N.eqb r) (orbit c) else r =? c.

Definition class_matches (neg : bool) (ranges : list (rune * rune))
    (fold : bool) (c : rune) : bool :=
  xorb neg (if fold then existsb (in_ranges ranges) (orbit c)
            else in_ranges ranges c).

(** *** Parsing

    The parser follows [regexp/syntax]: one pass over the expression that
    keeps the items of the branch being read ([cur], latest first), the
    branches of the group already closed by [|] ([alts], latest first) and
    the enclosing groups ([stack]). *)

Definition c_newline : rune := 10.
Definition c_dollar : rune := 36.
Definition c_lparen : rune := 40.
Definition c_rparen : rune := 41.
Definition c_star : rune := 42.
Definition c_plus : rune := 43.
Definition c_dash : rune := 45.
Definition c_dot : rune := 46.
Definition c_colon : rune := 58.
Definition c_quest : rune := 63.
Definition c_lbracket : rune := 91.
Definition c_backslash : rune := 92.
Definition c_rbracket : rune := 93.
Definition c_caret : rune := 94.
Definition c_lbrace : rune := 123.
Definition c_bar : rune := 124.
Definition c_rbrace : rune := 125.

Fixpoint nullable (re : Regexp) : bool :=
  match re with
  | EmptyMatch | BeginText | EndText => true
  | Literal _ _ | CharClass _ _ _ | AnyCharNotNL => false
  | Concat a b => nullable a && nullable b
  | Alternate a b => nullable a || nullable b
  | Star _ | Quest _ => true
  | Plus a | Capture a => nullable a
  end.

Record frame : Type := Frame { f_alts : list Regexp; f_cur : list Regexp }.

Definition finish_branch (cur : list Regexp) : Regexp :=
  fold_left (fun acc r => Concat r acc) cur EmptyMatch.

Definition finish_group (alts cur : list Regexp) : Regexp :=
  fold_left (fun acc b => Alternate b acc) alts (finish_branch cur).

Inductive pending : Type :=
| PNone (first : bool)     (* at the start of a class item *)
| PLo (lo : rune)          (* [lo] read, a range may follow *)
| PDash (lo : rune).       (* [lo-] read, the upper end comes next *)

Inductive mode : Type :=
| Expr (lastRepeat : bool)
| Class (neg : bool) (items : list (rune * rune)) (pd : pending).

Definition next_is (c : rune) (t : gostring) : bool :=
  match t with
  | c' :: _ => c' =? c
  | [] => false
  end.

Definition next_is_digit (t : gostring) : bool :=
  match t with
  | c' :: _ => is_digit c'
  | [] => false
  end.

(** Folding a rune outside ASCII needs the Unicode tables. *)
Definition needs_tables (fold : bool) (c : rune) : bool := fold && (128 <=? c).

Definition max_depth : nat := 100.

Inductive repeated : Type :=
| RepOk (cur' : list Regexp)
| RepStop (c : compiled).

(** [parser.repeat]: a repetition operator applies to the latest item. *)
Definition repeat (op : Regexp -> Regexp) (lastRepeat : bool)
    (cur : list Regexp) (t : gostring) : repeated :=
  if lastRepeat then RepStop (CError ErrInvalidRepeatOp)
  else
    match cur with
    | [] => RepStop (CError ErrMissingRepeatArgument)
    | a :: cur' =>
        if next_is c_quest t then RepStop CUnsupported
        else if nullable a then RepStop CUnsupported
        else RepOk (op a :: cur')
    end.

Definition repeat_operator (c : rune) : option (Regexp -> Regexp) :=
  if c =? c_star then Some Star
  else if c =? c_plus then Some Plus
  else if c =? c_quest then Some Quest
  else None.

Fixpoint parse (fold : bool) (stack : list frame) (alts cur : list Regexp)
    (m : mode) (s : gostring) {struct s} : compiled :=
  match m with
  | Expr lastRepeat =>
      match s with
      | [] =>
          match stack with
          | [] => COk (finish_group alts cur)
          | _ :: _ => CError ErrMissingParen
          end
      | c :: t =>
          if c =? c_lparen then
            if next_is c_quest t then CUnsupported
            else if (max_depth <=? length stack)%nat then CUnsupported
            else parse fold (Frame alts cur :: stack) [] [] (Expr false) t
          else if c =? c_bar then
            parse fold stack (finish_branch cur :: alts) [] (Expr false) t
          else if c =? c_rparen then
            match stack with
            | [] => CError ErrUnexpectedParen
            | Frame oalts ocur :: stack' =>
                parse fold stack' oalts
                  (Capture (finish_group alts cur) :: ocur) (Expr false) t
            end
          else if c =? c_caret then
            parse fold stack alts (BeginText :: cur) (Expr false) t
          else if c =? c_dollar then
            parse fold stack alts (EndText :: cur) (Expr false) t
          else if c =? c_dot then
            parse fold stack alts (AnyCharNotNL :: cur) (Expr false) t
          else if c =? c_lbracket then
            match t with
            | c' :: t' =>
                if c' =? c_caret
                then parse fold stack alts cur (Class true [] (PNone true)) t'
                else parse fold stack alts cur (Class false [] (PNone true)) t
            | [] => CError ErrMissingBracket
            end
          else if c =? c_lbrace then
            if next_is_digit t then CUnsupported
            else parse fold stack alts (Literal c fold :: cur) (Expr false) t
          else if c =? c_backslash then
            match t with
            | [] => CError ErrTrailingBackslash
            | c' :: t' =>
                if (c' <? 128) && negb (is_alnum c')
                then parse fold stack alts (Literal c' fold :: cur) (Expr false) t'
                else CUnsupported
            end
          else
            match repeat_operator c with
            | Some op =>
                match repeat op lastRepeat cur t with
                | RepOk cur' => parse fold stack alts cur' (Expr true) t
                | RepStop r => r
                end
            | None =>
                if needs_tables fold c then CUnsupported
                else parse fold stack alts (Literal c fold :: cur) (Expr false) t
            end
      end
  | Class neg items pd =>
      match s with
      | [] => CError ErrMissingBracket
      | c :: t =>
          match pd with
          | PDash lo =>
              if c =? c_backslash then CUnsupported
              else if needs_tables fold c then CUnsupported
              else if c <? lo then CError ErrInvalidCharRange
              else parse fold stack alts cur
                     (Class neg ((lo, c) :: items) (PNone false)) t
          | _ =>
              let items1 :=
                match pd with PLo lo => (lo, lo) :: items | _ => items end in
              let first1 := match pd with PNone f => f | _ => false end in
              let range_follows :=
                match pd, t with
                | PLo _, c' :: _ => (c =? c_dash) && negb (c' =? c_rbracket)
                | _, _ => false
                end in
              if range_follows then
                match pd with
                | PLo lo => parse fold stack alts cur (Class neg items (PDash lo)) t
                | _ => CUnsupported
                end
              else if (c =? c_rbracket) && negb first1 then
                parse fold stack alts (CharClass neg (rev items1) fold :: cur)
                  (Expr false) t
              else if c =? c_backslash then CUnsupported
              else if (c =? c_lbracket) && next_is c_colon t then CUnsupported
              else if needs_tables fold c then CUnsupported
              else parse fold stack alts cur (Class neg items1 (PLo c)) t
          end
      end
  end.

(** The flag group [(?i)] is read only at the very start. *)
Definition strip_flags (expr : gostring) : bool * gostring :=
  match expr with
  | 40 :: 63 :: 105 :: 41 :: rest => (true, rest)
  | _ => (false, expr)
  end.

(** [regexp/syntax] refuses expressions that are too large (more than some
    three million nodes); the model stops well below that. *)
Definition max_length : N := 1000000.

Definition within_limits (expr : gostring) : bool :=
  N.of_nat (length expr) <=? max_length.

Definition Compile (expr : gostring) : compiled :=
  if within_limits expr then
    let '(fold, rest) := strip_flags expr in
    parse fold [] [] [] (Expr false) rest
  else CUnsupported.

(** [regexp.MustCompile] panics when the expression does not parse. *)
Definition MustCompile (expr : gostring) : outcome Regexp :=
  match Compile expr with
  | COk re => Ret re
  | CError _ => Panic
  | CUnsupported => Unmodelled
  end.

(** *** Matching

    A position is the text still to read and whether it is the beginning of
    the whole text.  [run re p] lists, in the order of preference of the
    leftmost-first semantics, the positions at which a match of [re] that
    starts at [p] can end. *)
Definition position : Type := bool * gostring.

Definition step_rune (ok : rune -> bool) (p : position) : list position :=
  match snd p with
  | [] => []
  | c :: t => if ok c then [(false, t)] else []
  end.

Definition shorter (q p : position) : bool :=
  (length (snd q) <? length (snd p))%nat.

Fixpoint star_loop (step : position -> list position) (fuel : nat)
    (p : position) : list position :=
  match fuel with
  | O => [p]
  | S f =>
      flat_map (fun q => if shorter q p then star_loop step f q else [])
               (step p) ++ [p]
  end.

Fixpoint run (re : Regexp) (p : position) : list position :=
  match re with
  | EmptyMatch => [p]
  | Literal r fold => step_rune (literal_matches r fold) p
  | CharClass neg ranges fold => step_rune (class_matches neg ranges fold) p
  | AnyCharNotNL => step_rune (fun c => negb (c =? c_newline)) p
  | BeginText => if fst p then [p] else []
  | EndText => match snd p with [] => [p] | _ => [] end
  | Concat a b => flat_map (run b) (run a p)
  | Alternate a b => run a p ++ run b p
  | Star a => star_loop (run a) (length (snd p)) p
  | Plus a => flat_map (star_loop (run a) (length (snd p))) (run a p)
  | Quest a => run a p ++ [p]
  | Capture a => run a p
  end.

(** The preferred match starting exactly at [p]: the text left after it. *)
Definition match_here (re : Regexp) (p : position) : option gostring :=
  snd <$> head (run re p).

(** Leftmost match at or after the start of [s]: the number of runes skipped
    before the match and the text left after it. *)
Fixpoint find_from (re : Regexp) (bot : bool) (s : gostring)
    : option (nat * gostring) :=
  match match_here re (bot, s) with
  | Some rest => Some (O, rest)
  | None =>
      match s with
      | [] => None
      | _ :: t => (fun ir => (S (fst ir), snd ir)) <$> find_from re false t
      end
  end.

(** [re.doExecute(src, pos)]: the bounds [a[0], a[1]] of the leftmost match
    at or after index [pos]. *)
Definition doExecute (re : Regexp) (src : gostring) (pos : nat)
    : option (nat * nat) :=
  match find_from re (Nat.eqb pos 0) (drop pos src) with
  | Some (i, rest) => Some ((pos + i)%nat, (length src - length rest)%nat)
  | None => None
  end.

Definition FindStringIndex (re : Regexp) (s : gostring) : option (nat * nat) :=
  doExecute re s 0.

(** [FindString] answers the empty string both for no match and for an empty
    match. *)
Definition FindString (re : Regexp) (s : gostring) : gostring :=
  match doExecute re s 0 with
  | Some (lo, hi) => take (hi - lo) (drop lo s)
  | None => []
  end.

(** The loop of [replaceAll]; [repl] is the expanded replacement, which for a
    template without [$] is the template itself. *)
Fixpoint replaceAll (fuel : nat) (re : Regexp) (src repl : gostring)
    (lastMatchEnd searchPos : nat) (buf : gostring) : gostring :=
  match fuel with
  | O => buf ++ drop lastMatchEnd src
  | S f =>
      if (length src <? searchPos)%nat then buf ++ drop lastMatchEnd src
      else
        match doExecute re src searchPos with
        | None => buf ++ drop lastMatchEnd src
        | Some (a0, a1) =>
            let buf1 := buf ++ take (a0 - lastMatchEnd) (drop lastMatchEnd src) in
            let buf2 :=
              if (lastMatchEnd <? a1)%nat || Nat.eqb a0 0 then buf1 ++ repl
              else buf1 in
            let width := if (searchPos <? length src)%nat then 1%nat else 0%nat in
            let searchPos' :=
              if (a1 <? searchPos + width)%nat then (searchPos + width)%nat
              else if (a1 <? searchPos + 1)%nat then (searchPos + 1)%nat
              else a1 in
            replaceAll f re src repl a1 searchPos' buf2
        end
  end.

Definition ReplaceAllString (re : Regexp) (src repl : gostring)
    : outcome gostring :=
  if contains_rune c_dollar repl then Unmodelled
  else Ret (replaceAll (S (S (length src))) re src repl 0 0 []).

End regexp.

(** ** net/http: requests, response writers, handlers *)

(** The part of [*http.Request] the router reads. *)
Record Request : Type := mkRequest {
  Method : gostring;
  Path : gostring            (* [req.URL.Path] *)
}.

(** An [http.ResponseWriter], with the behaviour of
    [httptest.ResponseRecorder]: the first [WriteHeader] fixes the status code
    and takes a snapshot of the header map; a [Write] before any [WriteHeader]
    sends status 200 first. *)
Record ResponseWriter : Type := mkResponseWriter {
  HeaderMap : gmap gostring (list gostring);
  wroteHeader : bool;
  Code : Z;
  snapHeader : gmap gostring (list gostring);
  Body : gostring
}.

Definition StatusOK : Z := 200.
Definition StatusNotFound : Z := 404.

Definition NewRecorder : ResponseWriter :=
  {| HeaderMap := ∅; wroteHeader := false; Code := StatusOK;
     snapHeader := ∅; Body := [] |}.

(** [rw.Header().Set(key, value)]; the keys used here are in canonical form. *)
Definition Header_Set (key value : gostring) (rw : ResponseWriter)
    : ResponseWriter :=
  {| HeaderMap := <[key := [value]]> (HeaderMap rw);
     wroteHeader := wroteHeader rw; Code := Code rw;
     snapHeader := snapHeader rw; Body := Body rw |}.

Definition WriteHeader (code : Z) (rw : ResponseWriter) : ResponseWriter :=
  if wroteHeader rw then rw
  else {| HeaderMap := HeaderMap rw; wroteHeader := true; Code := code;
          snapHeader := HeaderMap rw; Body := Body rw |}.

Definition Write (buf : gostring) (rw : ResponseWriter) : ResponseWriter :=
  let rw1 := WriteHeader StatusOK rw in
  {| HeaderMap := HeaderMap rw1; wroteHeader := wroteHeader rw1;
     Code := Code rw1; snapHeader := snapHeader rw1;
     Body := Body rw1 ++ buf |}.

(** [fmt.Fprintln(rw, s)]: the operand and a newline, in one [Write]. *)
Definition Fprintln (s : gostring) (rw : ResponseWriter) : ResponseWriter :=
  Write (s ++ [regexp.c_newline]) rw.

(** A value of a Go function type: a function, which may panic, or [nil]. *)
Inductive RequestHandler : Type :=
| HandlerFunc (f : ResponseWriter -> Request -> outcome ResponseWriter)
| NilHandler.

(** [handler(rw, req)]; calling a nil function panics. *)
Definition call (handler : RequestHandler) (rw : ResponseWriter) (req : Request)
    : outcome ResponseWriter :=
  match handler with
  | HandlerFunc f => f rw req
  | NilHandler => Panic
  end.

(** A Go [error] value; [None] is [nil]. *)
Abbreviation error := (option gostring).

(** ** router.go *)

Record RequestHandlerPackage : Type := mkPackage {
  Handler : RequestHandler;
  IndexParams : gmap Z gostring
}.

(** The zero value, which a lookup of a missing key yields. *)
Definition zeroPackage : RequestHandlerPackage :=
  {| Handler := NilHandler; IndexParams := ∅ |}.

Abbreviation RouteTable := (gmap gostring RequestHandlerPackage).
Abbreviation RequestHandlerMap := (gmap gostring (gmap gostring RequestHandlerPackage)).

Definition GET : gostring := str "GET".
Definition HEAD : gostring := str "HEAD".
Definition OPTIONS : gostring := str "OPTIONS".
Definition TRACE : gostring := str "TRACE".
Definition PUT : gostring := str "PUT".
Definition DELETE : gostring := str "DELETE".
Definition POST : gostring := str "POST".
Definition PATCH : gostring := str "PATCH".
Definition CONNECT : gostring := str "CONNECT".

(** [routes] is [None] for the nil map of a zero [Router]; reading a nil map
    finds nothing, assigning to it panics. *)
Record Router : Type := mkRouter {
  routes : option RequestHandlerMap
}.

Definition NewRouter : Router := {| routes := Some ∅ |}.

Definition RegisteredRoutes (r : Router) : option RequestHandlerMap := routes r.

(** [r.routes[method]] with its comma-ok flag folded into the option. *)
Definition method_table (r : Router) (method : gostring) : option RouteTable :=
  match routes r with
  | Some rm => rm !! method
  | None => None
  end.

Definition routeNotFoundHandler_body (rw : ResponseWriter) (req : Request)
    : outcome ResponseWriter :=
  let rw1 := Header_Set (str "Content-Type") (str "text/plain") rw in
  let rw2 := WriteHeader StatusNotFound rw1 in
  Ret (Fprintln (str "404 - Page not found") rw2).

Definition routeNotFoundHandler : RequestHandler :=
  HandlerFunc routeNotFoundHandler_body.

(** The loop of [matchRoutePattern] over the keys in the order [keysIter]
    yields them. *)
Fixpoint matchRoutePattern (keysIter : list gostring) (path : gostring)
    : outcome (gostring * bool) :=
  match keysIter with
  | [] => Ret ([], false)
  | k :: rest =>
      do re <- regexp.MustCompile (str "(?i)" ++ k);
      let record := regexp.FindString re path in
      if negb (Nat.eqb (length record) 0) then Ret (k, true)
      else matchRoutePattern rest path
  end.

(** [order] is the sequence in which [maps.Keys] yields the keys of the
    method's table during this call. *)
Definition findReqHandler (r : Router) (order : list gostring) (req : Request)
    : outcome (RequestHandler * error) :=
  match method_table r (Method req) with
  | None => Ret (routeNotFoundHandler, None)
  | Some table =>
      match table !! Path req with
      | Some handlerPackage => Ret (Handler handlerPackage, None)
      | None =>
          do found <- matchRoutePattern order (Path req);
          if snd found
          then Ret (Handler (default zeroPackage (table !! fst found)), None)
          else Ret (routeNotFoundHandler, None)
      end
  end.

(** What a dispatch does besides answering: the debug record and the call. *)
Inductive event : Type :=
| LogDebug (method path : gostring)
| Call (handler : RequestHandler).

Definition debugRequest (req : Request) : list event :=
  [LogDebug (Method req) (Path req)].

Definition ServeHTTP (r : Router) (order : list gostring)
    (rw : ResponseWriter) (req : Request)
    : outcome (list event * ResponseWriter) :=
  let log := debugRequest req in
  do found <- findReqHandler r order req;
  match snd found with
  | Some _ => Fatal
  | None =>
      do rw' <- call (fst found) rw req;
      Ret (log ++ [Call (fst found)], rw')
  end.

Definition placeholder_expr : gostring := str "(?i)({[a-z0-9-_]+})".
Definition capture_group : gostring := str "([a-z0-9-_]+)".

(** [r.routes[method][key] = pkg], after the method's table was made when it
    was missing. *)
Definition store (rm : RequestHandlerMap) (method key : gostring)
    (pkg : RequestHandlerPackage) : RequestHandlerMap :=
  <[method := <[key := pkg]> (default ∅ (rm !! method))]> rm.

Definition RegisterRoute (r : Router) (method path : gostring)
    (handler : RequestHandler) : outcome Router :=
  match routes r with
  | None => Panic
  | Some rm =>
      do re <- regexp.MustCompile placeholder_expr;
      match regexp.FindStringIndex re path with
      | None =>
          Ret {| routes := Some (store rm method path
                   {| Handler := handler; IndexParams := ∅ |}) |}
      | Some _ =>
          do replaced <- regexp.ReplaceAllString re path capture_group;
          let newPath := str "^" ++ replaced ++ str "$" in
          Ret {| routes := Some (store rm method newPath
                   {| Handler := handler; IndexParams := ∅ |}) |}
      end
  end.

(** [order] is one possible iteration of the keys of [table]: every key once. *)
Definition yields (table : RouteTable) (order : list gostring) : Prop :=
  order ≡ₚ (map_to_list table).*1.

(** The key [k], prefixed by [(?i)], compiles: it is written in the part of
    the syntax that the model of [regexp] covers, and is valid.  A valid
    expression outside that part (a rune beyond ASCII under [(?i)], an escape
    such as [\d], a counted repetition, ...) does not satisfy this. *)
Definition compiles (k : gostring) : Prop :=
  ∃ re, regexp.Compile (str "(?i)" ++ k) = regexp.COk re.


(** ** Example routes, after the repository's tests *)

(** A handler that answers 200 with the given body. *)
Definition textHandler (body : gostring) : RequestHandler :=
  HandlerFunc (fun rw _ => Ret (Write body (WriteHeader StatusOK rw))).

Definition handlerA : RequestHandler := textHandler (str "A").
Definition handlerB : RequestHandler := textHandler (str "B").

Definition entry (h : RequestHandler) : RequestHandlerPackage :=
  {| Handler := h; IndexParams := ∅ |}.

(** GET /users/me registered with [handlerA], GET /users/{id} with [handlerB]. *)
Definition users_table : RouteTable :=
  <[str "/users/me" := entry handlerA]>
    {[str "^/users/([a-z0-9-_]+)$" := entry handlerB]}.

Definition users_router : Router :=
  {| routes := Some {[GET := users_table]} |}.

(** No route matches the request: the method is unknown, or the path is no
    key of its table and the fallback loop finds no matching key. *)
Definition no_route_matches (r : Router) (order : list gostring)
    (req : Request) : Prop :=
  match method_table r (Method req) with
  | None => True
  | Some table =>
      table !! Path req = None ∧
      ∃ k, matchRoutePattern order (Path req) = Ret (k, false)
  end.

(** The response of the built-in not-found handler on a writer whose header
    was not sent yet. *)
Definition is_not_found_response (rw rw' : ResponseWriter) : Prop :=
  HeaderMap rw' !! str "Content-Type" = Some [str "text/plain"] ∧
  snapHeader rw' !! str "Content-Type" = Some [str "text/plain"] ∧
  Code rw' = 404%Z ∧
  Body rw' = Body rw ++ str "404 - Page not found" ++ [10].

(** The expression of [RegisterRoute], parsed. *)
Definition placeholder_charset : list (rune * rune) :=
  [(97, 122); (48, 57); (45, 45); (95, 95)].

Definition placeholder_class : regexp.Regexp :=
  regexp.CharClass false placeholder_charset true.

Definition placeholder_regexp : regexp.Regexp :=
  regexp.Concat
    (regexp.Capture
       (regexp.Concat (regexp.Literal 123 true)
          (regexp.Concat (regexp.Plus placeholder_class)
             (regexp.Concat (regexp.Literal 125 true) regexp.EmptyMatch))))
    regexp.EmptyMatch.

(** ** The route key, after the specification

    A placeholder is an opening brace, one or more name runes and a closing
    brace.  The name runes are those the class [[a-z0-9-_]] accepts without
    regard to case: the ASCII letters and digits, the hyphen, the underscore,
    and the two runes outside ASCII that fold to a letter. *)
Definition name_rune (c : rune) : bool :=
  regexp.is_lower c || regexp.is_upper c || regexp.is_digit c ||
  (c =? 45) || (c =? 95) || (c =? regexp.KELVIN) || (c =? regexp.LONG_S).

Definition valid_name (name : gostring) : bool :=
  negb (Nat.eqb (length name) 0) && forallb name_rune name.

(** The longest run of name runes at the start of [s], and what follows. *)
Fixpoint span_name (s : gostring) : gostring * gostring :=
  match s with
  | [] => ([], [])
  | c :: t =>
      if name_rune c
      then let nr := span_name t in (c :: fst nr, snd nr)
      else ([], s)
  end.

(** The placeholder span that starts at the head of [s], if there is one:
    its name and the text after its closing brace. *)
Definition placeholder_at (s : gostring) : option (gostring * gostring) :=
  match s with
  | c :: t =>
      if c =? 123 then
        match span_name t with
        | (c1 :: name, c' :: rest) =>
            if c' =? 125 then Some (c1 :: name, rest) else None
        | _ => None
        end
      else None
  | [] => None
  end.

Definition starts_placeholder (s : gostring) : bool :=
  match placeholder_at s with Some _ => true | None => false end.

Fixpoint has_placeholder (s : gostring) : bool :=
  match s with
  | [] => false
  | _ :: t => starts_placeholder s || has_placeholder t
  end.

(** The path with every placeholder span replaced by the capture group:
    at a span the group is written and the runes of the span are skipped. *)
Fixpoint substitute (skip : nat) (s : gostring) : gostring :=
  match s with
  | [] => []
  | c :: t =>
      match skip with
      | S k => substitute k t
      | O =>
          match placeholder_at s with
          | Some (name, _) => capture_group ++ substitute (S (length name)) t
          | None => c :: substitute O t
          end
      end
  end.

Definition replace_placeholders (path : gostring) : gostring :=
  substitute 0 path.

Definition route_key (path : gostring) : gostring :=
  if has_placeholder path
  then str "^" ++ replace_placeholders path ++ str "$"
  else path.

(** The leftmost placeholder of [s]: the number of runes before it and the
    text after it. *)
Fixpoint first_placeholder (s : gostring) : option (nat * gostring) :=
  match placeholder_at s with
  | Some (_, rest) => Some (O, rest)
  | None =>
      match s with
      | [] => None
      | _ :: t => (fun ir => (S (fst ir), snd ir)) <$> first_placeholder t
      end
  end.

(** The closing brace and the end of the expression. *)
Definition closing : regexp.Regexp :=
  regexp.Concat (regexp.Literal 125 true) regexp.EmptyMatch.

(** ** Route templates

    A registered path read as literal text interleaved with placeholders. *)
Inductive piece : Type :=
| Text (l : gostring)
| Param (name : gostring).

Abbreviation template := (list piece).

Definition render_piece (p : piece) : gostring :=
  match p with
  | Text l => l
  | Param name => 123 :: name ++ [125]
  end.

(** The path a template stands for. *)
Fixpoint render (t : template) : gostring :=
  match t with
  | [] => []
  | p :: rest => render_piece p ++ render rest
  end.

Definition key_piece (p : piece) : gostring :=
  match p with
  | Text l => l
  | Param _ => capture_group
  end.

(** The template with the capture group in place of each placeholder. *)
Fixpoint render_key (t : template) : gostring :=
  match t with
  | [] => []
  | p :: rest => key_piece p ++ render_key rest
  end.

Definition is_param (p : piece) : bool :=
  match p with Param _ => true | Text _ => false end.

Definition count_slash (s : gostring) : Z :=
  Z.of_nat (length (filter (fun c => c = 47) s)).

Definition brace_free (s : gostring) : bool :=
  forallb (fun c => negb (c =? 123) && negb (c =? 125)) s.

(** ** The scanning [RegisterRoute]

    The variant of the router that finds the placeholders by a scan of the
    path and records, for each, the depth at which it lies. *)
Module ParamScan.

Record RequestHandlerPackage : Type := mkPackage {
  Handler : RequestHandler;
  ParamList : gmap Z gostring
}.

Record Router : Type := mkRouter {
  routes : option (gmap gostring (gmap gostring RequestHandlerPackage))
}.

Definition NewRouter : Router := {| routes := Some ∅ |}.

Record paramSearch : Type := mkParamSearch {
  start : nat;
  end_ : nat;
  pos : Z;
  name : gostring
}.

(** The variables of the first loop. *)
Record scanner : Type := mkScanner {
  paramList : list paramSearch;
  pathDepth : Z;
  found : bool;
  foundAt : nat;
  paramNameBuilder : gostring
}.

Definition scan_init : scanner :=
  {| paramList := []; pathDepth := (-1)%Z; found := false; foundAt := 0%nat;
     paramNameBuilder := [] |}.

(** The [switch] of the loop body. *)
Definition scan_switch (st : scanner) (i : nat) (c : rune) : scanner :=
  if c =? 47 then
    {| paramList := paramList st; pathDepth := (pathDepth st + 1)%Z;
       found := found st; foundAt := foundAt st;
       paramNameBuilder := paramNameBuilder st |}
  else if c =? 123 then
    {| paramList := paramList st; pathDepth := pathDepth st;
       found := true; foundAt := i;
       paramNameBuilder := paramNameBuilder st |}
  else if c =? 125 then
    {| paramList := paramList st ++
         [{| start := foundAt st; end_ := i; pos := pathDepth st;
             name := paramNameBuilder st |}];
       pathDepth := pathDepth st; found := false; foundAt := foundAt st;
       paramNameBuilder := [] |}
  else st.

(** One iteration: the [switch], then the rune is kept when inside braces. *)
Definition scan_step (st : scanner) (i : nat) (c : rune) : scanner :=
  let st1 := scan_switch st i c in
  if found st1 && negb (c =? 123) then
    {| paramList := paramList st1; pathDepth := pathDepth st1;
       found := found st1; foundAt := foundAt st1;
       paramNameBuilder := paramNameBuilder st1 ++ [c] |}
  else st1.

(** [for i, c := range path], from index [i] on. *)
Fixpoint scan_loop (st : scanner) (i : nat) (s : gostring) : scanner :=
  match s with
  | [] => st
  | c :: t => scan_loop (scan_step st i c) (S i) t
  end.

(** [s[lo:hi]]; out-of-order or out-of-range bounds panic. *)
Definition slice (s : gostring) (lo hi : nat) : outcome gostring :=
  if (lo <=? hi)%nat && (hi <=? length s)%nat
  then Ret (take (hi - lo) (drop lo s))
  else Panic.

(** The variables of the second loop. *)
Record builder : Type := mkBuilder {
  lastPos : nat;
  pathBuilder : gostring;
  reqParamList : gmap Z gostring
}.

Fixpoint build_loop (path : gostring) (params : list paramSearch)
    (b : builder) : outcome builder :=
  match params with
  | [] => Ret b
  | param :: rest =>
      do text <- slice path (lastPos b) (start param);
      build_loop path rest
        {| lastPos := S (end_ param);
           pathBuilder := pathBuilder b ++ text ++ capture_group;
           reqParamList := <[pos param := name param]> (reqParamList b) |}
  end.

Definition store (rm : gmap gostring (gmap gostring RequestHandlerPackage))
    (method key : gostring) (pkg : RequestHandlerPackage)
    : gmap gostring (gmap gostring RequestHandlerPackage) :=
  <[method := <[key := pkg]> (default ∅ (rm !! method))]> rm.

Definition RegisterRoute (r : Router) (method path : gostring)
    (handler : RequestHandler) : outcome Router :=
  match routes r with
  | None => Panic
  | Some rm =>
      let st := scan_loop scan_init 0 path in
      do b <- build_loop path (paramList st)
                {| lastPos := 0; pathBuilder := []; reqParamList := ∅ |};
      do rest <- slice path (lastPos b) (length path);
      let newPath := str "^" ++ (pathBuilder b ++ rest) ++ str "$" in
      Ret {| routes := Some (store rm method newPath
               {| Handler := handler; ParamList := reqParamList b |}) |}
  end.

(** What the first loop finds in a template whose texts and names hold no
    brace: for each placeholder the indices of its braces, the depth reached
    at its closing brace, and its name. *)
Fixpoint params_of (i : nat) (d : Z) (t : template) : list paramSearch :=
  match t with
  | [] => []
  | Text l :: rest => params_of (i + length l) (d + count_slash l) rest
  | Param n :: rest =>
      {| start := i; end_ := S (i + length n); pos := (d + count_slash n)%Z;
         name := n |}
      :: params_of (S (S (i + length n))) (d + count_slash n) rest
  end.

Definition well_formed (t : template) : bool :=
  forallb (fun p => match p with Text l => brace_free l
                               | Param n => brace_free n end) t.

(** The map the second loop builds: a later placeholder at the same depth
    overwrites an earlier one. *)
Definition param_map (params : list paramSearch) (m : gmap Z gostring)
    : gmap Z gostring :=
  fold_left (fun acc p => <[pos p := name p]> acc) params m.

End ParamScan.

(** The depth of a rune that follows the text [before] in a path: the number
    of slashes read so far, less one.  In a path that begins with a slash it
    is the zero-based index of the segment the rune lies in. *)
Definition depth_after (before : gostring) : Z := (count_slash before - 1)%Z.

(** The depth of the placeholder named [n] that follows the pieces [t1], as
    the scan reads it at the closing brace. *)
Definition placeholder_depth (t1 : template) (n : gostring) : Z :=
  depth_after (render t1 ++ 123 :: n).

(** ** Pattern routes with plain text

    A rune is plain when the parser of [regexp] reads it as a literal under
    the flag [(?i)]: an ASCII rune that is no metacharacter. *)
Definition metacharacters : gostring :=
  [36; 40; 41; 42; 43; 46; 63; 91; 92; 94; 123; 124].

Definition plain_rune (c : rune) : bool :=
  (c <? 128) && negb (existsb (N.eqb c) metacharacters).

Definition plain_template (t : template) : bool :=
  forallb (fun p => match p with
                    | Text l => forallb plain_rune l
                    | Param n => valid_name n
                    end) t.

(** The expression a pattern key compiles to. *)
Definition capture_regexp : regexp.Regexp :=
  regexp.Capture
    (regexp.Concat (regexp.Plus placeholder_class) regexp.EmptyMatch).

Definition piece_items (p : piece) : list regexp.Regexp :=
  match p with
  | Text l => map (fun c => regexp.Literal c true) l
  | Param _ => [capture_regexp]
  end.

Definition template_items (t : template) : list regexp.Regexp :=
  flat_map piece_items t.

Definition template_regexp (t : template) : regexp.Regexp :=
  regexp.Concat regexp.BeginText
    (foldr regexp.Concat (regexp.Concat regexp.EndText regexp.EmptyMatch)
       (template_items t)).

(** [l'] is [l] up to the case of its letters. *)
Definition fold_equal (l l' : gostring) : Prop :=
  Forall2 (fun c c' => regexp.literal_matches c true c' = true) l l'.

(** The path [q] is the template with each text kept up to case and each
    placeholder replaced by one or more name runes. *)
Fixpoint instantiates (t : template) (q : gostring) : Prop :=
  match t with
  | [] => q = []
  | Text l :: rest =>
      ∃ l' q', q = l' ++ q' ∧ fold_equal l l' ∧ instantiates rest q'
  | Param _ :: rest =>
      ∃ v q', q = v ++ q' ∧ valid_name v = true ∧ instantiates rest q'
  end.

(** For each slash-separated segment of [s], whether it is not empty. *)
Fixpoint seg_shape (s : gostring) : list bool :=
  match s with
  | [] => [false]
  | c :: t => if c =? 47 then false :: seg_shape t
              else true :: tail (seg_shape t)
  end.

(** The segments of a text followed by another: the last segment of the
    first runs on into the first segment of the second. *)
Fixpoint join (xs ys : list bool) : list bool :=
  match xs with
  | [] => ys
  | x :: xs' =>
      match xs' with
      | [] => (x || hd false ys) :: tail ys
      | _ :: _ => x :: join xs' ys
      end
  end.

(** For each slash-separated segment of the route, whether it holds a
    placeholder. *)
Fixpoint param_segments (t : template) : list bool :=
  match t with
  | [] => [false]
  | Text l :: rest => join (map (fun _ => false) (seg_shape l)) (param_segments rest)
  | Param _ :: rest => join [true] (param_segments rest)
  end.

(** Some segment that holds a placeholder in the route is missing or empty
    in the path. *)
Definition empty_param_segment (t : template) (q : gostring) : Prop :=
  ∃ j, param_segments t !! j = Some true ∧ seg_shape q !! j ≠ Some true.

(** Every segment that holds a placeholder is present and not empty. *)
Definition covers (ts qs : list bool) : Prop :=
  Forall2 (fun a b => a = true → b = true) ts qs.

(** ** Literal keys in the fallback loop *)

(** The expression a literal key of plain runes compiles to. *)
Definition text_regexp (l : gostring) : regexp.Regexp :=
  foldr regexp.Concat regexp.EmptyMatch
    (map (fun c => regexp.Literal c true) l).

(** The text left when [q] starts with [l] up to case. *)
Fixpoint strip_fold_prefix (l q : gostring) : option gostring :=
  match l, q with
  | [], _ => Some q
  | c :: l', c' :: q' =>
      if regexp.literal_matches c true c' then strip_fold_prefix l' q' else None
  | _ :: _, [] => None
  end.

(** ** Running the repository's tests *)

(** The router after a registration that returns. *)
Definition registered (o : outcome Router) : Router :=
  match o with
  | Ret r => r
  | _ => NewRouter
  end.

(** One iteration order of the keys of a method's table. *)
Definition some_order (r : Router) (method : gostring) : list gostring :=
  match method_table r method with
  | Some table => (map_to_list table).*1
  | None => []
  end.

(** The status code and the body a fresh recorder holds after the dispatch. *)
Definition recorded (r : Router) (method path : gostring)
    : option (Z * gostring) :=
  match ServeHTTP r (some_order r method) NewRecorder (mkRequest method path) with
  | Ret (_, rw) => Some (Code rw, Body rw)
  | _ => None
  end.

Definition status (r : Router) (method path : gostring) : option Z :=
  fst <$> recorded r method path.

(** ** Sequences of registrations *)

(** One call of [RegisterRoute], as the application makes it. *)
Record route : Type := mkRoute {
  r_method : gostring;
  r_path : gostring;
  r_handler : RequestHandler
}.

(** The calls of a set-up phase, in order; a panic ends it. *)
Fixpoint register_all (r : Router) (rs : list route) : outcome Router :=
  match rs with
  | [] => Ret r
  | x :: rest =>
      do r' <- RegisterRoute r (r_method x) (r_path x) (r_handler x);
      register_all r' rest
  end.

(** [r.routes[method][key]] with its comma-ok flag. *)
Definition route_entry (r : Router) (method key : gostring)
    : option RequestHandlerPackage :=
  match method_table r method with
  | Some table => table !! key
  | None => None
  end.

(** The handler of the last call in [rs] that stores under [method] and
    [key]. *)
Fixpoint last_registered (rs : list route) (method key : gostring)
    : option RequestHandler :=
  match rs with
  | [] => None
  | x :: rest =>
      match last_registered rest method key with
      | Some h => Some h
      | None =>
          if decide (r_method x = method ∧ route_key (r_path x) = key)
          then Some (r_handler x) else None
      end
  end.

(** ** Keys in the fallback loop *)

(** The key compiles and finds a non-empty match in the path. *)
Definition key_matches (k path : gostring) : Prop :=
  ∃ re, regexp.Compile (str "(?i)" ++ k) = regexp.COk re ∧
        regexp.FindString re path ≠ [].

(** The key compiles and finds no match, or an empty one, in the path. *)
Definition key_rejects (k path : gostring) : Prop :=
  ∃ re, regexp.Compile (str "(?i)" ++ k) = regexp.COk re ∧
        regexp.FindString re path = [].


(** The template with the names of its placeholders forgotten. *)
Definition forget_names (t : template) : template :=
  map (fun p => match p with Text l => Text l | Param _ => Param [] end) t.

(** A registration whose path is made of plain runes and well-formed
    placeholders, with a key of a size the model of [regexp] covers. *)
Definition plain_route (x : route) : Prop :=
  ∃ t, r_path x = render t ∧ plain_template t = true ∧
       regexp.within_limits (str "(?i)" ++ route_key (r_path x)) = true.

(** The path [q] holds the text [l], up to the case of its letters. *)
Definition occurs_folded (l q : gostring) : Prop :=
  ∃ pre l' post, q = pre ++ l' ++ post ∧ fold_equal l l'.

(** ** The exact-match router

    The first version of the router: a table of handlers by method and path,
    looked up by the path as it is. *)
Module ExactRouter.

Abbreviation ReqHandlerMap := (gmap gostring (gmap gostring RequestHandler)).

Record Router : Type := mkRouter {
  routes : option ReqHandlerMap
}.

Definition NewRouter : Router := {| routes := Some ∅ |}.

Definition findReqHandler (r : Router) (req : Request)
    : RequestHandler * error :=
  match routes r with
  | None => (routeNotFoundHandler, None)
  | Some rm =>
      match rm !! Method req with
      | None => (routeNotFoundHandler, None)
      | Some table =>
          match table !! Path req with
          | None => (routeNotFoundHandler, None)
          | Some handler => (handler, None)
          end
      end
  end.

Definition ServeHTTP (r : Router) (rw : ResponseWriter) (req : Request)
    : outcome (list event * ResponseWriter) :=
  let log := debugRequest req in
  let found := findReqHandler r req in
  match snd found with
  | Some _ => Fatal
  | None =>
      do rw' <- call (fst found) rw req;
      Ret (log ++ [Call (fst found)], rw')
  end.

(** An assignment into a nil map panics. *)
Definition RegisterRoute (r : Router) (method path : gostring)
    (handler : RequestHandler) : outcome Router :=
  match routes r with
  | None => Panic
  | Some rm =>
      Ret {| routes :=
               Some (<[method := <[path := handler]> (default ∅ (rm !! method))]> rm) |}
  end.

Fixpoint register_all (r : Router) (rs : list route) : outcome Router :=
  match rs with
  | [] => Ret r
  | x :: rest =>
      do r' <- RegisterRoute r (r_method x) (r_path x) (r_handler x);
      register_all r' rest
  end.

(** The handler of the last registration of the method and path. *)
Fixpoint last_registered (rs : list route) (method path : gostring)
    : option RequestHandler :=
  match rs with
  | [] => None
  | x :: rest =>
      match last_registered rest method path with
      | Some h => Some h
      | None =>
          if decide (r_method x = method ∧ r_path x = path)
          then Some (r_handler x) else None
      end
  end.

End ExactRouter.

(** ** The server *)

(** The [http.Server] that [Run] makes; [None] is the nil pointer a new
    server holds. *)
Record HttpServer : Type := mkHttpServer {
  Addr : gostring
}.

Record Server : Type := mkServer {
  address : gostring;
  port : Z;
  server : option HttpServer;
  router : Router
}.

Definition GetRouter (s : Server) : Router := router s.

Definition NewServer (addr : gostring) (port : Z) : Server :=
  {| address := addr; port := port; server := None; router := NewRouter |}.

(** ** The dispatcher of the scanning version

    It differs from the dispatcher of [router.go] in the package type and in
    what it does once a key matched: it compiles the placeholder expression
    and logs the submatches found in the request path, which have no part in
    the choice of the handler. *)
Module ParamScanDispatch.

Abbreviation RouteTable := (gmap gostring ParamScan.RequestHandlerPackage).

Definition zeroPackage : ParamScan.RequestHandlerPackage :=
  {| ParamScan.Handler := NilHandler; ParamScan.ParamList := ∅ |}.

Definition method_table (r : ParamScan.Router) (method : gostring)
    : option RouteTable :=
  match ParamScan.routes r with
  | Some rm => rm !! method
  | None => None
  end.

Definition findReqHandler (r : ParamScan.Router) (order : list gostring)
    (req : Request) : outcome (RequestHandler * error) :=
  match method_table r (Method req) with
  | None => Ret (routeNotFoundHandler, None)
  | Some table =>
      match table !! Path req with
      | Some handlerPackage => Ret (ParamScan.Handler handlerPackage, None)
      | None =>
          do found <- matchRoutePattern order (Path req);
          if snd found
          then
            do re <- regexp.MustCompile placeholder_expr;
            Ret (ParamScan.Handler (default zeroPackage (table !! fst found)),
                 None)
          else Ret (routeNotFoundHandler, None)
      end
  end.

Definition yields (table : RouteTable) (order : list gostring) : Prop :=
  order ≡ₚ (map_to_list table).*1.

End ParamScanDispatch.

(** ** Templates with arbitrary literal text *)

Definition no_lbrace (l : gostring) : bool :=
  forallb (fun c => negb (c =? 123)) l.

(** The texts hold no opening brace and the names are names the expression
    of [RegisterRoute] accepts. *)
Definition named_template (t : template) : bool :=
  forallb (fun p => match p with
                    | Text l => no_lbrace l
                    | Param n => valid_name n
                    end) t.

(** The texts are made of plain runes; nothing is asked of the names. *)
Definition plain_texts (t : template) : bool :=
  forallb (fun p => match p with
                    | Text l => forallb plain_rune l
                    | Param _ => true
                    end) t.

(** ** The route key, after the words of the specification

    There a placeholder is any span from an opening brace to the next closing
    brace, and its name, the text between them, is opaque. *)
Fixpoint opaque_span (s : gostring) : option (gostring * gostring) :=
  match s with
  | [] => None
  | c :: t =>
      if c =? 125 then Some ([], t)
      else match opaque_span t with
           | Some (name, rest) => Some (c :: name, rest)
           | None => None
           end
  end.

Definition opaque_placeholder_at (s : gostring) : option (gostring * gostring) :=
  match s with
  | c :: t => if c =? 123 then opaque_span t else None
  | [] => None
  end.

Fixpoint opaque_has_placeholder (s : gostring) : bool :=
  match s with
  | [] => false
  | _ :: t =>
      match opaque_placeholder_at s with
      | Some _ => true
      | None => opaque_has_placeholder t
      end
  end.

Fixpoint opaque_substitute (skip : nat) (s : gostring) : gostring :=
  match s with
  | [] => []
  | c :: t =>
      match skip with
      | S k => opaque_substitute k t
      | O =>
          match opaque_placeholder_at s with
          | Some (name, _) =>
              capture_group ++ opaque_substitute (S (length name)) t
          | None => c :: opaque_substitute O t
          end
      end
  end.

Definition spec_route_key (path : gostring) : gostring :=
  if opaque_has_placeholder path
  then str "^" ++ opaque_substitute 0 path ++ str "$"
  else path.

(** ** The keys a dispatch compiles *)

(** The keys the loop of [matchRoutePattern] reaches: those of the iteration
    up to and including the first that matches or fails to compile. *)
Fixpoint visited (order : list gostring) (path : gostring) : list gostring :=
  match order with
  | [] => []
  | k :: rest =>
      k :: match regexp.Compile (str "(?i)" ++ k) with
           | regexp.COk re =>
               if negb (Nat.eqb (length (regexp.FindString re path)) 0)
               then []
               else visited rest path
           | _ => []
           end
  end.

(** The keys [findReqHandler] compiles for a request: none when the method is
    unknown or the path is a key of its table. *)
Definition compiled_keys (r : Router) (order : list gostring) (req : Request)
    : list gostring :=
  match method_table r (Method req) with
  | None => []
  | Some table =>
      match table !! Path req with
      | Some _ => []
      | None => visited order (Path req)
      end
  end.

(** GET /a( registered with [handlerA], GET /users/{id} with [handlerB]: a
    key that is no valid expression beside a pattern key. *)
Definition mixed_table : RouteTable :=
  <[str "/a(" := entry handlerA]>
    {[str "^/users/([a-z0-9-_]+)$" := entry handlerB]}.

Definition mixed_router : Router :=
  {| routes := Some {[GET := mixed_table]} |}.
(** ** Properties of the dispatcher *)

Lemma MustCompile_Ret expr re :
  regexp.Compile expr = regexp.COk re → regexp.MustCompile expr = Ret re.
Proof. unfold regexp.MustCompile. by intros ->. Qed.

Lemma MustCompile_Panic expr e :
  regexp.Compile expr = regexp.CError e → regexp.MustCompile expr = Panic.
Proof. unfold regexp.MustCompile. by intros ->. Qed.

Lemma yields_elem_of table order k :
  yields table order → k ∈ order → is_Some (table !! k).
Proof.
  unfold yields. intros Hp Hk. rewrite Hp in Hk.
  apply list_elem_of_fmap in Hk as [[k' pkg] [-> Hin]].
  apply elem_of_map_to_list in Hin. by exists pkg.
Qed.

Lemma yields_insert table k pkg :
  yields (<[k := pkg]> table) (k :: (map_to_list (delete k table)).*1).
Proof.
  unfold yields.
  assert (<[k := pkg]> table = <[k := pkg]> (delete k table)) as ->
    by (symmetry; apply insert_delete_eq).
  rewrite map_to_list_insert by apply lookup_delete_eq. done.
Qed.

Lemma yields_singleton k pkg order :
  yields {[k := pkg]} order → order = [k].
Proof.
  unfold yields. rewrite map_to_list_singleton. simpl.
  intros Hp. symmetry in Hp. by apply Permutation_singleton_l in Hp.
Qed.

Lemma matchRoutePattern_cons k rest path :
  matchRoutePattern (k :: rest) path =
    (do re <- regexp.MustCompile (str "(?i)" ++ k);
     if negb (Nat.eqb (length (regexp.FindString re path)) 0) then Ret (k, true)
     else matchRoutePattern rest path).
Proof. reflexivity. Qed.

Lemma matchRoutePattern_first_fails k rest path e :
  regexp.Compile (str "(?i)" ++ k) = regexp.CError e →
  matchRoutePattern (k :: rest) path = Panic.
Proof.
  intros He. rewrite matchRoutePattern_cons.
  by rewrite (MustCompile_Panic _ _ He).
Qed.

Lemma matchRoutePattern_returns order path :
  Forall compiles order → ∃ res, matchRoutePattern order path = Ret res.
Proof.
  induction 1 as [|k rest [re Hre] _ IH]; [by eexists|].
  rewrite matchRoutePattern_cons, (MustCompile_Ret _ _ Hre). simpl.
  destruct (negb _); [by eexists | exact IH].
Qed.

Lemma matchRoutePattern_found order path k :
  matchRoutePattern order path = Ret (k, true) → k ∈ order.
Proof.
  induction order as [|k' rest IH]; [done|].
  rewrite matchRoutePattern_cons.
  destruct (regexp.MustCompile _); simpl; try done.
  destruct (negb _).
  - intros [= <-]. apply list_elem_of_here.
  - intros H. apply list_elem_of_further. by apply IH.
Qed.

Lemma findReqHandler_nil_error r order req h e :
  findReqHandler r order req = Ret (h, e) → e = None.
Proof.
  unfold findReqHandler.
  destruct (method_table r (Method req)) as [table|]; [|by intros [= _ <-]].
  destruct (table !! Path req); [by intros [= _ <-]|].
  destruct (matchRoutePattern order (Path req)) as [[k b]| | |]; simpl; try done.
  destruct b; by intros [= _ <-].
Qed.

Lemma findReqHandler_returns r order req :
  Forall compiles order → ∃ h, findReqHandler r order req = Ret (h, None).
Proof.
  intros Hc. unfold findReqHandler.
  destruct (method_table r (Method req)) as [table|]; [|by eexists].
  destruct (table !! Path req); [by eexists|].
  destruct (matchRoutePattern_returns order (Path req) Hc) as [[k b] ->]. simpl.
  destruct b; by eexists.
Qed.

(** Every handler the dispatcher resolves to is the built-in one or the
    handler of an entry of the method's table. *)
Lemma findReqHandler_source r order req table h e :
  method_table r (Method req) = Some table → yields table order →
  findReqHandler r order req = Ret (h, e) →
  h = routeNotFoundHandler ∨ ∃ k pkg, table !! k = Some pkg ∧ h = Handler pkg.
Proof.
  intros Ht Hy. unfold findReqHandler. rewrite Ht.
  destruct (table !! Path req) as [pkg|] eqn:Hp.
  { intros [= <- _]. right. eauto. }
  destruct (matchRoutePattern order (Path req)) as [[k b]| | |] eqn:Hm;
    simpl; try done.
  destruct b; [|intros [= <- _]; by left].
  apply matchRoutePattern_found in Hm.
  destruct (yields_elem_of _ _ _ Hy Hm) as [pkg Hk]. rewrite Hk. simpl.
  intros [= <- _]. right. eauto.
Qed.

Lemma routeNotFoundHandler_response rw req :
  wroteHeader rw = false →
  call routeNotFoundHandler rw req =
    Ret {| HeaderMap := <[str "Content-Type" := [str "text/plain"]]> (HeaderMap rw);
           wroteHeader := true;
           Code := StatusNotFound;
           snapHeader := <[str "Content-Type" := [str "text/plain"]]> (HeaderMap rw);
           Body := Body rw ++ str "404 - Page not found" ++ [regexp.c_newline] |}.
Proof.
  intros Hw. destruct rw as [hm wh code snap body]. simpl in Hw. subst wh.
  reflexivity.
Qed.

Example users_router_registered :
  (do r1 <- RegisterRoute NewRouter GET (str "/users/{id}") handlerB;
   RegisterRoute r1 GET (str "/users/me") handlerA) = Ret users_router.
Proof. vm_compute. reflexivity. Qed.

(** C2: when the request path is itself a key of the method's table, the
    dispatcher answers the handler stored under that key, whatever the other
    keys are and in whatever order they would be iterated: no key is compiled
    or matched, so no registered pattern can take the request. *)
Theorem C2_exact_match_precedence (r : Router) (order : list gostring)
    (req : Request) (table : RouteTable) (pkg : RequestHandlerPackage) :
  method_table r (Method req) = Some table →
  table !! Path req = Some pkg →
  findReqHandler r order req = Ret (Handler pkg, None).
Proof. intros Ht Hp. unfold findReqHandler. by rewrite Ht, Hp. Qed.

Lemma C2_exact_match_precedence_witness :
  findReqHandler users_router
    [str "^/users/([a-z0-9-_]+)$"; str "/users/me"]
    (mkRequest GET (str "/users/me")) = Ret (handlerA, None).
Proof.
  apply (C2_exact_match_precedence users_router _
           (mkRequest GET (str "/users/me")) users_table (entry handlerA));
    vm_compute; reflexivity.
Defined.

Lemma placeholder_expr_compiles :
  regexp.MustCompile placeholder_expr = Ret placeholder_regexp.
Proof. reflexivity. Qed.

Lemma RegisterRoute_unfold r rm method path handler :
  routes r = Some rm →
  RegisterRoute r method path handler =
    match regexp.FindStringIndex placeholder_regexp path with
    | None => Ret {| routes := Some (store rm method path (entry handler)) |}
    | Some _ =>
        Ret {| routes := Some (store rm method
                 (str "^" ++
                  regexp.replaceAll (S (S (length path))) placeholder_regexp
                    path capture_group 0 0 [] ++ str "$")
                 (entry handler)) |}
    end.
Proof. intros Hrm. unfold RegisterRoute. rewrite Hrm. reflexivity. Qed.

Lemma method_table_store rm method key pkg :
  method_table {| routes := Some (store rm method key pkg) |} method =
    Some (<[key := pkg]> (default ∅ (rm !! method))).
Proof. unfold method_table, store. simpl. apply lookup_insert_eq. Qed.

Lemma ServeHTTP_resolved r order rw req h :
  findReqHandler r order req = Ret (h, None) →
  ServeHTTP r order rw req =
    (do rw' <- call h rw req;
     Ret ([LogDebug (Method req) (Path req); Call h], rw')).
Proof. intros H. unfold ServeHTTP. rewrite H. reflexivity. Qed.

(** C4: when no route matches, the dispatch calls the built-in handler and
    nothing else; on a writer whose header was not sent yet the response then
    has Content-Type text/plain, status 404 and the body
    "404 - Page not found" followed by a newline.  Any handler a dispatch
    resolves to is this one or the handler of a registered entry, so the core
    has no other error response. *)
Theorem C4_not_found_response (r : Router) (order : list gostring)
    (rw : ResponseWriter) (req : Request) :
  no_route_matches r order req →
  wroteHeader rw = false →
  (∃ rw', ServeHTTP r order rw req =
            Ret ([LogDebug (Method req) (Path req); Call routeNotFoundHandler], rw')
          ∧ is_not_found_response rw rw') ∧
  (∀ table order' req' h e,
     method_table r (Method req') = Some table → yields table order' →
     findReqHandler r order' req' = Ret (h, e) →
     h = routeNotFoundHandler ∨ ∃ k pkg, table !! k = Some pkg ∧ h = Handler pkg).
Proof.
  intros Hno Hw. split.
  - assert (findReqHandler r order req = Ret (routeNotFoundHandler, None)) as Hf.
    { unfold no_route_matches in Hno. unfold findReqHandler.
      destruct (method_table r (Method req)) as [table|]; [|done].
      destruct Hno as [-> [k ->]]. done. }
    rewrite (ServeHTTP_resolved _ _ _ _ _ Hf).
    rewrite (routeNotFoundHandler_response rw req Hw).
    eexists. split; [reflexivity|].
    unfold is_not_found_response. simpl.
    rewrite !lookup_insert_eq. done.
  - intros table order' req' h e. apply findReqHandler_source.
Qed.

Lemma C4_not_found_response_witness :
  (∃ rw', ServeHTTP NewRouter [] NewRecorder (mkRequest GET (str "/anything")) =
            Ret ([LogDebug GET (str "/anything"); Call routeNotFoundHandler], rw')
          ∧ is_not_found_response NewRecorder rw') ∧
  (∀ table order' req' h e,
     method_table NewRouter (Method req') = Some table → yields table order' →
     findReqHandler NewRouter order' req' = Ret (h, e) →
     h = routeNotFoundHandler ∨ ∃ k pkg, table !! k = Some pkg ∧ h = Handler pkg).
Proof.
  apply (C4_not_found_response NewRouter [] NewRecorder
           (mkRequest GET (str "/anything"))); vm_compute; reflexivity.
Defined.

(** C8: a request whose method has no table (in particular any request to a
    router without routes) resolves to the built-in not-found handler with a
    nil error, for every path; and a request whose method is known but whose
    path matches no key resolves to the very same result. *)
Theorem C8_unknown_method_not_found (r : Router) (order : list gostring)
    (req : Request) :
  method_table r (Method req) = None →
  findReqHandler r order req = Ret (routeNotFoundHandler, None) ∧
  (∀ r' order' req' table k,
     method_table r' (Method req') = Some table →
     table !! Path req' = None →
     matchRoutePattern order' (Path req') = Ret (k, false) →
     findReqHandler r' order' req' = findReqHandler r order req).
Proof.
  intros Hm.
  assert (findReqHandler r order req = Ret (routeNotFoundHandler, None)) as Hf
    by (unfold findReqHandler; by rewrite Hm).
  split; [exact Hf|].
  intros r' order' req' table k Ht Hp Hk. rewrite Hf.
  unfold findReqHandler. by rewrite Ht, Hp, Hk.
Qed.

Lemma C8_unknown_method_not_found_witness :
  findReqHandler NewRouter [] (mkRequest GET (str "/anything")) =
    Ret (routeNotFoundHandler, None) ∧
  findReqHandler users_router [str "/users/me"; str "^/users/([a-z0-9-_]+)$"]
    (mkRequest GET (str "/posts")) =
    findReqHandler NewRouter [] (mkRequest GET (str "/anything")).
Proof.
  destruct (C8_unknown_method_not_found NewRouter []
              (mkRequest GET (str "/anything"))) as [H1 H2];
    [vm_compute; reflexivity|].
  split; [exact H1|].
  apply (H2 users_router _ (mkRequest GET (str "/posts")) users_table []);
    vm_compute; reflexivity.
Defined.

Lemma matchRoutePattern_not_fatal order path :
  matchRoutePattern order path ≠ Fatal.
Proof.
  induction order as [|k rest IH]; [done|].
  rewrite matchRoutePattern_cons. unfold regexp.MustCompile.
  destruct (regexp.Compile _); simpl; try done.
  by destruct (negb _).
Qed.

Lemma findReqHandler_not_fatal r order req :
  findReqHandler r order req ≠ Fatal.
Proof.
  unfold findReqHandler.
  destruct (method_table r (Method req)) as [table|]; [|done].
  destruct (table !! Path req); [done|].
  pose proof (matchRoutePattern_not_fatal order (Path req)).
  destruct (matchRoutePattern order (Path req)) as [[k b]| | |]; simpl; try done.
  by destruct b.
Qed.

Lemma users_keys_compile :
  Forall compiles [str "/users/me"; str "^/users/([a-z0-9-_]+)$"].
Proof. repeat constructor; eexists; vm_compute; reflexivity. Qed.

(** ** The expression of [RegisterRoute] finds exactly the placeholder spans *)

Ltac compare_runes :=
  repeat (match goal with
          | |- context [N.leb ?a ?b] => destruct (N.leb_spec a b)
          | |- context [N.eqb ?a ?b] => destruct (N.eqb_spec a b)
          end; cbn -[N.eqb N.leb N.add N.sub]; try lia; try reflexivity).

Lemma class_accepts_name_rune c :
  regexp.class_matches false placeholder_charset true c = name_rune c.
Proof.
  unfold name_rune, regexp.class_matches, regexp.orbit, regexp.orbit_of_lower,
    regexp.in_ranges, placeholder_charset, regexp.is_upper, regexp.is_lower,
    regexp.is_digit, regexp.KELVIN, regexp.LONG_S.
  compare_runes.
Qed.

Lemma literal_lbrace c : regexp.literal_matches 123 true c = (c =? 123).
Proof.
  unfold regexp.literal_matches, regexp.orbit, regexp.orbit_of_lower,
    regexp.is_upper, regexp.is_lower, regexp.KELVIN, regexp.LONG_S.
  compare_runes.
Qed.

Lemma literal_rbrace c : regexp.literal_matches 125 true c = (c =? 125).
Proof.
  unfold regexp.literal_matches, regexp.orbit, regexp.orbit_of_lower,
    regexp.is_upper, regexp.is_lower, regexp.KELVIN, regexp.LONG_S.
  compare_runes.
Qed.

Lemma name_rune_not_rbrace c : name_rune c = true → (c =? 125) = false.
Proof.
  unfold name_rune, regexp.is_upper, regexp.is_lower, regexp.is_digit,
    regexp.KELVIN, regexp.LONG_S.
  compare_runes.
Qed.

Lemma flat_map_singleton {A} (l : list A) : flat_map (fun x => [x]) l = l.
Proof. induction l as [|x l IH]; simpl; congruence. Qed.

Lemma run_placeholder_class b s :
  regexp.run placeholder_class (b, s) =
    match s with
    | c :: t => if name_rune c then [(false, t)] else []
    | [] => []
    end.
Proof.
  unfold placeholder_class. cbn [regexp.run]. unfold regexp.step_rune.
  cbn [snd]. destruct s as [|c t]; [done|].
  by rewrite class_accepts_name_rune.
Qed.

Lemma run_closing b s :
  regexp.run closing (b, s) =
    match s with
    | c :: t => if c =? 125 then [(false, t)] else []
    | [] => []
    end.
Proof.
  unfold closing. cbn [regexp.run]. unfold regexp.step_rune.
  cbn [snd]. destruct s as [|c t]; [done|].
  rewrite literal_rbrace. by destruct (c =? 125).
Qed.

(** After the name runes read so far, the loop of [+] reads the rest of the
    run; only its longest alternative can meet the closing brace. *)
Lemma star_then_closing fuel s :
  (length s ≤ fuel)%nat →
  flat_map (regexp.run closing)
    (regexp.star_loop (regexp.run placeholder_class) fuel (false, s)) =
    match snd (span_name s) with
    | c :: rest => if c =? 125 then [(false, rest)] else []
    | [] => []
    end.
Proof.
  revert fuel. induction s as [|c t IH]; intros fuel Hf.
  - destruct fuel; simpl; reflexivity.
  - destruct fuel as [|fuel]; [simpl in Hf; lia|].
    cbn [regexp.star_loop]. rewrite run_placeholder_class.
    cbn [span_name]. destruct (name_rune c) eqn:Hc.
    + cbn [flat_map]. unfold regexp.shorter. cbn [snd length].
      assert ((length t <? S (length t))%nat = true) as ->
        by (apply Nat.ltb_lt; lia).
      rewrite app_nil_r, flat_map_app. rewrite IH by (simpl in Hf; lia).
      cbn [flat_map]. rewrite run_closing, (name_rune_not_rbrace c Hc).
      cbn [snd]. by rewrite !app_nil_r.
    + cbn [flat_map app snd]. rewrite run_closing. by rewrite app_nil_r.
Qed.

Lemma run_placeholder_regexp b s :
  regexp.run placeholder_regexp (b, s) =
    match placeholder_at s with
    | Some (_, rest) => [(false, rest)]
    | None => []
    end.
Proof.
  unfold placeholder_regexp.
  change (regexp.run (regexp.Concat ?a regexp.EmptyMatch) ?p)
    with (flat_map (fun x => [x]) (regexp.run a p)).
  rewrite flat_map_singleton.
  change (regexp.run (regexp.Capture ?a) ?p) with (regexp.run a p).
  change (regexp.run (regexp.Concat ?a ?b) ?p)
    with (flat_map (regexp.run b) (regexp.run a p)).
  change (regexp.run (regexp.Literal 123 true) (b, s))
    with (regexp.step_rune (regexp.literal_matches 123 true) (b, s)).
  unfold regexp.step_rune at 1. cbn [snd].
  destruct s as [|c t]; [done|]. rewrite literal_lbrace.
  cbn [placeholder_at]. destruct (c =? 123); [|done].
  cbn [flat_map]. rewrite app_nil_r.
  change (regexp.run (regexp.Concat (regexp.Plus placeholder_class) ?k) ?p)
    with (flat_map (regexp.run k) (regexp.run (regexp.Plus placeholder_class) p)).
  change (regexp.run (regexp.Plus placeholder_class) (false, t))
    with (flat_map (regexp.star_loop (regexp.run placeholder_class) (length t))
            (regexp.run placeholder_class (false, t))).
  rewrite run_placeholder_class.
  destruct t as [|c1 t1]; [done|]. cbn [span_name].
  destruct (name_rune c1); [|done].
  cbn [flat_map]. rewrite app_nil_r.
  change (regexp.Concat (regexp.Literal 125 true) regexp.EmptyMatch) with closing.
  rewrite star_then_closing by (simpl; lia).
  destruct (span_name t1) as [name [|c' rest]]; cbn [fst snd]; [done|].
  by destruct (c' =? 125).
Qed.

Lemma find_from_placeholder b s :
  regexp.find_from placeholder_regexp b s = first_placeholder s.
Proof.
  revert b. induction s as [|c t IH]; intros b.
  - reflexivity.
  - cbn [regexp.find_from first_placeholder]. unfold regexp.match_here.
    rewrite run_placeholder_regexp.
    destruct (placeholder_at (c :: t)) as [[name rest]|]; [done|].
    cbn [head fmap option_fmap option_map]. by rewrite IH.
Qed.

Lemma span_name_app s :
  s = fst (span_name s) ++ snd (span_name s).
Proof.
  induction s as [|c t IH]; [done|]. cbn [span_name].
  destruct (name_rune c); cbn [fst snd]; [|done]. simpl. by f_equal.
Qed.

Lemma span_name_forall s : forallb name_rune (fst (span_name s)) = true.
Proof.
  induction s as [|c t IH]; [done|]. cbn [span_name].
  destruct (name_rune c) eqn:Hc; cbn [fst forallb]; [|done].
  by rewrite Hc, IH.
Qed.

Lemma placeholder_at_Some s name rest :
  placeholder_at s = Some (name, rest) →
  s = 123 :: name ++ 125 :: rest ∧ valid_name name = true.
Proof.
  destruct s as [|c t]; [done|]. cbn [placeholder_at].
  destruct (N.eqb_spec c 123) as [->|]; [|done].
  pose proof (span_name_app t) as Happ.
  pose proof (span_name_forall t) as Hall.
  destruct (span_name t) as [[|c1 n] [|c' r]]; try done.
  destruct (N.eqb_spec c' 125) as [->|]; [|done].
  intros [= <- <-]. cbn [fst snd] in *. split; [by rewrite Happ|].
  unfold valid_name. by rewrite Hall.
Qed.

Lemma span_name_stops name c rest :
  forallb name_rune name = true → name_rune c = false →
  span_name (name ++ c :: rest) = (name, c :: rest).
Proof.
  intros Hn Hc. induction name as [|x name IH]; cbn [span_name app].
  - by rewrite Hc.
  - cbn [forallb] in Hn. apply andb_true_iff in Hn as [Hx Hn].
    rewrite Hx, (IH Hn). done.
Qed.

Lemma rbrace_not_name_rune : name_rune 125 = false.
Proof. reflexivity. Qed.

(** A brace-delimited span with a valid name is a placeholder. *)
Lemma placeholder_at_span name rest :
  valid_name name = true →
  placeholder_at (123 :: name ++ 125 :: rest) = Some (name, rest).
Proof.
  unfold valid_name. intros [Hl Hn]%andb_true_iff.
  cbn [placeholder_at]. change (123 =? 123) with true. cbv iota.
  rewrite (span_name_stops name 125 rest Hn rbrace_not_name_rune).
  destruct name as [|c1 n]; [done|]. done.
Qed.

Lemma first_placeholder_Some s i rest :
  first_placeholder s = Some (i, rest) →
  ∃ name, s = take i s ++ 123 :: name ++ 125 :: rest ∧
          valid_name name = true ∧ (i < length s)%nat.
Proof.
  revert i. induction s as [|c t IH]; intros i; [done|].
  cbn [first_placeholder].
  destruct (placeholder_at (c :: t)) as [[name rest']|] eqn:Hp.
  - intros [= <- <-]. apply placeholder_at_Some in Hp as [Hs Hv].
    exists name. rewrite take_0. cbn [app]. split; [done|]. split; [done|].
    simpl. lia.
  - destruct (first_placeholder t) as [[i' rest']|]; [|done].
    intros [= <- <-]. destruct (IH i' eq_refl) as (name & Ht & Hv & Hi).
    exists name. cbn [take app fst snd]. split; [by f_equal|].
    split; [done|]. simpl. lia.
Qed.

Lemma has_placeholder_first s :
  has_placeholder s = match first_placeholder s with Some _ => true | None => false end.
Proof.
  induction s as [|c t IH]; [done|].
  cbn [has_placeholder first_placeholder]. unfold starts_placeholder.
  destruct (placeholder_at (c :: t)) as [[name rest]|]; [done|].
  rewrite IH. by destruct (first_placeholder t).
Qed.

Lemma doExecute_placeholder src pos :
  regexp.doExecute placeholder_regexp src pos =
    match first_placeholder (drop pos src) with
    | Some (i, rest) => Some ((pos + i)%nat, (length src - length rest)%nat)
    | None => None
    end.
Proof. unfold regexp.doExecute. by rewrite find_from_placeholder. Qed.

Lemma FindStringIndex_placeholder path :
  regexp.FindStringIndex placeholder_regexp path = None ↔
  has_placeholder path = false.
Proof.
  unfold regexp.FindStringIndex. rewrite doExecute_placeholder, drop_0.
  rewrite has_placeholder_first.
  by destruct (first_placeholder path) as [[i rest]|].
Qed.

Lemma substitute_skip pre rest :
  substitute (length pre) (pre ++ rest) = substitute 0 rest.
Proof. induction pre as [|c pre IH]; [done|]. exact IH. Qed.

Lemma substitute_none s :
  first_placeholder s = None → substitute 0 s = s.
Proof.
  induction s as [|c t IH]; [done|]. cbn [first_placeholder substitute].
  destruct (placeholder_at (c :: t)) as [[name rest]|]; [done|].
  destruct (first_placeholder t); [done|]. intros _. by rewrite IH.
Qed.

Lemma substitute_first s i rest :
  first_placeholder s = Some (i, rest) →
  substitute 0 s = take i s ++ capture_group ++ substitute 0 rest.
Proof.
  revert i. induction s as [|c t IH]; intros i; [done|].
  cbn [first_placeholder substitute].
  destruct (placeholder_at (c :: t)) as [[name rest']|] eqn:Hp.
  - intros [= <- <-]. apply placeholder_at_Some in Hp as [[= -> ->] _].
    rewrite take_0. cbn [app]. f_equal.
    replace (name ++ 125 :: rest') with ((name ++ [125]) ++ rest')
      by (by rewrite <- app_assoc).
    replace (S (length name)) with (length (name ++ [125]))
      by (rewrite length_app; simpl; lia).
    apply substitute_skip.
  - destruct (first_placeholder t) as [[i' rest']|]; [|done].
    intros [= <- <-]. cbn [take app fst snd]. f_equal. by apply IH.
Qed.

Lemma replaceAll_placeholder fuel src p buf :
  (p ≤ length src)%nat → (length src - p < fuel)%nat →
  regexp.replaceAll fuel placeholder_regexp src capture_group p p buf =
    buf ++ substitute 0 (drop p src).
Proof.
  revert p buf. induction fuel as [|f IH]; intros p buf Hp Hf; [lia|].
  cbn [regexp.replaceAll].
  assert ((length src <? p)%nat = false) as -> by (apply Nat.ltb_ge; lia).
  rewrite doExecute_placeholder.
  destruct (first_placeholder (drop p src)) as [[i rest]|] eqn:Hfp.
  - destruct (first_placeholder_Some _ _ _ Hfp) as (name & Hs & _ & Hi).
    rewrite (substitute_first _ _ _ Hfp).
    assert (length (drop p src) = (i + S (length name + S (length rest)))%nat)
      as Hlen.
    { rewrite Hs at 1. rewrite length_app, length_take. simpl.
      rewrite length_app. simpl. lia. }
    rewrite length_drop in Hlen, Hi.
    assert (drop (length src - length rest) src = rest) as Hrest.
    { rewrite <- (take_drop p src) at 2. rewrite Hs.
      replace (length src - length rest)%nat
        with (length (take p src ++ take i (drop p src) ++ 123 :: name ++ [125])).
      - replace (take p src ++ take i (drop p src) ++ 123 :: name ++ 125 :: rest)
          with ((take p src ++ take i (drop p src) ++ 123 :: name ++ [125]) ++ rest).
        + apply drop_app_length.
        + rewrite <- !app_assoc. simpl. rewrite <- app_assoc. done.
      - rewrite !length_app, !length_take, length_drop. simpl.
        rewrite length_app. simpl. lia. }
    assert ((p <? length src - length rest)%nat = true) as ->
      by (apply Nat.ltb_lt; lia).
    cbn [orb].
    assert ((p <? length src)%nat = true) as -> by (apply Nat.ltb_lt; lia).
    assert ((length src - length rest <? p + 1)%nat = false) as ->
      by (apply Nat.ltb_ge; lia).
    rewrite IH by lia. rewrite Hrest.
    replace (p + i - p)%nat with i by lia.
    by rewrite <- !app_assoc.
  - by rewrite (substitute_none _ Hfp).
Qed.

Lemma capture_group_no_dollar : contains_rune regexp.c_dollar capture_group = false.
Proof. reflexivity. Qed.

Lemma ReplaceAllString_placeholder path :
  regexp.ReplaceAllString placeholder_regexp path capture_group =
    Ret (replace_placeholders path).
Proof.
  unfold regexp.ReplaceAllString. rewrite capture_group_no_dollar.
  rewrite replaceAll_placeholder by lia. by rewrite drop_0.
Qed.

Lemma RegisterRoute_key r rm method path handler :
  routes r = Some rm →
  RegisterRoute r method path handler =
    Ret {| routes := Some (store rm method (route_key path) (entry handler)) |}.
Proof.
  intros Hrm. rewrite (RegisterRoute_unfold _ _ _ _ _ Hrm). unfold route_key.
  destruct (regexp.FindStringIndex placeholder_regexp path) as [ab|] eqn:Hf.
  - assert (has_placeholder path = true) as ->.
    { destruct (has_placeholder path) eqn:Hh; [done|].
      apply FindStringIndex_placeholder in Hh. congruence. }
    rewrite replaceAll_placeholder by lia. by rewrite drop_0.
  - apply FindStringIndex_placeholder in Hf. by rewrite Hf.
Qed.

Example replace_placeholders_posts :
  replace_placeholders (str "/posts/{postId}/comments/{commentId}") =
    str "/posts/([a-z0-9-_]+)/comments/([a-z0-9-_]+)".
Proof. reflexivity. Qed.

Example replace_placeholders_nested_braces :
  replace_placeholders (str "/{{a}}/{b}{c}/{d.e}/{}") =
    str "/{([a-z0-9-_]+)}/([a-z0-9-_]+)([a-z0-9-_]+)/{d.e}/{}".
Proof. reflexivity. Qed.

Example RegisterRoute_nested_braces :
  regexp.ReplaceAllString placeholder_regexp (str "/{{a}}/{b}{c}/{d.e}/{}")
    capture_group =
    Ret (str "/{([a-z0-9-_]+)}/([a-z0-9-_]+)([a-z0-9-_]+)/{d.e}/{}").
Proof. vm_compute. reflexivity. Qed.

Lemma has_placeholder_span pre name post :
  valid_name name = true →
  has_placeholder (pre ++ 123 :: name ++ 125 :: post) = true.
Proof.
  intros Hv. induction pre as [|c pre IH].
  - cbn [app has_placeholder]. unfold starts_placeholder.
    by rewrite (placeholder_at_span name post Hv).
  - cbn [app has_placeholder]. rewrite IH. apply orb_true_r.
Qed.

Lemma has_placeholder_inv s :
  has_placeholder s = true →
  ∃ pre name post, s = pre ++ 123 :: name ++ 125 :: post ∧ valid_name name = true.
Proof.
  rewrite has_placeholder_first.
  destruct (first_placeholder s) as [[i rest]|] eqn:Hf; [|done]. intros _.
  destruct (first_placeholder_Some _ _ _ Hf) as (name & Hs & Hv & _). eauto.
Qed.

(** C5 as stated fails: the span {file.name} is delimited by braces, but its
    name holds a rune outside the class, so the expression of [RegisterRoute]
    does not match it and the path is stored as a literal key. *)
Lemma C5_counterexample :
  RegisterRoute NewRouter GET (str "/files/{file.name}") handlerA =
    Ret {| routes := Some {[GET := {[str "/files/{file.name}" := entry handlerA]}]} |}
  ∧ route_key (str "/files/{file.name}") = str "/files/{file.name}"
  ∧ route_key (str "/files/{}") = str "/files/{}".
Proof. split; [vm_compute; reflexivity|]. split; reflexivity. Qed.

(** C5, amended: placeholder detection checks the name.  A brace-delimited
    span is a placeholder exactly when its name is not empty and made of
    name runes (letters of either case, digits, hyphen, underscore).  A path
    with such a span is stored under a pattern key; a path in which no
    brace-delimited span has such a name is stored under the path itself. *)
Theorem C5_placeholder_needs_valid_name (r : Router) (rm : RequestHandlerMap)
    (method pre name post : gostring) (handler : RequestHandler) :
  routes r = Some rm →
  valid_name name = true →
  RegisterRoute r method (pre ++ 123 :: name ++ 125 :: post) handler =
    Ret {| routes := Some (store rm method
             (str "^" ++ replace_placeholders (pre ++ 123 :: name ++ 125 :: post)
                ++ str "$")
             (entry handler)) |} ∧
  (∀ path,
     (∀ pre' name' post', path = pre' ++ 123 :: name' ++ 125 :: post' →
                          valid_name name' = false) →
     RegisterRoute r method path handler =
       Ret {| routes := Some (store rm method path (entry handler)) |}).
Proof.
  intros Hrm Hv. split.
  - rewrite (RegisterRoute_key _ _ _ _ _ Hrm). unfold route_key.
    by rewrite (has_placeholder_span pre name post Hv).
  - intros path Hnone. rewrite (RegisterRoute_key _ _ _ _ _ Hrm).
    unfold route_key. destruct (has_placeholder path) eqn:Hh; [|done].
    destruct (has_placeholder_inv _ Hh) as (pre' & name' & post' & Hp & Hv').
    rewrite (Hnone _ _ _ Hp) in Hv'. discriminate.
Qed.

Lemma C5_placeholder_needs_valid_name_witness :
  RegisterRoute NewRouter GET (str "/users/" ++ 123 :: str "user-Id_9" ++ 125 :: str "/x")
    handlerB =
    Ret {| routes := Some (store ∅ GET (str "^/users/([a-z0-9-_]+)/x$")
                             (entry handlerB)) |}.
Proof.
  exact (proj1 (C5_placeholder_needs_valid_name NewRouter ∅ GET (str "/users/")
                  (str "user-Id_9") (str "/x") handlerB eq_refl eq_refl)).
Defined.

(** ** Keys that are not valid expressions *)

Lemma findReqHandler_panics_first r table k rest req e :
  method_table r (Method req) = Some table →
  table !! Path req = None →
  regexp.Compile (str "(?i)" ++ k) = regexp.CError e →
  findReqHandler r (k :: rest) req = Panic.
Proof.
  intros Ht Hp He. unfold findReqHandler. rewrite Ht, Hp.
  by rewrite (matchRoutePattern_first_fails _ _ _ _ He).
Qed.

Lemma yields_with_first table k :
  is_Some (table !! k) → ∃ rest, yields table (k :: rest).
Proof.
  intros [pkg Hk]. exists (map_to_list (delete k table)).*1.
  rewrite <- (insert_id table k pkg Hk) at 1. apply yields_insert.
Qed.

(** Dispatch is total only if every key is a valid expression: a key that
    does not compile makes every request of the method that is no exact
    match panic on some iteration order. *)
Lemma invalid_key_can_panic r table k e req :
  method_table r (Method req) = Some table →
  is_Some (table !! k) →
  regexp.Compile (str "(?i)" ++ k) = regexp.CError e →
  table !! Path req = None →
  ∃ order, yields table order ∧ findReqHandler r order req = Panic.
Proof.
  intros Ht Hk He Hp. destruct (yields_with_first table k Hk) as [rest Hy].
  exists (k :: rest). split; [exact Hy|].
  by apply (findReqHandler_panics_first r table k rest req e).
Qed.

(** ** The scanning [RegisterRoute] on templates *)
Section ParamScanFacts.
Import ParamScan.

Lemma count_slash_nil : count_slash [] = 0%Z.
Proof. reflexivity. Qed.

Lemma count_slash_cons c s :
  count_slash (c :: s) = ((if (c =? 47)%N then 1 else 0) + count_slash s)%Z.
Proof.
  unfold count_slash. rewrite filter_cons.
  destruct (N.eqb_spec c 47) as [->|Hne].
  - rewrite decide_True by done. simpl length. lia.
  - rewrite decide_False by done. lia.
Qed.

Lemma count_slash_app a b :
  count_slash (a ++ b) = (count_slash a + count_slash b)%Z.
Proof.
  unfold count_slash. rewrite filter_app, length_app. lia.
Qed.

Lemma scan_loop_app st i a b :
  scan_loop st i (a ++ b) = scan_loop (scan_loop st i a) (i + length a) b.
Proof.
  revert st i. induction a as [|c a IH]; intros st i; cbn [app scan_loop length].
  - by rewrite Nat.add_0_r.
  - rewrite IH. f_equal. lia.
Qed.

Lemma brace_free_cons c s :
  brace_free (c :: s) = true → c ≠ 123 ∧ c ≠ 125 ∧ brace_free s = true.
Proof.
  unfold brace_free. cbn [forallb]. intros [[H1 H2]%andb_true_iff H3]%andb_true_iff.
  apply negb_true_iff, N.eqb_neq in H1. apply negb_true_iff, N.eqb_neq in H2.
  done.
Qed.

Lemma scan_text st i l :
  brace_free l = true → found st = false →
  scan_loop st i l =
    {| paramList := paramList st; pathDepth := (pathDepth st + count_slash l)%Z;
       found := false; foundAt := foundAt st;
       paramNameBuilder := paramNameBuilder st |}.
Proof.
  revert st i. induction l as [|c l IH]; intros st i Hb Hf.
  - destruct st; simpl in *. subst. rewrite count_slash_nil. f_equal. lia.
  - apply brace_free_cons in Hb as (H1 & H2 & Hb). cbn [scan_loop].
    rewrite count_slash_cons. unfold scan_step, scan_switch.
    apply N.eqb_neq in H1, H2. rewrite H1, H2.
    destruct (c =? 47); cbn [found]; rewrite Hf; cbn [andb];
      rewrite IH by done; cbn [paramList pathDepth foundAt paramNameBuilder];
      f_equal; lia.
Qed.

Lemma scan_name st i n :
  brace_free n = true → found st = true →
  scan_loop st i n =
    {| paramList := paramList st; pathDepth := (pathDepth st + count_slash n)%Z;
       found := true; foundAt := foundAt st;
       paramNameBuilder := paramNameBuilder st ++ n |}.
Proof.
  revert st i. induction n as [|c n IH]; intros st i Hb Hf.
  - destruct st; simpl in *. subst. rewrite count_slash_nil, app_nil_r.
    f_equal. lia.
  - apply brace_free_cons in Hb as (H1 & H2 & Hb). cbn [scan_loop].
    rewrite count_slash_cons. unfold scan_step, scan_switch.
    apply N.eqb_neq in H1, H2. rewrite H1, H2.
    destruct (c =? 47); cbn [found]; rewrite Hf; cbn [andb negb];
      rewrite IH by done; cbn [paramList pathDepth foundAt paramNameBuilder];
      rewrite <- app_assoc; f_equal; lia.
Qed.

Lemma scan_param st i n :
  brace_free n = true → found st = false → paramNameBuilder st = [] →
  scan_loop st i (123 :: n ++ [125]) =
    {| paramList := paramList st ++
         [{| start := i; end_ := S (i + length n);
             pos := (pathDepth st + count_slash n)%Z; name := n |}];
       pathDepth := (pathDepth st + count_slash n)%Z;
       found := false; foundAt := i; paramNameBuilder := [] |}.
Proof.
  intros Hn Hf Hb.
  change (scan_loop st i (123 :: n ++ [125]))
    with (scan_loop (scan_step st i 123) (S i) (n ++ [125])).
  assert (scan_step st i 123 =
            {| paramList := paramList st; pathDepth := pathDepth st;
               found := true; foundAt := i;
               paramNameBuilder := paramNameBuilder st |}) as -> by reflexivity.
  rewrite scan_loop_app.
  rewrite (scan_name {| paramList := paramList st; pathDepth := pathDepth st;
                        found := true; foundAt := i;
                        paramNameBuilder := paramNameBuilder st |}
             (S i) n Hn eq_refl).
  cbn [scan_loop paramList pathDepth foundAt paramNameBuilder].
  rewrite Hb. cbn [app]. unfold scan_step, scan_switch.
  change (125 =? 47) with false. change (125 =? 123) with false.
  change (125 =? 125) with true. cbn [found andb paramList pathDepth foundAt
                                      paramNameBuilder].
  reflexivity.
Qed.

Lemma scan_template t st i :
  well_formed t = true → found st = false → paramNameBuilder st = [] →
  ∃ fa, scan_loop st i (render t) =
    {| paramList := paramList st ++ params_of i (pathDepth st) t;
       pathDepth := (pathDepth st + count_slash (render t))%Z;
       found := false; foundAt := fa; paramNameBuilder := [] |}.
Proof.
  revert st i. induction t as [|p t IH]; intros st i Hw Hf Hb.
  - exists (foundAt st). destruct st; simpl in *. subst.
    by rewrite app_nil_r, count_slash_nil, Z.add_0_r.
  - cbn [well_formed forallb] in Hw. apply andb_true_iff in Hw as [Hp Hw].
    cbn [render]. rewrite scan_loop_app, count_slash_app.
    destruct p as [l|n]; cbn [params_of]; cbv beta iota in Hp.
    + cbn [render_piece]. rewrite (scan_text st i l Hp Hf).
      edestruct (IH {| paramList := paramList st;
                       pathDepth := (pathDepth st + count_slash l)%Z;
                       found := false; foundAt := foundAt st;
                       paramNameBuilder := paramNameBuilder st |}
                    (i + length l)%nat) as [fa Hfa]; [done..|].
      exists fa. rewrite Hfa. cbn [paramList pathDepth]. f_equal. lia.
    + change (scan_loop st i (render_piece (Param n)))
        with (scan_loop st i (123 :: n ++ [125])).
      rewrite (scan_param st i n Hp Hf Hb).
      edestruct (IH {| paramList := paramList st ++
                         [{| start := i; end_ := S (i + length n);
                             pos := (pathDepth st + count_slash n)%Z;
                             name := n |}];
                       pathDepth := (pathDepth st + count_slash n)%Z;
                       found := false; foundAt := i;
                       paramNameBuilder := [] |}
                    (i + length (render_piece (Param n)))%nat) as [fa Hfa]; [done..|].
      exists fa. rewrite Hfa. cbn [paramList pathDepth].
      assert (length (render_piece (Param n)) = S (S (length n))) as Hlen
        by (simpl; rewrite length_app; simpl; lia).
      rewrite Hlen, <- app_assoc. cbn [app render_piece].
      rewrite !count_slash_cons, count_slash_app, count_slash_cons, count_slash_nil.
      change (123 =? 47) with false. change (125 =? 47) with false.
      cbv beta iota.
      f_equal; [do 3 f_equal; lia | lia].
Qed.


Lemma slice_middle (a b c : gostring) :
  slice (a ++ b ++ c) (length a) (length a + length b) = Ret b.
Proof.
  unfold slice.
  assert ((length a <=? length a + length b)%nat = true) as ->
    by (apply Nat.leb_le; lia).
  assert ((length a + length b <=? length (a ++ b ++ c))%nat = true) as ->
    by (apply Nat.leb_le; rewrite !length_app; lia).
  cbn [andb]. rewrite drop_app_length.
  replace (length a + length b - length a)%nat with (length b) by lia.
  by rewrite take_app_length.
Qed.

Lemma slice_to_end (s : gostring) (lo : nat) :
  (lo ≤ length s)%nat → slice s lo (length s) = Ret (drop lo s).
Proof.
  intros Hlo. unfold slice.
  assert ((lo <=? length s)%nat = true) as -> by (apply Nat.leb_le; lia).
  rewrite Nat.leb_refl. cbn [andb]. f_equal.
  apply take_ge. rewrite length_drop. lia.
Qed.

Lemma build_template t path pre0 txt pb m d :
  path = pre0 ++ txt ++ render t →
  ∃ b, build_loop path (params_of (length pre0 + length txt) d t)
         {| lastPos := length pre0; pathBuilder := pb; reqParamList := m |} = Ret b ∧
       (lastPos b ≤ length path)%nat ∧
       pathBuilder b ++ drop (lastPos b) path = pb ++ txt ++ render_key t ∧
       reqParamList b = param_map (params_of (length pre0 + length txt) d t) m.
Proof.
  revert pre0 txt pb m d. induction t as [|p t IH]; intros pre0 txt pb m d Hpath.
  - eexists. split; [reflexivity|]. cbn [lastPos pathBuilder reqParamList].
    subst path. cbn [render render_key]. rewrite !app_nil_r.
    split; [rewrite length_app; lia|]. split; [|done].
    by rewrite drop_app_length.
  - destruct p as [l|n]; cbn [params_of render_key key_piece].
    + cbn [render render_piece] in Hpath.
      destruct (IH pre0 (txt ++ l) pb m (d + count_slash l)%Z)
        as (b & Hb & Hlast & Hkey & Hmap).
      { by rewrite <- app_assoc. }
      rewrite length_app, Nat.add_assoc in Hb, Hmap.
      exists b. rewrite Hb, Hkey, Hmap. by rewrite <- !app_assoc.
    + cbn [render] in Hpath. cbn [build_loop start lastPos].
      assert (slice path (length pre0) (length pre0 + length txt) = Ret txt) as ->.
      { subst path. apply slice_middle. }
      cbn [bind end_ pos name pathBuilder reqParamList].
      assert (length (render_piece (Param n)) = S (S (length n))) as Hpp
        by (simpl; rewrite length_app; simpl; lia).
      destruct (IH (pre0 ++ txt ++ render_piece (Param n)) []
                  (pb ++ txt ++ capture_group)
                  (<[(d + count_slash n)%Z := n]> m) (d + count_slash n)%Z)
        as (b & Hb & Hlast & Hkey & Hmap).
      { subst path. by rewrite <- !app_assoc. }
      rewrite !length_app, Hpp in Hb, Hmap. cbn [length] in Hb, Hmap.
      replace (length pre0 + (length txt + S (S (length n))) + 0)%nat
        with (S (S (length pre0 + length txt + length n))) in Hb, Hmap by lia.
      replace (length pre0 + (length txt + S (S (length n))))%nat
        with (S (S (length pre0 + length txt + length n))) in Hb by lia.
      exists b. rewrite Hb, Hkey, Hmap. cbn [app]. by rewrite <- !app_assoc.
Qed.

Lemma RegisterRoute_template r rm method t handler :
  routes r = Some rm → well_formed t = true →
  RegisterRoute r method (render t) handler =
    Ret {| routes := Some (store rm method (str "^" ++ render_key t ++ str "$")
             {| Handler := handler;
                ParamList := param_map (params_of 0 (-1) t) ∅ |}) |}.
Proof.
  intros Hrm Hw. unfold RegisterRoute. rewrite Hrm. cbv zeta.
  destruct (scan_template t scan_init 0 Hw eq_refl eq_refl) as [fa ->].
  cbn [paramList scan_init app pathDepth].
  destruct (build_template t (render t) [] [] [] ∅ (-1)%Z eq_refl)
    as (b & Hb & Hlast & Hkey & Hmap).
  cbn [length Nat.add] in Hb, Hmap. rewrite Hb. cbn [bind].
  rewrite (slice_to_end _ _ Hlast). cbn [bind].
  rewrite Hkey, Hmap. reflexivity.
Qed.


Lemma param_map_app a b m :
  param_map (a ++ b) m = param_map b (param_map a m).
Proof. unfold param_map. apply fold_left_app. Qed.

Lemma param_map_lookup_other ps m d :
  (∀ q, q ∈ ps → pos q ≠ d) → param_map ps m !! d = m !! d.
Proof.
  revert m. induction ps as [|p ps IH]; intros m Hne; [done|].
  cbn [param_map fold_left]. fold (param_map ps (<[pos p := name p]> m)).
  rewrite IH by (intros q Hq; apply Hne; by apply list_elem_of_further).
  apply lookup_insert_ne. apply Hne, list_elem_of_here.
Qed.

Lemma param_map_lookup_last ps1 p ps2 m :
  (∀ q, q ∈ ps2 → pos q ≠ pos p) →
  param_map (ps1 ++ p :: ps2) m !! pos p = Some (name p).
Proof.
  intros Hne. rewrite param_map_app. cbn [param_map fold_left].
  fold (param_map ps1 m).
  fold (param_map ps2 (<[pos p := name p]> (param_map ps1 m))).
  rewrite (param_map_lookup_other _ _ _ Hne). apply lookup_insert_eq.
Qed.

Lemma param_map_lookup_inv ps m d n :
  param_map ps m !! d = Some n →
  m !! d = Some n ∨ ∃ q, q ∈ ps ∧ pos q = d ∧ name q = n.
Proof.
  revert m. induction ps as [|p ps IH]; intros m; [by left|].
  cbn [param_map fold_left]. fold (param_map ps (<[pos p := name p]> m)).
  intros [Hm|(q & Hq & Hd & Hn)]%IH.
  - destruct (decide (pos p = d)) as [<-|Hne].
    + rewrite lookup_insert_eq in Hm. injection Hm as <-.
      right. exists p. split; [apply list_elem_of_here | done].
    + rewrite lookup_insert_ne in Hm by done. by left.
  - right. exists q. split; [by apply list_elem_of_further | done].
Qed.

Lemma render_app t1 t2 : render (t1 ++ t2) = render t1 ++ render t2.
Proof.
  induction t1 as [|p t1 IH]; [done|]. cbn [app render].
  by rewrite IH, <- app_assoc.
Qed.

Lemma params_of_app i d t1 t2 :
  params_of i d (t1 ++ t2) =
    params_of i d t1 ++
    params_of (i + length (render t1)) (d + count_slash (render t1)) t2.
Proof.
  revert i d. induction t1 as [|p t1 IH]; intros i d.
  - cbn [app params_of render length]. rewrite count_slash_nil.
    by rewrite Nat.add_0_r, Z.add_0_r.
  - destruct p as [l|n]; cbn [app params_of render render_piece].
    + rewrite IH, length_app, count_slash_app. do 2 f_equal; lia.
    + rewrite IH. cbn [app]. f_equal.
      rewrite count_slash_cons, !count_slash_app.
      rewrite count_slash_cons, count_slash_nil.
      change (123 =? 47) with false. change (125 =? 47) with false. cbv iota.
      cbn [length]. rewrite !length_app. cbn [length].
      do 2 f_equal; lia.
Qed.

Lemma placeholder_depth_eq t1 n :
  placeholder_depth t1 n = (-1 + count_slash (render t1) + count_slash n)%Z.
Proof.
  unfold placeholder_depth, depth_after.
  rewrite count_slash_app, count_slash_cons. change (123 =? 47) with false.
  cbv iota. lia.
Qed.

Lemma params_of_elem q i d t :
  q ∈ params_of i d t →
  ∃ t3 n t4, t = t3 ++ Param n :: t4 ∧ name q = n ∧
             pos q = (d + count_slash (render t3) + count_slash n)%Z.
Proof.
  revert i d. induction t as [|p t IH]; intros i d Hq.
  - by apply elem_of_nil in Hq.
  - destruct p as [l|n]; cbn [params_of] in Hq.
    + apply IH in Hq as (t3 & n & t4 & -> & Hn & Hp).
      exists (Text l :: t3), n, t4. split; [done|]. split; [done|].
      cbn [render render_piece]. rewrite count_slash_app. lia.
    + apply elem_of_cons in Hq as [->|Hq].
      * exists [], n, t. split; [done|]. split; [done|].
        cbn [pos render]. rewrite count_slash_nil. lia.
      * apply IH in Hq as (t3 & n' & t4 & -> & Hn & Hp).
        exists (Param n :: t3), n', t4. split; [done|]. split; [done|].
        cbn [render render_piece]. rewrite Hp.
        rewrite count_slash_app, count_slash_cons, count_slash_app.
        rewrite count_slash_cons, count_slash_nil.
        change (123 =? 47) with false. change (125 =? 47) with false.
        cbv iota. lia.
Qed.

End ParamScanFacts.

(** C6 as stated fails: in /{a}-{b} both placeholders lie at depth 0, and the
    map keeps one name for each depth, so the later placeholder takes the
    place of the earlier one. *)
Lemma C6_counterexample :
  ∃ params,
    ParamScan.RegisterRoute ParamScan.NewRouter GET (str "/{a}-{b}") handlerA =
      Ret {| ParamScan.routes := Some
               {[GET := {[str "^/([a-z0-9-_]+)-([a-z0-9-_]+)$" :=
                          {| ParamScan.Handler := handlerA;
                             ParamScan.ParamList := params |}]}]} |} ∧
    render [Text (str "/"); Param (str "a"); Text (str "-"); Param (str "b")] =
      str "/{a}-{b}" ∧
    placeholder_depth [Text (str "/")] (str "a") = 0%Z ∧
    params !! 0%Z = Some (str "b") ∧
    params !! 0%Z ≠ Some (str "a").
Proof.
  exists {[0%Z := str "b"]}.
  split; [vm_compute; reflexivity|]. split; [reflexivity|].
  split; [reflexivity|]. split; [reflexivity|]. vm_compute. discriminate.
Qed.

(** C6, amended: for a path whose texts and names hold no brace, the
    scanning [RegisterRoute] stores under the pattern key an entry whose map
    sends the depth of a placeholder (the slashes read up to its closing
    brace, less one) to its name, provided no later placeholder lies at the
    same depth; every entry of the map comes from a placeholder in this way. *)
Theorem C6_param_map_by_depth (r : ParamScan.Router)
    (rm : gmap gostring (gmap gostring ParamScan.RequestHandlerPackage))
    (method : gostring) (t : template) (handler : RequestHandler) :
  ParamScan.routes r = Some rm →
  ParamScan.well_formed t = true →
  ∃ params,
    ParamScan.RegisterRoute r method (render t) handler =
      Ret {| ParamScan.routes := Some
               (ParamScan.store rm method (str "^" ++ render_key t ++ str "$")
                  {| ParamScan.Handler := handler;
                     ParamScan.ParamList := params |}) |} ∧
    (∀ t1 n t2, t = t1 ++ Param n :: t2 →
       (∀ t3 n' t4, t2 = t3 ++ Param n' :: t4 →
          placeholder_depth (t1 ++ Param n :: t3) n' ≠ placeholder_depth t1 n) →
       params !! placeholder_depth t1 n = Some n) ∧
    (∀ d n, params !! d = Some n →
       ∃ t1 t2, t = t1 ++ Param n :: t2 ∧ d = placeholder_depth t1 n).
Proof.
  intros Hrm Hw. eexists. split; [by apply RegisterRoute_template|]. split.
  - intros t1 n t2 -> Hlater. rewrite params_of_app. cbn [ParamScan.params_of].
    rewrite placeholder_depth_eq.
    match goal with
    | |- ParamScan.param_map (?ps1 ++ ?p :: ?ps2) _ !! _ = _ =>
        apply (param_map_lookup_last ps1 p ps2)
    end.
    intros q Hq. apply params_of_elem in Hq as (t3 & n' & t4 & Ht2 & _ & Hp).
    specialize (Hlater t3 n' t4 Ht2). rewrite !placeholder_depth_eq in Hlater.
    rewrite Hp. cbn [ParamScan.pos]. intros Heq. apply Hlater.
    rewrite render_app. cbn [render render_piece].
    rewrite !count_slash_app, count_slash_cons, count_slash_app,
      count_slash_cons, count_slash_nil.
    change (123 =? 47) with false. change (125 =? 47) with false. cbv iota.
    lia.
  - intros d n [Hm|(q & Hq & Hd & Hn)]%param_map_lookup_inv; [done|].
    apply params_of_elem in Hq as (t3 & n' & t4 & -> & Hn' & Hp).
    exists t3, t4. subst n'. rewrite Hn. split; [done|].
    rewrite placeholder_depth_eq, <- Hd, Hp, Hn. lia.
Qed.

Lemma C6_param_map_by_depth_witness :
  ∃ params,
    ParamScan.RegisterRoute ParamScan.NewRouter GET
      (render [Text (str "/users/"); Param (str "userId");
               Text (str "/posts/"); Param (str "postId")]) handlerA =
      Ret {| ParamScan.routes := Some
               (ParamScan.store ∅ GET
                  (str "^/users/([a-z0-9-_]+)/posts/([a-z0-9-_]+)$")
                  {| ParamScan.Handler := handlerA;
                     ParamScan.ParamList := params |}) |} ∧
    params !! 1%Z = Some (str "userId") ∧
    params !! 3%Z = Some (str "postId").
Proof.
  destruct (C6_param_map_by_depth ParamScan.NewRouter ∅ GET
              [Text (str "/users/"); Param (str "userId");
               Text (str "/posts/"); Param (str "postId")] handlerA
              eq_refl eq_refl) as (params & Hreg & Hlook & _).
  exists params. split; [exact Hreg|]. split.
  - apply (Hlook [Text (str "/users/")] (str "userId")
             [Text (str "/posts/"); Param (str "postId")] eq_refl).
    intros t3 n' t4 Ht2.
    destruct t3 as [|p3 t3]; [discriminate|]. injection Ht2 as <- Ht2.
    destruct t3 as [|p3' t3];
      [injection Ht2 as <- <-; vm_compute; discriminate|].
    injection Ht2 as _ Ht2. by destruct t3.
  - apply (Hlook [Text (str "/users/"); Param (str "userId"); Text (str "/posts/")]
             (str "postId") [] eq_refl).
    intros t3 n' t4 Ht2. by destruct t3.
Defined.

(** ** Pattern keys of plain templates *)

Lemma parse_plain_rune c stack alts cur lr s :
  plain_rune c = true →
  regexp.parse true stack alts cur (regexp.Expr lr) (c :: s) =
    regexp.parse true stack alts (regexp.Literal c true :: cur)
      (regexp.Expr false) s.
Proof.
  unfold plain_rune, metacharacters. cbn [existsb].
  intros [Hlt Hm]%andb_true_iff. apply negb_true_iff in Hm.
  repeat (apply orb_false_iff in Hm as [? Hm]).
  cbn [regexp.parse].
  unfold regexp.c_lparen, regexp.c_bar, regexp.c_rparen, regexp.c_caret,
    regexp.c_dollar, regexp.c_dot, regexp.c_lbracket, regexp.c_lbrace,
    regexp.c_backslash, regexp.repeat_operator, regexp.c_star, regexp.c_plus,
    regexp.c_quest, regexp.needs_tables.
  repeat match goal with H : (c =? _) = false |- _ => rewrite H; clear H end.
  cbn [andb]. apply N.ltb_lt in Hlt.
  destruct (N.leb_spec 128 c); [lia|]. reflexivity.
Qed.

Lemma parse_plain_text l stack alts cur lr s :
  forallb plain_rune l = true → l ≠ [] ∨ lr = false →
  regexp.parse true stack alts cur (regexp.Expr lr) (l ++ s) =
    regexp.parse true stack alts
      (rev (map (fun c => regexp.Literal c true) l) ++ cur)
      (regexp.Expr false) s.
Proof.
  revert cur lr. induction l as [|c l IH]; intros cur lr Hl Hlr.
  - destruct Hlr as [Hne | ->]; done.
  - cbn [forallb] in Hl. apply andb_true_iff in Hl as [Hc Hl].
    cbn [app]. rewrite (parse_plain_rune _ _ _ _ _ _ Hc).
    rewrite IH by (done || by right).
    cbn [map rev]. by rewrite <- app_assoc.
Qed.

Lemma parse_capture_group cur s :
  regexp.parse true [] [] cur (regexp.Expr false) (capture_group ++ s) =
    regexp.parse true [] [] (capture_regexp :: cur) (regexp.Expr false) s.
Proof. reflexivity. Qed.

Lemma parse_render_key t cur s :
  plain_template t = true →
  regexp.parse true [] [] cur (regexp.Expr false) (render_key t ++ s) =
    regexp.parse true [] [] (rev (template_items t) ++ cur)
      (regexp.Expr false) s.
Proof.
  revert cur. induction t as [|p t IH]; intros cur Ht; [done|].
  cbn [plain_template forallb] in Ht. apply andb_true_iff in Ht as [Hp Ht].
  cbn [render_key template_items flat_map]. rewrite <- app_assoc.
  destruct p as [l|n]; cbn [key_piece piece_items].
  - rewrite parse_plain_text by (done || by right).
    rewrite (IH _ Ht). unfold template_items.
    by rewrite rev_app_distr, <- app_assoc.
  - rewrite parse_capture_group, (IH _ Ht). unfold template_items.
    rewrite rev_app_distr. cbn [rev app]. by rewrite <- app_assoc.
Qed.

Lemma finish_branch_rev items :
  regexp.finish_branch (rev items) = foldr regexp.Concat regexp.EmptyMatch items.
Proof.
  unfold regexp.finish_branch.
  induction items as [|r items IH]; [done|].
  cbn [rev foldr]. rewrite fold_left_app. cbn [fold_left]. by rewrite IH.
Qed.

Lemma Compile_folded expr :
  regexp.within_limits (str "(?i)" ++ expr) = true →
  regexp.Compile (str "(?i)" ++ expr) =
    regexp.parse true [] [] [] (regexp.Expr false) expr.
Proof. intros Hw. unfold regexp.Compile. rewrite Hw. reflexivity. Qed.

Lemma pattern_key_compiles t :
  plain_template t = true →
  regexp.within_limits (str "(?i)" ++ str "^" ++ render_key t ++ str "$") = true →
  regexp.Compile (str "(?i)" ++ str "^" ++ render_key t ++ str "$") =
    regexp.COk (template_regexp t).
Proof.
  intros Ht Hw. rewrite (Compile_folded _ Hw).
  change (regexp.parse true [] [] [] (regexp.Expr false)
            (str "^" ++ render_key t ++ str "$"))
    with (regexp.parse true [] [] [regexp.BeginText] (regexp.Expr false)
            (render_key t ++ str "$")).
  rewrite (parse_render_key _ _ _ Ht).
  change (regexp.parse true [] []
            (rev (template_items t) ++ [regexp.BeginText])
            (regexp.Expr false) (str "$"))
    with (regexp.COk (regexp.finish_branch
            (regexp.EndText :: rev (template_items t) ++ [regexp.BeginText]))).
  f_equal.
  change (regexp.EndText :: rev (template_items t) ++ [regexp.BeginText])
    with ([regexp.EndText] ++ rev (template_items t) ++ [regexp.BeginText]).
  replace ([regexp.EndText] ++ rev (template_items t) ++ [regexp.BeginText])
    with (rev (regexp.BeginText :: template_items t ++ [regexp.EndText])).
  - rewrite finish_branch_rev. cbn [foldr]. unfold template_regexp.
    by rewrite foldr_app.
  - cbn [rev]. rewrite rev_app_distr. reflexivity.
Qed.

(** ** What a pattern key matches *)

Lemma star_loop_class_sound fuel b s x :
  In x (regexp.star_loop (regexp.run placeholder_class) fuel (b, s)) →
  ∃ v, s = v ++ snd x ∧ forallb name_rune v = true.
Proof.
  revert b s. induction fuel as [|fuel IH]; intros b s Hx.
  - destruct Hx as [<-|[]]. by exists [].
  - cbn [regexp.star_loop] in Hx. apply in_app_or in Hx as [Hx|[<-|[]]];
      [|by exists []].
    rewrite run_placeholder_class in Hx.
    destruct s as [|c t]; [done|]. destruct (name_rune c) eqn:Hc; [|done].
    cbn [flat_map] in Hx. rewrite app_nil_r in Hx.
    destruct (regexp.shorter (false, t) (b, c :: t)); [|done].
    apply IH in Hx as (v & -> & Hv). exists (c :: v). split; [done|].
    cbn [forallb]. by rewrite Hc, Hv.
Qed.

Lemma plus_class_sound b s x :
  In x (regexp.run (regexp.Plus placeholder_class) (b, s)) →
  ∃ v, s = v ++ snd x ∧ valid_name v = true.
Proof.
  change (regexp.run (regexp.Plus placeholder_class) (b, s))
    with (flat_map (regexp.star_loop (regexp.run placeholder_class) (length s))
            (regexp.run placeholder_class (b, s))).
  rewrite run_placeholder_class.
  destruct s as [|c t]; [done|]. destruct (name_rune c) eqn:Hc; [|done].
  cbn [flat_map]. rewrite app_nil_r.
  intros (v & -> & Hv)%star_loop_class_sound. exists (c :: v).
  split; [done|]. unfold valid_name. cbn [length forallb Nat.eqb negb andb].
  by rewrite Hc, Hv.
Qed.

Lemma run_capture_regexp p :
  regexp.run capture_regexp p = regexp.run (regexp.Plus placeholder_class) p.
Proof.
  unfold capture_regexp.
  change (regexp.run (regexp.Capture (regexp.Concat ?a regexp.EmptyMatch)) p)
    with (flat_map (fun x => [x]) (regexp.run a p)).
  apply flat_map_singleton.
Qed.

Lemma run_Concat a k p :
  regexp.run (regexp.Concat a k) p = flat_map (regexp.run k) (regexp.run a p).
Proof. reflexivity. Qed.

Lemma run_text_sound l k p x :
  In x (regexp.run
          (foldr regexp.Concat k (map (fun c => regexp.Literal c true) l)) p) →
  ∃ l' s' b', snd p = l' ++ s' ∧ fold_equal l l' ∧ In x (regexp.run k (b', s')).
Proof.
  revert p. induction l as [|c l IH]; intros p Hx.
  - exists [], (snd p), (fst p). destruct p. split; [done|].
    split; [constructor|done].
  - cbn [map foldr] in Hx. rewrite run_Concat in Hx.
    apply in_flat_map in Hx as (y & Hy & Hx).
    cbn [regexp.run] in Hy. unfold regexp.step_rune in Hy.
    destruct p as [b [|c' t]]; [done|]. cbn [snd] in *.
    destruct (regexp.literal_matches c true c') eqn:Hc; [|done].
    destruct Hy as [<-|[]].
    apply IH in Hx as (l' & s' & b' & Hs & Hl & Hx). cbn [snd] in Hs.
    exists (c' :: l'), s', b'. rewrite Hs.
    split; [done|]. split; [by constructor|done].
Qed.

Lemma run_items_sound t k p x :
  In x (regexp.run (foldr regexp.Concat k (template_items t)) p) →
  ∃ m s' b', snd p = m ++ s' ∧ instantiates t m ∧ In x (regexp.run k (b', s')).
Proof.
  revert p. induction t as [|pc t IH]; intros p Hx.
  - exists [], (snd p), (fst p). destruct p. done.
  - unfold template_items in Hx. cbn [flat_map] in Hx.
    rewrite foldr_app in Hx. fold (template_items t) in Hx.
    destruct pc as [l|n]; cbn [piece_items] in Hx.
    + apply run_text_sound in Hx as (l' & s1 & b1 & Hs & Hl & Hx).
      apply IH in Hx as (m & s' & b' & Hs1 & Hm & Hx). cbn [snd] in Hs1.
      exists (l' ++ m), s', b'. rewrite Hs, Hs1, <- app_assoc.
      split; [done|]. split; [|done]. cbn [instantiates]. eauto.
    + cbn [foldr] in Hx. rewrite run_Concat in Hx.
      apply in_flat_map in Hx as (y & Hy & Hx).
      rewrite run_capture_regexp in Hy. destruct p as [b s].
      apply plus_class_sound in Hy as (v & Hs & Hv).
      destruct y as [yb ys]. cbn [snd] in Hs.
      apply IH in Hx as (m & s' & b' & Hs1 & Hm & Hx). cbn [snd] in Hs1.
      exists (v ++ m), s', b'. cbn [snd]. rewrite Hs, Hs1, <- app_assoc.
      split; [done|]. split; [|done]. cbn [instantiates]. eauto.
Qed.

Lemma run_template_sound t q x :
  In x (regexp.run (template_regexp t) (true, q)) → instantiates t q.
Proof.
  unfold template_regexp. rewrite run_Concat. cbn [regexp.run fst flat_map].
  rewrite app_nil_r.
  intros (m & s' & b' & Hs & Hm & Hx)%run_items_sound.
  rewrite run_Concat in Hx. cbn [regexp.run snd] in Hx.
  destruct s' as [|c s']; [|done]. cbn [snd] in Hs. rewrite app_nil_r in Hs.
  by subst.
Qed.

Lemma run_template_anchored t s :
  regexp.run (template_regexp t) (false, s) = [].
Proof. reflexivity. Qed.

Lemma find_from_anchored re s :
  (∀ s', regexp.run re (false, s') = []) → regexp.find_from re false s = None.
Proof.
  intros Ha. induction s as [|c s IH]; cbn [regexp.find_from];
    unfold regexp.match_here; rewrite Ha; cbn [head fmap option_fmap option_map];
    [done|]. by rewrite IH.
Qed.

Lemma FindString_anchored re q :
  (∀ s', regexp.run re (false, s') = []) →
  regexp.FindString re q ≠ [] → ∃ x, In x (regexp.run re (true, q)).
Proof.
  intros Ha Hf. unfold regexp.FindString, regexp.doExecute in Hf.
  rewrite drop_0 in Hf. cbn [Nat.eqb] in Hf.
  destruct (regexp.run re (true, q)) as [|x xs] eqn:Hrun; [|exists x; by left].
  exfalso. apply Hf.
  destruct q as [|c q]; cbn [regexp.find_from]; unfold regexp.match_here;
    rewrite Hrun; cbn [head fmap option_fmap option_map]; [done|].
  by rewrite (find_from_anchored re q Ha).
Qed.

(** ** Segments *)

Lemma seg_shape_cons c s :
  seg_shape (c :: s) =
    if c =? 47 then false :: seg_shape s else true :: tail (seg_shape s).
Proof. reflexivity. Qed.

Lemma seg_shape_not_nil s : seg_shape s ≠ [].
Proof. destruct s as [|c s]; [done|]. cbn [seg_shape]. by destruct (c =? 47). Qed.

Lemma join_false_l ys : ys ≠ [] → join [false] ys = ys.
Proof. by destruct ys. Qed.

Lemma join_cons x xs ys : xs ≠ [] → join (x :: xs) ys = x :: join xs ys.
Proof. by destruct xs. Qed.

Lemma join_not_nil xs ys : ys ≠ [] → join xs ys ≠ [].
Proof.
  revert ys. induction xs as [|x xs IH]; intros ys Hy; [done|].
  cbn [join]. by destruct xs.
Qed.

Lemma tail_join xs ys :
  ys ≠ [] →
  tail (join xs ys) = match tail xs with
                      | [] => tail ys
                      | _ :: _ => join (tail xs) ys
                      end.
Proof. intros Hy. destruct xs as [|x [|x' xs]]; [by destruct ys|done..]. Qed.

Lemma seg_shape_app a b :
  seg_shape (a ++ b) = join (seg_shape a) (seg_shape b).
Proof.
  induction a as [|c a IH].
  - cbn [app seg_shape]. symmetry. apply join_false_l, seg_shape_not_nil.
  - cbn [app]. rewrite !seg_shape_cons, IH.
    pose proof (seg_shape_not_nil a) as Ha.
    pose proof (seg_shape_not_nil b) as Hb.
    destruct (c =? 47).
    + by rewrite join_cons.
    + destruct (seg_shape a) as [|x [|x' xs]]; [done| |].
      * cbn [join tail]. by rewrite orb_true_l.
      * reflexivity.
Qed.

Lemma covers_length ts qs : covers ts qs → length ts = length qs.
Proof. apply Forall2_length. Qed.

Lemma covers_join xs xs' ys ys' :
  covers xs xs' → covers ys ys' → ys ≠ [] →
  covers (join xs ys) (join xs' ys').
Proof.
  intros Hx Hy Hne. induction Hx as [|x x' xs xs' Hxx Hx IH]; [exact Hy|].
  assert (ys' ≠ []) as Hne' by (destruct Hy; done).
  destruct Hx as [|x2 x2' xs2 xs2' ? ?].
  - cbn [join]. destruct Hy as [|y y' ys ys' Hyy Hy]; [done|].
    cbn [hd tail]. constructor; [|done].
    intros [->%Hxx| ->%Hyy]%orb_true_iff; [done|apply orb_true_r].
  - rewrite !join_cons by done. constructor; [done|]. by apply IH.
Qed.

Lemma covers_false (xs qs : list bool) :
  length xs = length qs → covers (map (fun _ => false) xs) qs.
Proof.
  revert qs. induction xs as [|x xs IH]; intros [|q qs] Hl; try done.
  - constructor.
  - cbn [map]. constructor; [done|]. apply IH. simpl in Hl. lia.
Qed.

Lemma literal_matches_slash c c' :
  regexp.literal_matches c true c' = true → (c =? 47) = (c' =? 47).
Proof.
  unfold regexp.literal_matches, regexp.orbit, regexp.orbit_of_lower,
    regexp.is_upper, regexp.is_lower, regexp.KELVIN, regexp.LONG_S.
  compare_runes; try discriminate.
Qed.

Lemma fold_equal_seg_length l l' :
  fold_equal l l' → length (seg_shape l) = length (seg_shape l').
Proof.
  induction 1 as [|c c' l l' Hc _ IH]; [done|].
  rewrite !seg_shape_cons, <- (literal_matches_slash _ _ Hc).
  pose proof (seg_shape_not_nil l). pose proof (seg_shape_not_nil l').
  destruct (c =? 47); cbn [length]; [by rewrite IH|].
  destruct (seg_shape l), (seg_shape l'); try done.
Qed.

Lemma name_rune_not_slash c : name_rune c = true → (c =? 47) = false.
Proof.
  unfold name_rune, regexp.is_upper, regexp.is_lower, regexp.is_digit,
    regexp.KELVIN, regexp.LONG_S.
  compare_runes.
Qed.

Lemma seg_shape_name v : valid_name v = true → seg_shape v = [true].
Proof.
  unfold valid_name. intros [Hl Hv]%andb_true_iff.
  destruct v as [|c v]; [done|]. clear Hl. revert c Hv.
  induction v as [|c' v IH]; intros c Hv.
  - cbn [forallb] in Hv. apply andb_true_iff in Hv as [Hc _].
    cbn [seg_shape]. by rewrite (name_rune_not_slash _ Hc).
  - cbn [forallb] in Hv. apply andb_true_iff in Hv as [Hc Hv].
    rewrite seg_shape_cons, (name_rune_not_slash _ Hc). by rewrite (IH c' Hv).
Qed.

Lemma param_segments_not_nil t : param_segments t ≠ [].
Proof.
  induction t as [|[l|n] t IH]; [done|..]; cbn [param_segments];
    by apply join_not_nil.
Qed.

(** An instance of the template has its segments, and none that holds a
    placeholder is empty. *)
Lemma instantiates_covers t q :
  instantiates t q → covers (param_segments t) (seg_shape q).
Proof.
  revert q. induction t as [|[l|n] t IH]; intros q Hq; cbn [instantiates] in Hq.
  - subst q. constructor; [done|constructor].
  - destruct Hq as (l' & q' & -> & Hl & Hq). cbn [param_segments].
    rewrite seg_shape_app. apply covers_join.
    + apply covers_false, fold_equal_seg_length, Hl.
    + by apply IH.
    + apply param_segments_not_nil.
  - destruct Hq as (v & q' & -> & Hv & Hq). cbn [param_segments].
    rewrite seg_shape_app, (seg_shape_name v Hv). apply covers_join.
    + constructor; [done|constructor].
    + by apply IH.
    + apply param_segments_not_nil.
Qed.

Lemma covers_not_empty_segment ts qs :
  covers ts qs → ¬ ∃ j, ts !! j = Some true ∧ qs !! j ≠ Some true.
Proof.
  intros Hc (j & Ht & Hq).
  destruct (Forall2_lookup_l _ _ _ _ _ Hc Ht) as (b & Hb & Himp).
  rewrite Hb in Hq. rewrite Himp in Hq; done.
Qed.

(** ** Registering and dispatching a plain pattern route *)

Lemma plain_rune_not_lbrace c : plain_rune c = true → (c =? 123) = false.
Proof.
  unfold plain_rune, metacharacters. cbn [existsb].
  intros [_ Hm]%andb_true_iff. apply negb_true_iff in Hm.
  repeat (apply orb_false_iff in Hm as [? Hm]). done.
Qed.

Lemma substitute_text l s :
  forallb plain_rune l = true → substitute 0 (l ++ s) = l ++ substitute 0 s.
Proof.
  induction l as [|c l IH]; [done|]. cbn [forallb].
  intros [Hc Hl]%andb_true_iff. cbn [app substitute placeholder_at].
  rewrite (plain_rune_not_lbrace _ Hc). by rewrite IH.
Qed.

Lemma replace_placeholders_render t :
  plain_template t = true → replace_placeholders (render t) = render_key t.
Proof.
  unfold replace_placeholders. induction t as [|[l|n] t IH]; [done|..];
    cbn [plain_template forallb]; intros [Hp Ht]%andb_true_iff;
    cbn [render render_piece render_key key_piece].
  - by rewrite substitute_text, IH.
  - change ((123 :: n ++ [125]) ++ render t)
      with (123 :: (n ++ [125]) ++ render t).
    rewrite <- app_assoc. cbn [app].
    rewrite (substitute_first _ 0%nat (render t)).
    + by rewrite take_0, IH.
    + cbn [first_placeholder]. by rewrite (placeholder_at_span n (render t) Hp).
Qed.

Lemma has_placeholder_app pre s :
  has_placeholder s = true → has_placeholder (pre ++ s) = true.
Proof.
  intros Hs. induction pre as [|c pre IH]; [done|].
  cbn [app has_placeholder]. rewrite IH. apply orb_true_r.
Qed.

Lemma has_placeholder_render t :
  plain_template t = true → existsb is_param t = true →
  has_placeholder (render t) = true.
Proof.
  induction t as [|[l|n] t IH]; [done|..];
    cbn [plain_template forallb existsb is_param];
    intros [Hp Ht]%andb_true_iff Hex; cbn [render render_piece].
  - apply has_placeholder_app. by apply IH.
  - change ((123 :: n ++ [125]) ++ render t)
      with (123 :: (n ++ [125]) ++ render t).
    rewrite <- app_assoc. apply (has_placeholder_span [] n (render t) Hp).
Qed.

Lemma route_key_render t :
  plain_template t = true → existsb is_param t = true →
  route_key (render t) = str "^" ++ render_key t ++ str "$".
Proof.
  intros Ht Hex. unfold route_key.
  by rewrite (has_placeholder_render t Ht Hex), (replace_placeholders_render t Ht).
Qed.

Lemma covers_join_true_l ts qs :
  ts ≠ [] → covers ts qs → covers ts (join [true] qs).
Proof.
  intros Hne. destruct 1 as [|t q ts qs Htq Hc]; [done|].
  cbn [join hd tail orb]. by constructor.
Qed.

Lemma covers_join_true_r ts qs :
  ts ≠ [] → covers ts qs → covers ts (join qs [true]).
Proof.
  intros Hne. induction 1 as [|t q ts qs Htq Hc IH]; [done|].
  destruct Hc as [|t2 q2 ts2 qs2 ? ?].
  - cbn [join hd tail]. constructor; [|constructor].
    intros _. apply orb_true_r.
  - rewrite join_cons by done. constructor; [done|]. by apply IH.
Qed.

Lemma render_key_covers t :
  covers (param_segments t) (seg_shape (render_key t)).
Proof.
  induction t as [|[l|n] t IH]; cbn [param_segments render_key key_piece].
  - constructor; [done|constructor].
  - rewrite seg_shape_app. apply covers_join; [|done|apply param_segments_not_nil].
    by apply covers_false.
  - rewrite seg_shape_app. apply covers_join; [|done|apply param_segments_not_nil].
    constructor; [done|constructor].
Qed.

Lemma pattern_key_covers t :
  covers (param_segments t) (seg_shape (str "^" ++ render_key t ++ str "$")).
Proof.
  rewrite !seg_shape_app.
  apply covers_join_true_l; [apply param_segments_not_nil|].
  apply covers_join_true_r; [apply param_segments_not_nil|].
  apply render_key_covers.
Qed.

Lemma pattern_key_match_cases t q :
  plain_template t = true →
  regexp.within_limits (str "(?i)" ++ str "^" ++ render_key t ++ str "$") = true →
  matchRoutePattern [str "^" ++ render_key t ++ str "$"] q = Ret ([], false) ∨
  instantiates t q.
Proof.
  intros Ht Hw. rewrite matchRoutePattern_cons.
  rewrite (MustCompile_Ret _ _ (pattern_key_compiles t Ht Hw)). cbn [bind].
  destruct (regexp.FindString (template_regexp t) q) as [|c f] eqn:Hf;
    [by left|]. right.
  destruct (FindString_anchored (template_regexp t) q (run_template_anchored t))
    as [x Hx]; [by rewrite Hf|].
  by apply run_template_sound in Hx.
Qed.

(** C7 as stated fails: a regular-expression operator in the literal text of
    a route acts on the capture group.  With only GET /users/{id}? registered
    the key is ^/users/([a-z0-9-_]+)?$, and GET /users/, whose parameter
    segment is empty, is answered by the handler of the route. *)
Lemma C7_counterexample :
  ∃ r table,
    RegisterRoute NewRouter GET (str "/users/{id}?") handlerB = Ret r ∧
    method_table r GET = Some table ∧
    table = {[str "^/users/([a-z0-9-_]+)?$" := entry handlerB]} ∧
    render [Text (str "/users/"); Param (str "id"); Text (str "?")] =
      str "/users/{id}?" ∧
    empty_param_segment [Text (str "/users/"); Param (str "id"); Text (str "?")]
      (str "/users/") ∧
    handlerB ≠ routeNotFoundHandler ∧
    ∀ order, yields table order →
      findReqHandler r order (mkRequest GET (str "/users/")) = Ret (handlerB, None).
Proof.
  exists {| routes := Some {[GET := {[str "^/users/([a-z0-9-_]+)?$" := entry handlerB]}]} |},
         {[str "^/users/([a-z0-9-_]+)?$" := entry handlerB]}.
  split; [vm_compute; reflexivity|]. split; [vm_compute; reflexivity|].
  split; [reflexivity|]. split; [reflexivity|].
  split; [exists 2%nat; split; [reflexivity|vm_compute; discriminate]|].
  split.
  - intros H. apply (f_equal (fun h => call h NewRecorder (mkRequest [] []))) in H.
    vm_compute in H. discriminate.
  - intros order Hy. apply yields_singleton in Hy as ->. vm_compute. reflexivity.
Qed.

(** C7, amended: let the only route of a method be a pattern route whose
    literal text is made of plain runes, that is ASCII runes that are no
    regular-expression metacharacter, and whose key is of a size the model
    of [regexp] covers.  A request of the method whose
    path lacks, or has empty, a segment that holds a placeholder in the route
    resolves to the not-found handler.  More generally every request of the
    method resolves to the not-found handler unless its path is the key
    itself or is the registered path with each text kept up to case and each
    placeholder replaced by one or more name runes (never none, never a
    slash). *)
Theorem C7_empty_parameter_segment_not_found (r : Router)
    (rm : RequestHandlerMap) (method : gostring) (t : template)
    (handler : RequestHandler) :
  routes r = Some rm →
  rm !! method = None →
  plain_template t = true →
  existsb is_param t = true →
  regexp.within_limits (str "(?i)" ++ str "^" ++ render_key t ++ str "$") = true →
  ∃ r' table,
    RegisterRoute r method (render t) handler = Ret r' ∧
    method_table r' method = Some table ∧
    table = {[str "^" ++ render_key t ++ str "$" := entry handler]} ∧
    ∀ order req, yields table order → Method req = method →
      (empty_param_segment t (Path req) →
       findReqHandler r' order req = Ret (routeNotFoundHandler, None)) ∧
      (findReqHandler r' order req = Ret (routeNotFoundHandler, None) ∨
       Path req = str "^" ++ render_key t ++ str "$" ∨
       instantiates t (Path req)).
Proof.
  intros Hrm Hnone Ht Hex Hw. eexists _, _.
  rewrite (RegisterRoute_key _ _ _ _ _ Hrm), (route_key_render t Ht Hex).
  split; [reflexivity|]. rewrite method_table_store, Hnone.
  split; [reflexivity|]. split; [reflexivity|].
  intros order req Hy Hm.
  change (<[str "^" ++ render_key t ++ str "$" := entry handler]> (default ∅ None))
    with ({[str "^" ++ render_key t ++ str "$" := entry handler]} : RouteTable) in Hy.
  apply yields_singleton in Hy as ->.
  assert (∀ q, q ≠ str "^" ++ render_key t ++ str "$" →
            matchRoutePattern [str "^" ++ render_key t ++ str "$"] q = Ret ([], false) →
            findReqHandler
              {| routes := Some (store rm method (str "^" ++ render_key t ++ str "$")
                                   (entry handler)) |}
              [str "^" ++ render_key t ++ str "$"]
              (mkRequest method q) = Ret (routeNotFoundHandler, None)) as Hnf.
  { intros q Hq Hmatch. unfold findReqHandler. cbn [Method Path].
    rewrite method_table_store, Hnone. cbn [default].
    rewrite lookup_insert_ne by done. rewrite lookup_empty.
    by rewrite Hmatch. }
  destruct req as [m q]. cbn [Method Path] in *. subst m. split.
  - intros Hempty. apply Hnf.
    + intros ->. eapply covers_not_empty_segment; [|exact Hempty].
      apply pattern_key_covers.
    + destruct (pattern_key_match_cases t q Ht Hw) as [Hmatch|Hinst]; [done|].
      exfalso. eapply covers_not_empty_segment; [|exact Hempty].
      by apply instantiates_covers.
  - destruct (decide (q = str "^" ++ render_key t ++ str "$")) as [Hq|Hq];
      [by right; left|].
    destruct (pattern_key_match_cases t q Ht Hw) as [Hmatch|Hinst];
      [left; by apply Hnf | by right; right].
Qed.

Lemma C7_empty_parameter_segment_not_found_witness :
  ∃ r' table,
    RegisterRoute NewRouter GET
      (render [Text (str "/users/"); Param (str "id")]) handlerB = Ret r' ∧
    method_table r' GET = Some table ∧
    findReqHandler r' [str "^/users/([a-z0-9-_]+)$"]
      (mkRequest GET (str "/users/")) = Ret (routeNotFoundHandler, None).
Proof.
  destruct (C7_empty_parameter_segment_not_found NewRouter ∅ GET
              [Text (str "/users/"); Param (str "id")] handlerB
              eq_refl eq_refl eq_refl eq_refl eq_refl)
    as (r' & table & Hreg & Htab & Heq & Hall).
  exists r', table. split; [exact Hreg|]. split; [exact Htab|].
  apply (Hall [str "^/users/([a-z0-9-_]+)$"] (mkRequest GET (str "/users/"))).
  - rewrite Heq. unfold yields. rewrite map_to_list_singleton. reflexivity.
  - reflexivity.
  - exists 2%nat. split; [reflexivity|]. vm_compute. discriminate.
Defined.

(** ** A literal key matches inside longer paths *)

Lemma text_key_compiles l :
  forallb plain_rune l = true →
  regexp.within_limits (str "(?i)" ++ l) = true →
  regexp.Compile (str "(?i)" ++ l) = regexp.COk (text_regexp l).
Proof.
  intros Hl Hw. rewrite (Compile_folded _ Hw).
  rewrite <- (app_nil_r l) at 1.
  rewrite parse_plain_text by (done || by right).
  cbn [regexp.parse]. unfold regexp.finish_group. cbn [fold_left].
  by rewrite app_nil_r, finish_branch_rev.
Qed.

Lemma literal_matches_refl c :
  (c <? 128) = true → regexp.literal_matches c true c = true.
Proof.
  intros Hc%N.ltb_lt.
  unfold regexp.literal_matches, regexp.orbit, regexp.orbit_of_lower,
    regexp.is_upper, regexp.is_lower, regexp.KELVIN, regexp.LONG_S.
  compare_runes.
Qed.

Lemma strip_fold_prefix_refl l post :
  forallb plain_rune l = true → strip_fold_prefix l (l ++ post) = Some post.
Proof.
  induction l as [|c l IH]; [done|]. cbn [forallb].
  intros [Hc Hl]%andb_true_iff. cbn [app strip_fold_prefix].
  unfold plain_rune in Hc. apply andb_true_iff in Hc as [Hc _].
  by rewrite (literal_matches_refl c Hc), IH.
Qed.

Lemma strip_fold_prefix_length l q rest :
  strip_fold_prefix l q = Some rest → length q = (length l + length rest)%nat.
Proof.
  revert q. induction l as [|c l IH]; intros q.
  - by intros [= ->].
  - destruct q as [|c' q]; [done|]. cbn [strip_fold_prefix].
    destruct (regexp.literal_matches c true c'); [|done].
    intros Hq%IH. simpl. lia.
Qed.

Lemma run_text_regexp l b q :
  snd <$> regexp.run (text_regexp l) (b, q) =
    match strip_fold_prefix l q with Some rest => [rest] | None => [] end.
Proof.
  revert b q. induction l as [|c l IH]; intros b q; [done|].
  unfold text_regexp. cbn [map foldr]. fold (text_regexp l).
  rewrite run_Concat. cbn [regexp.run]. unfold regexp.step_rune. cbn [snd].
  destruct q as [|c' q]; [done|]. cbn [strip_fold_prefix].
  destruct (regexp.literal_matches c true c'); [|done].
  cbn [flat_map]. rewrite app_nil_r. apply IH.
Qed.

Lemma match_here_text l b q :
  regexp.match_here (text_regexp l) (b, q) = strip_fold_prefix l q.
Proof.
  unfold regexp.match_here. pose proof (run_text_regexp l b q) as Hrun.
  destruct (regexp.run (text_regexp l) (b, q)) as [|x xs];
    destruct (strip_fold_prefix l q); simpl in *; congruence.
Qed.

(** The leftmost occurrence is found, and it is as long as the key. *)
Lemma find_from_text l b pre post :
  forallb plain_rune l = true →
  ∃ i rest, regexp.find_from (text_regexp l) b (pre ++ l ++ post) = Some (i, rest) ∧
            length (pre ++ l ++ post) = (i + length l + length rest)%nat.
Proof.
  intros Hl. revert b. induction pre as [|c pre IH]; intros b.
  - exists 0%nat, post. cbn [app].
    destruct (l ++ post) as [|c q] eqn:Hq; cbn [regexp.find_from];
      rewrite match_here_text, <- Hq, (strip_fold_prefix_refl l post Hl);
      (split; [done|]); rewrite length_app; lia.
  - cbn [app regexp.find_from]. rewrite match_here_text.
    destruct (strip_fold_prefix l (c :: pre ++ l ++ post)) as [rest|] eqn:Hs.
    + exists 0%nat, rest. split; [done|].
      apply strip_fold_prefix_length in Hs. rewrite Hs. lia.
    + destruct (IH false) as (i & rest & -> & Hlen).
      exists (S i), rest. split; [done|]. simpl. lia.
Qed.

Lemma FindString_text l pre post :
  forallb plain_rune l = true →
  length (regexp.FindString (text_regexp l) (pre ++ l ++ post)) = length l.
Proof.
  intros Hl. unfold regexp.FindString, regexp.doExecute. rewrite drop_0.
  destruct (find_from_text l (Nat.eqb 0 0) pre post Hl) as (i & rest & -> & Hlen).
  rewrite length_take, length_drop. lia.
Qed.

Lemma plain_text_no_placeholder l :
  forallb plain_rune l = true → has_placeholder l = false.
Proof.
  induction l as [|c l IH]; [done|]. cbn [forallb].
  intros [Hc Hl]%andb_true_iff. cbn [has_placeholder].
  unfold starts_placeholder. cbn [placeholder_at].
  by rewrite (plain_rune_not_lbrace c Hc), IH.
Qed.

(** The defect behind C1 in general: a literal route of plain runes, alone
    under its method, takes every request whose path holds the route's path
    inside a longer one. *)
Lemma literal_route_takes_longer_paths r rm method l handler pre post :
  routes r = Some rm → rm !! method = None →
  forallb plain_rune l = true → l ≠ [] → pre ++ post ≠ [] →
  regexp.within_limits (str "(?i)" ++ l) = true →
  ∃ r' table,
    RegisterRoute r method l handler = Ret r' ∧
    method_table r' method = Some table ∧
    table = {[l := entry handler]} ∧
    ∀ order, yields table order →
      findReqHandler r' order (mkRequest method (pre ++ l ++ post)) =
        Ret (handler, None).
Proof.
  intros Hrm Hnone Hl Hne Hlonger Hw. eexists _, _.
  rewrite (RegisterRoute_key _ _ _ _ _ Hrm). unfold route_key.
  rewrite (plain_text_no_placeholder l Hl).
  split; [reflexivity|]. rewrite method_table_store, Hnone.
  split; [reflexivity|]. split; [reflexivity|].
  intros order Hy.
  change (<[l := entry handler]> (default ∅ None))
    with ({[l := entry handler]} : RouteTable) in Hy.
  apply yields_singleton in Hy as ->.
  unfold findReqHandler. cbn [Method Path].
  rewrite method_table_store, Hnone. cbn [default].
  assert (pre ++ l ++ post ≠ l) as Hneq.
  { intros Heq. apply (f_equal length) in Heq. rewrite !length_app in Heq.
    destruct pre, post; simpl in *; try done; lia. }
  rewrite lookup_insert_ne by done. rewrite lookup_empty.
  rewrite matchRoutePattern_cons.
  rewrite (MustCompile_Ret _ _ (text_key_compiles l Hl Hw)). cbn [bind].
  rewrite (FindString_text l pre post Hl).
  destruct l as [|c l]; [done|]. cbn [length Nat.eqb negb bind snd fst].
  by rewrite lookup_insert_eq.
Qed.

(** C1 fails on the code: the fallback loop runs over every key of the
    method's table, literal keys included, and a literal key is compiled
    without anchors.  With only GET /users registered, GET /users/123 is not
    answered by the not-found handler: the key "/users" matches the prefix
    of the path and its handler is called (status 200, body "A"). *)
Theorem C1_literal_key_matches_inside_path :
  ∃ r table,
    RegisterRoute NewRouter GET (str "/users") handlerA = Ret r ∧
    method_table r GET = Some table ∧
    (∀ order, yields table order →
       matchRoutePattern order (str "/users/123") = Ret (str "/users", true) ∧
       findReqHandler r order (mkRequest GET (str "/users/123")) =
         Ret (handlerA, None) ∧
       ∃ rw', ServeHTTP r order NewRecorder (mkRequest GET (str "/users/123")) =
                Ret ([LogDebug GET (str "/users/123"); Call handlerA], rw') ∧
              Code rw' = 200%Z ∧ Body rw' = str "A") ∧
    handlerA ≠ routeNotFoundHandler.
Proof.
  exists {| routes := Some {[GET := {[str "/users" := entry handlerA]}]} |},
         {[str "/users" := entry handlerA]}.
  split; [vm_compute; reflexivity|]. split; [vm_compute; reflexivity|].
  split.
  - intros order Hy. apply yields_singleton in Hy as ->.
    split; [vm_compute; reflexivity|]. split; [vm_compute; reflexivity|].
    eexists. split; [vm_compute; reflexivity|]. split; reflexivity.
  - intros H. apply (f_equal (fun h => call h NewRecorder (mkRequest [] []))) in H.
    vm_compute in H. discriminate.
Qed.

(** ** The repository's tests, run on the model *)

Example test_ServeHTTPExactPath :
  recorded (registered (RegisterRoute NewRouter GET (str "/users")
                          (textHandler (str "exact path match"))))
    GET (str "/users") = Some (200%Z, str "exact path match").
Proof. vm_compute. reflexivity. Qed.

Example test_ServeHTTPPatternPath :
  let r := registered (RegisterRoute NewRouter GET (str "/users/{id}")
                         (textHandler (str "pattern matched"))) in
  recorded r GET (str "/users/123") = Some (200%Z, str "pattern matched") ∧
  recorded r GET (str "/users/user-123") = Some (200%Z, str "pattern matched") ∧
  recorded r GET (str "/users/user_123") = Some (200%Z, str "pattern matched") ∧
  recorded r GET (str "/users/abc123") = Some (200%Z, str "pattern matched") ∧
  status r GET (str "/posts/123") = Some 404%Z ∧
  status r GET (str "/users/") = Some 404%Z.
Proof. vm_compute. repeat split; reflexivity. Qed.

Example test_ServeHTTPMultipleParameters :
  let r := registered (RegisterRoute NewRouter GET
                         (str "/users/{userId}/posts/{postId}")
                         (textHandler (str "multi param matched"))) in
  status r GET (str "/users/123/posts/456") = Some 200%Z ∧
  status r GET (str "/users/user-123/posts/post-456") = Some 200%Z ∧
  status r GET (str "/users/123/posts/") = Some 404%Z ∧
  status r GET (str "/users/123/comments/456") = Some 404%Z.
Proof. vm_compute. repeat split; reflexivity. Qed.

Example test_ServeHTTPMethodNotFound :
  status (registered (RegisterRoute NewRouter GET (str "/test")
                        (textHandler (str "found"))))
    PATCH (str "/test") = Some 404%Z.
Proof. vm_compute. reflexivity. Qed.

Example test_ServeHTTPRouteNotFound :
  recorded (registered (RegisterRoute NewRouter GET (str "/users")
                          (textHandler [])))
    GET (str "/posts") = Some (404%Z, str "404 - Page not found" ++ [10]).
Proof. vm_compute. reflexivity. Qed.

Example test_NestedPathsWithParameters :
  let r := registered (RegisterRoute NewRouter GET
                         (str "/api/v1/users/{id}/profile")
                         (textHandler (str "nested"))) in
  status r GET (str "/api/v1/users/123/profile") = Some 200%Z ∧
  status r GET (str "/api/v2/users/123/profile") = Some 404%Z ∧
  status r GET (str "/api/v1/users/123") = Some 404%Z.
Proof. vm_compute. repeat split; reflexivity. Qed.

(** Case is ignored in the placeholder and in the text. *)
Example pattern_ignores_case :
  let r := registered (RegisterRoute NewRouter GET (str "/users/{id}")
                         (textHandler (str "pattern matched"))) in
  status r GET (str "/users/ABC") = Some 200%Z ∧
  status r GET (str "/USERS/abc") = Some 200%Z ∧
  status r GET (str "/users/a.b") = Some 404%Z ∧
  status r GET (str "/users/a/b") = Some 404%Z.
Proof. vm_compute. repeat split; reflexivity. Qed.

(** An exact match returns although another key of the table is no valid
    expression: the fallback loop is not entered. *)
Example exact_match_skips_the_fallback :
  let r := registered
             (do r1 <- RegisterRoute NewRouter GET (str "/a(") handlerB;
              RegisterRoute r1 GET (str "/users") handlerA) in
  (∀ order, findReqHandler r order (mkRequest GET (str "/users")) =
              Ret (handlerA, None)) ∧
  findReqHandler r [str "/a("; str "/users"] (mkRequest GET (str "/users/1")) =
    Panic.
Proof.
  split; [intros order|]; vm_compute; reflexivity.
Qed.

(** ** Registration as an update of the route table *)

Lemma route_entry_store rm method key pkg m k :
  route_entry {| routes := Some (store rm method key pkg) |} m k =
    if decide (method = m ∧ key = k) then Some pkg
    else route_entry {| routes := Some rm |} m k.
Proof.
  unfold route_entry, method_table, store. cbn [routes].
  destruct (decide (method = m)) as [->|Hm].
  - rewrite lookup_insert_eq. destruct (decide (key = k)) as [->|Hk].
    + rewrite decide_True by done. apply lookup_insert_eq.
    + rewrite decide_False by (intros [_ ?]; done).
      rewrite lookup_insert_ne by done.
      destruct (rm !! m); [done|]. apply lookup_empty.
  - rewrite decide_False by (intros [? _]; done).
    by rewrite lookup_insert_ne.
Qed.

Lemma store_store rm method key pkg1 pkg2 :
  store (store rm method key pkg1) method key pkg2 = store rm method key pkg2.
Proof.
  unfold store. rewrite lookup_insert_eq. cbn [default].
  rewrite insert_insert_eq. f_equal. apply insert_insert_eq.
Qed.

Lemma store_commute rm m1 k1 pkg1 m2 k2 pkg2 :
  m1 ≠ m2 ∨ k1 ≠ k2 →
  store (store rm m1 k1 pkg1) m2 k2 pkg2 = store (store rm m2 k2 pkg2) m1 k1 pkg1.
Proof.
  intros Hne. unfold store. destruct (decide (m1 = m2)) as [->|Hm].
  - destruct Hne as [?|Hk]; [done|].
    rewrite !lookup_insert_eq. cbn [default]. rewrite !insert_insert_eq.
    f_equal. by apply insert_insert_ne.
  - rewrite !lookup_insert_ne by done.
    by apply insert_insert_ne.
Qed.

Lemma findReqHandler_exact r order req pkg :
  route_entry r (Method req) (Path req) = Some pkg →
  findReqHandler r order req = Ret (Handler pkg, None).
Proof.
  unfold route_entry, findReqHandler.
  destruct (method_table r (Method req)) as [table|]; [|done].
  by intros ->.
Qed.

Lemma findReqHandler_stored rm method key pkg order :
  findReqHandler {| routes := Some (store rm method key pkg) |} order
    (mkRequest method key) = Ret (Handler pkg, None).
Proof.
  apply (findReqHandler_exact _ _ _ pkg).
  cbn [Method Path]. rewrite route_entry_store. by rewrite decide_True.
Qed.

(** X1: a request whose path is the key a registration stored is answered by
    the registered handler, whatever the other keys and the iteration order;
    for a path without placeholder the key is the path itself, so the route
    answers its own path even when the path is no valid expression. *)
Theorem registered_route_answers_its_key (r : Router) (rm : RequestHandlerMap)
    (method path : gostring) (handler : RequestHandler) :
  routes r = Some rm →
  ∃ r', RegisterRoute r method path handler = Ret r' ∧
        (∀ order, findReqHandler r' order (mkRequest method (route_key path)) =
                    Ret (handler, None)) ∧
        (has_placeholder path = false →
         ∀ order, findReqHandler r' order (mkRequest method path) =
                    Ret (handler, None)).
Proof.
  intros Hrm. eexists. split; [exact (RegisterRoute_key _ _ _ _ _ Hrm)|].
  assert (∀ order,
            findReqHandler
              {| routes := Some (store rm method (route_key path) (entry handler)) |}
              order (mkRequest method (route_key path)) = Ret (handler, None)) as H.
  { intros order. apply (findReqHandler_stored rm method _ (entry handler)). }
  split; [exact H|]. intros Hno order. specialize (H order).
  unfold route_key in H |- *. rewrite Hno in H |- *. exact H.
Qed.

Lemma registered_route_answers_its_key_witness :
  ∃ r', RegisterRoute NewRouter GET (str "/a(") handlerA = Ret r' ∧
        ∀ order, findReqHandler r' order (mkRequest GET (str "/a(")) =
                   Ret (handlerA, None).
Proof.
  destruct (registered_route_answers_its_key NewRouter ∅ GET (str "/a(")
              handlerA eq_refl) as (r' & Hreg & _ & Hlit).
  exists r'. split; [exact Hreg|]. exact (Hlit eq_refl).
Defined.

(** X2: a registration whose path has the key of an earlier one under the
    same method replaces it: the router is the one the later call alone
    would give. *)
Theorem reregistration_replaces (r : Router) (rm : RequestHandlerMap)
    (method p1 p2 : gostring) (h1 h2 : RequestHandler) :
  routes r = Some rm →
  route_key p1 = route_key p2 →
  (do r1 <- RegisterRoute r method p1 h1; RegisterRoute r1 method p2 h2) =
    RegisterRoute r method p2 h2.
Proof.
  intros Hrm Hk. rewrite (RegisterRoute_key _ _ _ _ _ Hrm). cbn [bind].
  rewrite (RegisterRoute_key _ (store rm method (route_key p1) (entry h1)))
    by reflexivity.
  rewrite (RegisterRoute_key _ _ _ _ _ Hrm), Hk. by rewrite store_store.
Qed.

Lemma reregistration_replaces_witness :
  (do r1 <- RegisterRoute NewRouter GET (str "/users/{id}") handlerA;
   RegisterRoute r1 GET (str "/users/{name}") handlerB) =
    RegisterRoute NewRouter GET (str "/users/{name}") handlerB.
Proof.
  apply (reregistration_replaces NewRouter ∅ GET (str "/users/{id}")
           (str "/users/{name}") handlerA handlerB); reflexivity.
Defined.

(** X3: registrations under different methods, or with different keys,
    commute. *)
Theorem registrations_commute (r : Router) (rm : RequestHandlerMap)
    (m1 p1 m2 p2 : gostring) (h1 h2 : RequestHandler) :
  routes r = Some rm →
  m1 ≠ m2 ∨ route_key p1 ≠ route_key p2 →
  (do r1 <- RegisterRoute r m1 p1 h1; RegisterRoute r1 m2 p2 h2) =
  (do r2 <- RegisterRoute r m2 p2 h2; RegisterRoute r2 m1 p1 h1).
Proof.
  intros Hrm Hne. rewrite !(RegisterRoute_key _ _ _ _ _ Hrm). cbn [bind].
  rewrite (RegisterRoute_key _ (store rm m1 (route_key p1) (entry h1)))
    by reflexivity.
  rewrite (RegisterRoute_key _ (store rm m2 (route_key p2) (entry h2)))
    by reflexivity.
  by rewrite store_commute.
Qed.

Lemma registrations_commute_witness :
  (do r1 <- RegisterRoute NewRouter GET (str "/resource") handlerA;
   RegisterRoute r1 POST (str "/resource") handlerB) =
  (do r2 <- RegisterRoute NewRouter POST (str "/resource") handlerB;
   RegisterRoute r2 GET (str "/resource") handlerA).
Proof.
  apply (registrations_commute NewRouter ∅ GET (str "/resource") POST
           (str "/resource") handlerA handlerB); [reflexivity|].
  left. vm_compute. discriminate.
Defined.

(** X4: a registration changes one entry only.  Every other entry keeps its
    package, requests of other methods resolve as before, and a request that
    was an exact match before still resolves to the same handler unless its
    path is the new key. *)
Theorem registration_keeps_other_routes (r : Router) (rm : RequestHandlerMap)
    (method path : gostring) (handler : RequestHandler) :
  routes r = Some rm →
  ∃ r', RegisterRoute r method path handler = Ret r' ∧
        (∀ m k, ¬ (m = method ∧ k = route_key path) →
                route_entry r' m k = route_entry r m k) ∧
        (∀ order req, Method req ≠ method →
                      findReqHandler r' order req = findReqHandler r order req) ∧
        (∀ order req pkg, route_entry r (Method req) (Path req) = Some pkg →
                          Path req ≠ route_key path →
                          findReqHandler r' order req = Ret (Handler pkg, None)).
Proof.
  intros Hrm. eexists. split; [exact (RegisterRoute_key _ _ _ _ _ Hrm)|].
  assert (r = {| routes := Some rm |}) as -> by (destruct r; simpl in *; congruence).
  assert (∀ m k, ¬ (m = method ∧ k = route_key path) →
            route_entry
              {| routes := Some (store rm method (route_key path) (entry handler)) |}
              m k = route_entry {| routes := Some rm |} m k) as Hkeep.
  { intros m k Hne. rewrite route_entry_store.
    rewrite decide_False; [done|]. intros [? ?]. by apply Hne. }
  split; [exact Hkeep|]. split.
  - intros order req Hm. unfold findReqHandler, method_table, store. cbn [routes].
    by rewrite lookup_insert_ne.
  - intros order req pkg Hp Hne. apply findReqHandler_exact.
    rewrite Hkeep; [done|]. intros [_ ?]. done.
Qed.

Lemma registration_keeps_other_routes_witness :
  ∃ r', RegisterRoute users_router POST (str "/users") handlerB = Ret r' ∧
        findReqHandler r' [] (mkRequest GET (str "/users/me")) =
          findReqHandler users_router [] (mkRequest GET (str "/users/me")).
Proof.
  destruct (registration_keeps_other_routes users_router {[GET := users_table]}
              POST (str "/users") handlerB eq_refl) as (r' & Hreg & _ & Hm & _).
  exists r'. split; [exact Hreg|]. apply Hm. vm_compute. discriminate.
Defined.

Lemma register_all_entries rs r rm :
  routes r = Some rm →
  ∃ r' rm', register_all r rs = Ret r' ∧ routes r' = Some rm' ∧
            ∀ m k, route_entry r' m k =
                     match last_registered rs m k with
                     | Some h => Some (entry h)
                     | None => route_entry r m k
                     end.
Proof.
  revert r rm. induction rs as [|x rs IH]; intros r rm Hrm.
  - exists r, rm. done.
  - cbn [register_all]. rewrite (RegisterRoute_key _ _ _ _ _ Hrm). cbn [bind].
    destruct (IH {| routes := Some (store rm (r_method x) (route_key (r_path x))
                                      (entry (r_handler x))) |} _ eq_refl)
      as (r' & rm' & Hreg & Hrm' & Hent).
    exists r', rm'. split; [exact Hreg|]. split; [exact Hrm'|].
    intros m k. rewrite Hent. cbn [last_registered].
    destruct (last_registered rs m k); [done|].
    rewrite route_entry_store.
    assert (r = {| routes := Some rm |}) as ->
      by (destruct r; simpl in *; congruence).
    by destruct (decide _).
Qed.

Lemma register_all_tables rs r rm :
  routes r = Some rm →
  (∀ m table, method_table r m = Some table → table ≠ ∅) →
  ∀ r', register_all r rs = Ret r' →
        ∀ m table, method_table r' m = Some table → table ≠ ∅.
Proof.
  revert r rm. induction rs as [|x rs IH]; intros r rm Hrm Hinv r'.
  - intros [= <-]. exact Hinv.
  - cbn [register_all]. rewrite (RegisterRoute_key _ _ _ _ _ Hrm). cbn [bind].
    apply (IH {| routes := Some (store rm (r_method x) (route_key (r_path x))
                                   (entry (r_handler x))) |} _ eq_refl).
    intros m table. unfold method_table, store. cbn [routes].
    destruct (decide (r_method x = m)) as [->|Hm].
    + rewrite lookup_insert_eq. intros [= <-]. apply insert_non_empty.
    + rewrite lookup_insert_ne by done. intros Ht. apply (Hinv m).
      unfold method_table. by rewrite Hrm.
Qed.

(** X5: a set-up phase on a new router never fails.  Afterwards the entry of
    a method and key holds the handler of the last registration with that
    method and key, with an empty parameter map, and there is no entry that
    no registration stored; the table of a known method is never empty. *)
Theorem setup_keeps_last_registration (rs : list route) :
  ∃ r, register_all NewRouter rs = Ret r ∧
       (∀ m k, route_entry r m k = entry <$> last_registered rs m k) ∧
       (∀ m table, method_table r m = Some table → table ≠ ∅).
Proof.
  destruct (register_all_entries rs NewRouter ∅ eq_refl)
    as (r & rm & Hreg & Hrm & Hent).
  exists r. split; [exact Hreg|]. split.
  - intros m k. rewrite Hent. by destruct (last_registered rs m k).
  - apply (register_all_tables rs NewRouter ∅ eq_refl); [|exact Hreg].
    intros m table. unfold method_table. cbn [routes NewRouter].
    by rewrite lookup_empty.
Qed.

(** X6: [RegisterRoute] accepts a nil handler; the panic comes when a request
    for the route is dispatched and the nil function is called. *)
Theorem nil_handler_panics_at_dispatch (r : Router) (rm : RequestHandlerMap)
    (method path : gostring) :
  routes r = Some rm →
  ∃ r', RegisterRoute r method path NilHandler = Ret r' ∧
        ∀ order rw, ServeHTTP r' order rw (mkRequest method (route_key path)) =
                      Panic.
Proof.
  intros Hrm. eexists. split; [exact (RegisterRoute_key _ _ _ _ _ Hrm)|].
  intros order rw.
  by rewrite (ServeHTTP_resolved _ _ _ _ _
                (findReqHandler_stored rm method (route_key path)
                   (entry NilHandler) order)).
Qed.

Lemma nil_handler_panics_at_dispatch_witness :
  ∃ r', RegisterRoute NewRouter GET (str "/users") NilHandler = Ret r' ∧
        ∀ order rw, ServeHTTP r' order rw (mkRequest GET (str "/users")) = Panic.
Proof.
  exact (nil_handler_panics_at_dispatch NewRouter ∅ GET (str "/users") eq_refl).
Defined.

(** ** The fallback loop *)

Lemma FindString_length_zero re path :
  Nat.eqb (length (regexp.FindString re path)) 0 = true ↔
  regexp.FindString re path = [].
Proof. destruct (regexp.FindString re path); simpl; split; done. Qed.

Lemma matchRoutePattern_rejected k rest path :
  key_rejects k path →
  matchRoutePattern (k :: rest) path = matchRoutePattern rest path.
Proof.
  intros (re & Hre & Hf). rewrite matchRoutePattern_cons.
  rewrite (MustCompile_Ret _ _ Hre). cbn [bind]. by rewrite Hf.
Qed.

Lemma matchRoutePattern_matched k rest path :
  key_matches k path → matchRoutePattern (k :: rest) path = Ret (k, true).
Proof.
  intros (re & Hre & Hf). rewrite matchRoutePattern_cons.
  rewrite (MustCompile_Ret _ _ Hre). cbn [bind].
  by destruct (regexp.FindString re path).
Qed.

(** X7: the first key of the iteration that matches wins: the keys before it
    were compiled and rejected, the keys after it are not looked at, not even
    compiled.  Which of several matching keys answers is decided by the
    iteration order alone. *)
Theorem first_matching_key_wins (pre rest : list gostring) (k path : gostring) :
  Forall (fun k' => key_rejects k' path) pre →
  key_matches k path →
  matchRoutePattern (pre ++ k :: rest) path = Ret (k, true).
Proof.
  intros Hpre Hk. induction Hpre as [|k' pre Hk' _ IH]; cbn [app].
  - by apply matchRoutePattern_matched.
  - by rewrite (matchRoutePattern_rejected _ _ _ Hk').
Qed.

Lemma users_key_matches :
  key_matches (str "^/users/([a-z0-9-_]+)$") (str "/users/123").
Proof. eexists. split; [vm_compute; reflexivity|]. vm_compute. discriminate. Qed.

Lemma section_key_matches :
  key_matches (str "^/([a-z0-9-_]+)/123$") (str "/users/123").
Proof. eexists. split; [vm_compute; reflexivity|]. vm_compute. discriminate. Qed.

Lemma posts_key_rejects :
  key_rejects (str "^/posts/([a-z0-9-_]+)$") (str "/users/123").
Proof. eexists. split; vm_compute; reflexivity. Qed.

Lemma first_matching_key_wins_witness :
  matchRoutePattern
    [str "^/posts/([a-z0-9-_]+)$"; str "^/users/([a-z0-9-_]+)$";
     str "^/([a-z0-9-_]+)/123$"; str "/a("] (str "/users/123") =
    Ret (str "^/users/([a-z0-9-_]+)$", true) ∧
  matchRoutePattern
    [str "^/posts/([a-z0-9-_]+)$"; str "^/([a-z0-9-_]+)/123$";
     str "^/users/([a-z0-9-_]+)$"; str "/a("] (str "/users/123") =
    Ret (str "^/([a-z0-9-_]+)/123$", true).
Proof.
  split.
  - apply (first_matching_key_wins [str "^/posts/([a-z0-9-_]+)$"]
             [str "^/([a-z0-9-_]+)/123$"; str "/a("]).
    + constructor; [exact posts_key_rejects|constructor].
    + exact users_key_matches.
  - apply (first_matching_key_wins [str "^/posts/([a-z0-9-_]+)$"]
             [str "^/users/([a-z0-9-_]+)$"; str "/a("]).
    + constructor; [exact posts_key_rejects|constructor].
    + exact section_key_matches.
Defined.

Lemma matchRoutePattern_all_rejected order path :
  Forall (fun k => key_rejects k path) order →
  matchRoutePattern order path = Ret ([], false).
Proof.
  induction 1 as [|k rest Hk _ IH]; [done|].
  by rewrite (matchRoutePattern_rejected _ _ _ Hk).
Qed.

(** X8: the loop answers "no match" exactly when every key of the iteration
    compiled and was rejected. *)
Theorem fallback_fails_iff_all_rejected (order : list gostring)
    (path : gostring) :
  matchRoutePattern order path = Ret ([], false) ↔
  Forall (fun k => key_rejects k path) order.
Proof.
  induction order as [|k rest IH].
  - split; [constructor|done].
  - split.
    + rewrite matchRoutePattern_cons. unfold regexp.MustCompile.
      destruct (regexp.Compile (str "(?i)" ++ k)) as [re| |] eqn:Hre;
        cbn [bind]; [|done..].
      destruct (regexp.FindString re path) as [|c f] eqn:Hf; [|done].
      cbn [length Nat.eqb negb]. intros Hrest%IH.
      constructor; [by exists re|done].
    + apply matchRoutePattern_all_rejected.
Qed.

Lemma FindString_empty_path re : regexp.FindString re [] = [].
Proof.
  unfold regexp.FindString. destruct (regexp.doExecute re [] 0) as [[lo hi]|];
    [|done]. by rewrite drop_nil, take_nil.
Qed.

Lemma matchRoutePattern_empty_path order res :
  matchRoutePattern order [] = Ret res → res = ([], false).
Proof.
  induction order as [|k rest IH]; [by intros [= <-]|].
  rewrite matchRoutePattern_cons. unfold regexp.MustCompile.
  destruct (regexp.Compile (str "(?i)" ++ k)) as [re| |]; cbn [bind]; [|done..].
  by rewrite FindString_empty_path.
Qed.

(** X9: the empty path is never matched in the fallback: a match is told
    from its length, and in the empty path every match is empty.  Whenever
    the loop returns, whatever the keys, it reports no match, and it does
    return when every key compiles.  So a request with an empty path, when
    it is resolved, gets the not-found handler unless the empty path itself
    is a key of the method. *)
Theorem empty_path_matches_no_key (r : Router) (order : list gostring)
    (method : gostring) :
  (∀ res, matchRoutePattern order [] = Ret res → res = ([], false)) ∧
  (Forall compiles order → matchRoutePattern order [] = Ret ([], false)) ∧
  (route_entry r method [] = None →
   (∀ h e, findReqHandler r order (mkRequest method []) = Ret (h, e) →
           h = routeNotFoundHandler ∧ e = None) ∧
   (Forall compiles order →
    findReqHandler r order (mkRequest method []) =
      Ret (routeNotFoundHandler, None))).
Proof.
  assert (Forall compiles order → matchRoutePattern order [] = Ret ([], false))
    as Hm.
  { intros Hc. apply matchRoutePattern_all_rejected.
    eapply Forall_impl; [exact Hc|]. intros k [re Hre]. exists re.
    split; [done|]. apply FindString_empty_path. }
  split; [apply matchRoutePattern_empty_path|]. split; [exact Hm|].
  unfold route_entry, findReqHandler. cbn [Method Path].
  destruct (method_table r method) as [table|].
  - intros ->. split.
    + intros h e.
      destruct (matchRoutePattern order []) as [res| | |] eqn:Hres; cbn [bind];
        [|done..].
      apply matchRoutePattern_empty_path in Hres as ->. cbn [snd].
      by intros [= <- <-].
    + intros Hc. by rewrite (Hm Hc).
  - intros _. split; [by intros h e [= <- <-]|done].
Qed.

Lemma empty_path_matches_no_key_witness :
  matchRoutePattern [str "/users/me"; str "^/users/([a-z0-9-_]+)$"] [] =
    Ret ([], false) ∧
  findReqHandler users_router [str "/users/me"; str "^/users/([a-z0-9-_]+)$"]
    (mkRequest GET []) = Ret (routeNotFoundHandler, None).
Proof.
  destruct (empty_path_matches_no_key users_router
              [str "/users/me"; str "^/users/([a-z0-9-_]+)$"] GET)
    as (_ & H1 & H2).
  split; [exact (H1 users_keys_compile)|].
  apply H2; [vm_compute; reflexivity|exact users_keys_compile].
Defined.

(** ** A pattern key matches every instance of its route *)

Lemma star_loop_last (step : regexp.position → list regexp.position) fuel p :
  In p (regexp.star_loop step fuel p).
Proof. destruct fuel; [by left|]. cbn [regexp.star_loop]. apply in_or_app. right. by left. Qed.

Lemma star_loop_class_complete v fuel b s :
  forallb name_rune v = true → (length v ≤ fuel)%nat →
  ∃ b', In (b', s) (regexp.star_loop (regexp.run placeholder_class) fuel (b, v ++ s)).
Proof.
  revert fuel b. induction v as [|c v IH]; intros fuel b Hv Hlen.
  - exists b. apply star_loop_last.
  - cbn [forallb] in Hv. apply andb_true_iff in Hv as [Hc Hv].
    destruct fuel as [|fuel]; [simpl in Hlen; lia|].
    destruct (IH fuel false Hv) as [b' Hin]; [simpl in Hlen; lia|].
    exists b'. cbn [regexp.star_loop app]. apply in_or_app. left.
    rewrite run_placeholder_class, Hc. cbn [flat_map]. rewrite app_nil_r.
    unfold regexp.shorter. cbn [snd length].
    destruct (Nat.ltb_spec (length (v ++ s)) (S (length (v ++ s)))); [done|lia].
Qed.

Lemma plus_class_complete v b s :
  valid_name v = true →
  ∃ b', In (b', s) (regexp.run (regexp.Plus placeholder_class) (b, v ++ s)).
Proof.
  unfold valid_name. intros [Hne Hv]%andb_true_iff.
  destruct v as [|c v]; [done|]. cbn [forallb] in Hv.
  apply andb_true_iff in Hv as [Hc Hv].
  change (regexp.run (regexp.Plus placeholder_class) (b, (c :: v) ++ s))
    with (flat_map (regexp.star_loop (regexp.run placeholder_class)
                      (length ((c :: v) ++ s)))
            (regexp.run placeholder_class (b, (c :: v) ++ s))).
  rewrite run_placeholder_class. cbn [app]. rewrite Hc.
  cbn [flat_map]. rewrite app_nil_r.
  apply star_loop_class_complete; [done|]. cbn [length]. rewrite length_app. lia.
Qed.

Lemma run_text_complete l l' k b s :
  fold_equal l l' →
  ∃ b', ∀ x, In x (regexp.run k (b', s)) →
             In x (regexp.run
                     (foldr regexp.Concat k (map (fun c => regexp.Literal c true) l))
                     (b, l' ++ s)).
Proof.
  intros Hl. revert b. induction Hl as [|c c' l l' Hc _ IH]; intros b.
  - by exists b.
  - destruct (IH false) as [b' Hb']. exists b'. intros x Hx.
    cbn [map foldr app]. rewrite run_Concat. cbn [regexp.run].
    unfold regexp.step_rune. cbn [snd]. rewrite Hc. cbn [flat_map].
    rewrite app_nil_r. by apply Hb'.
Qed.

Lemma run_items_complete t k b m s :
  instantiates t m →
  ∃ b', ∀ x, In x (regexp.run k (b', s)) →
             In x (regexp.run (foldr regexp.Concat k (template_items t)) (b, m ++ s)).
Proof.
  revert b m. induction t as [|pc t IH]; intros b m Hm.
  - cbn [instantiates] in Hm. subst m. by exists b.
  - unfold template_items. cbn [flat_map]. rewrite foldr_app.
    fold (template_items t).
    destruct pc as [l|n]; cbn [instantiates] in Hm;
      destruct Hm as (v & q' & -> & Hv & Hq'); rewrite <- app_assoc.
    + destruct (run_text_complete l v
                  (foldr regexp.Concat k (template_items t)) b (q' ++ s) Hv)
        as [b1 Hb1].
      destruct (IH b1 q' Hq') as [b' Hb']. exists b'. intros x Hx.
      cbn [piece_items]. by apply Hb1, Hb'.
    + destruct (plus_class_complete v b (q' ++ s) Hv) as [b1 Hb1].
      destruct (IH b1 q' Hq') as [b' Hb']. exists b'. intros x Hx.
      cbn [piece_items foldr]. rewrite run_Concat. apply in_flat_map.
      exists (b1, q' ++ s). split; [by rewrite run_capture_regexp|by apply Hb'].
Qed.

Lemma run_template_complete t q :
  instantiates t q → ∃ b', In (b', []) (regexp.run (template_regexp t) (true, q)).
Proof.
  intros Hq. unfold template_regexp. rewrite run_Concat.
  cbn [regexp.run fst flat_map]. rewrite app_nil_r.
  destruct (run_items_complete t
              (regexp.Concat regexp.EndText regexp.EmptyMatch) true q [] Hq)
    as [b' Hb']. exists b'. rewrite app_nil_r in Hb'. apply Hb'. by left.
Qed.

Lemma run_template_ends t q x :
  In x (regexp.run (template_regexp t) (true, q)) → snd x = [].
Proof.
  unfold template_regexp. rewrite run_Concat. cbn [regexp.run fst flat_map].
  rewrite app_nil_r.
  intros (m & s' & b' & Hs & Hm & Hx)%run_items_sound.
  rewrite run_Concat in Hx. cbn [regexp.run snd] in Hx.
  destruct s' as [|c s']; [|done]. cbn [flat_map regexp.run] in Hx.
  by destruct Hx as [<-|[]].
Qed.

(** An instance is matched as a whole. *)
Lemma FindString_instance t q :
  instantiates t q → regexp.FindString (template_regexp t) q = q.
Proof.
  intros Hq. destruct (run_template_complete t q Hq) as [b' Hin].
  unfold regexp.FindString, regexp.doExecute. rewrite drop_0. cbn [Nat.eqb].
  assert (regexp.match_here (template_regexp t) (true, q) = Some []) as Hm.
  { unfold regexp.match_here.
    destruct (regexp.run (template_regexp t) (true, q)) as [|x xs] eqn:Hrun;
      [done|]. cbn [head fmap option_fmap option_map]. f_equal.
    apply (run_template_ends t q). rewrite Hrun. by left. }
  destruct q as [|c q]; cbn [regexp.find_from]; rewrite Hm; [done|].
  cbn [length Nat.add Nat.sub drop]. by rewrite take_ge by (simpl; lia).
Qed.

Lemma instance_not_empty t q :
  existsb is_param t = true → instantiates t q → q ≠ [].
Proof.
  revert q. induction t as [|[l|n] t IH]; intros q; [done|..];
    cbn [existsb is_param instantiates orb].
  - intros Hex (l' & q' & -> & _ & Hq'). intros [_ ->]%app_eq_nil.
    by apply (IH [] Hex).
  - intros _ (v & q' & -> & Hv & _). intros [-> _]%app_eq_nil. done.
Qed.

Lemma pattern_key_matches_instance t q :
  plain_template t = true → existsb is_param t = true →
  regexp.within_limits (str "(?i)" ++ str "^" ++ render_key t ++ str "$") = true →
  instantiates t q →
  key_matches (route_key (render t)) q.
Proof.
  intros Ht Hex Hw Hq. rewrite (route_key_render t Ht Hex).
  exists (template_regexp t). split; [by apply pattern_key_compiles|].
  rewrite (FindString_instance t q Hq). by apply (instance_not_empty t).
Qed.

(** X10: the key of a route with placeholders matches a path exactly when the
    path is the route with each text kept up to the case of its letters and
    each placeholder replaced by one or more name runes; the whole path is
    matched.  The route is made of plain runes and well-formed placeholders
    and is of a size the model of [regexp] covers. *)
Theorem pattern_key_matches_exactly_instances (t : template) (q : gostring) :
  plain_template t = true →
  existsb is_param t = true →
  regexp.within_limits (str "(?i)" ++ str "^" ++ render_key t ++ str "$") = true →
  key_matches (route_key (render t)) q ↔ instantiates t q.
Proof.
  intros Ht Hex Hw. split; [|by apply pattern_key_matches_instance].
  rewrite (route_key_render t Ht Hex). intros (re & Hre & Hf).
  rewrite (pattern_key_compiles t Ht Hw) in Hre. injection Hre as <-.
  destruct (FindString_anchored (template_regexp t) q (run_template_anchored t) Hf)
    as [x Hx].
  by apply run_template_sound in Hx.
Qed.

Lemma pattern_key_matches_exactly_instances_witness :
  key_matches (route_key (str "/users/{id}/posts")) (str "/Users/42/POSTS") ∧
  ¬ key_matches (route_key (str "/users/{id}/posts")) (str "/users/42/posts/7").
Proof.
  pose proof (pattern_key_matches_exactly_instances
                [Text (str "/users/"); Param (str "id"); Text (str "/posts")])
    as H.
  split.
  - apply (H (str "/Users/42/POSTS") eq_refl eq_refl eq_refl).
    exists (str "/Users/"), (str "42/POSTS"). split; [reflexivity|].
    split; [repeat constructor|].
    exists (str "42"), (str "/POSTS"). split; [reflexivity|].
    split; [reflexivity|].
    exists (str "/POSTS"), []. split; [reflexivity|].
    split; [repeat constructor|reflexivity].
  - intros Hk. apply (H (str "/users/42/posts/7") eq_refl eq_refl eq_refl) in Hk.
    apply instantiates_covers in Hk. apply covers_length in Hk.
    vm_compute in Hk. discriminate.
Defined.

(** X11: take a route with placeholders, made of plain runes and
    well-formed placeholders and of a size the model of [regexp] covers.  A
    request whose path is an instance of the route, and is not itself a key
    of the method, is answered by the route's handler whenever the keys
    iterated before the route's key reject the path, whatever the keys after
    it. *)
Theorem pattern_route_answers_instance (r : Router) (rm : RequestHandlerMap)
    (method : gostring) (t : template) (handler : RequestHandler)
    (q : gostring) (pre rest : list gostring) :
  routes r = Some rm →
  plain_template t = true →
  existsb is_param t = true →
  regexp.within_limits (str "(?i)" ++ str "^" ++ render_key t ++ str "$") = true →
  instantiates t q →
  Forall (fun k => key_rejects k q) pre →
  ∃ r', RegisterRoute r method (render t) handler = Ret r' ∧
        (route_entry r' method q = None →
         findReqHandler r' (pre ++ route_key (render t) :: rest)
           (mkRequest method q) = Ret (handler, None)).
Proof.
  intros Hrm Ht Hex Hw Hq Hpre. eexists.
  split; [exact (RegisterRoute_key _ _ _ _ _ Hrm)|].
  unfold route_entry, findReqHandler. cbn [Method Path].
  rewrite method_table_store. intros ->.
  assert (matchRoutePattern (pre ++ route_key (render t) :: rest) q =
            Ret (route_key (render t), true)) as ->.
  { induction Hpre as [|k' pre Hk' _ IH]; cbn [app].
    - apply matchRoutePattern_matched. by apply pattern_key_matches_instance.
    - by rewrite (matchRoutePattern_rejected _ _ _ Hk'). }
  cbn [bind snd fst]. by rewrite lookup_insert_eq.
Qed.

Lemma pattern_route_answers_instance_witness :
  ∃ r', RegisterRoute users_router GET (str "/posts/{slug}") handlerA = Ret r' ∧
        findReqHandler r'
          [str "^/users/([a-z0-9-_]+)$"; str "^/posts/([a-z0-9-_]+)$";
           str "/users/me"] (mkRequest GET (str "/Posts/Hello-World_1")) =
          Ret (handlerA, None).
Proof.
  destruct (pattern_route_answers_instance users_router _ GET
              [Text (str "/posts/"); Param (str "slug")] handlerA
              (str "/Posts/Hello-World_1")
              [str "^/users/([a-z0-9-_]+)$"] [str "/users/me"]
              eq_refl eq_refl eq_refl eq_refl)
    as (r' & Hreg & Hfind).
  - exists (str "/Posts/"), (str "Hello-World_1"). split; [reflexivity|].
    split; [repeat constructor|].
    exists (str "Hello-World_1"), []. split; [reflexivity|].
    split; reflexivity.
  - constructor; [|constructor]. eexists. split; vm_compute; reflexivity.
  - exists r'. split; [exact Hreg|]. apply Hfind.
    clear Hfind. vm_compute in Hreg. injection Hreg as <-. vm_compute. reflexivity.
Defined.

(** ** What a literal key matches *)

Lemma strip_fold_prefix_spec l q rest :
  strip_fold_prefix l q = Some rest ↔ ∃ l', q = l' ++ rest ∧ fold_equal l l'.
Proof.
  revert q. induction l as [|c l IH]; intros q.
  - cbn [strip_fold_prefix]. split.
    + intros [= ->]. exists []. split; [done|constructor].
    + intros (l' & -> & Hl). inversion Hl. done.
  - destruct q as [|c' q]; cbn [strip_fold_prefix].
    + split; [done|]. intros (l' & Hq & Hl). inversion Hl; subst. done.
    + destruct (regexp.literal_matches c true c') eqn:Hc.
      * rewrite IH. split.
        -- intros (l' & -> & Hl). exists (c' :: l'). split; [done|].
           by constructor.
        -- intros (l' & Hq & Hl). inversion Hl as [|? c2 ? l2 Hc2 Hl2]; subst.
           injection Hq as -> ->. by exists l2.
      * split; [done|]. intros (l' & Hq & Hl).
        inversion Hl as [|? c2 ? l2 Hc2 Hl2]; subst.
        injection Hq as -> ->. congruence.
Qed.

Lemma find_from_text_Some l b q i rest :
  regexp.find_from (text_regexp l) b q = Some (i, rest) →
  ∃ pre l', q = pre ++ l' ++ rest ∧ length pre = i ∧ fold_equal l l'.
Proof.
  revert b i. induction q as [|c q IH]; intros b i;
    cbn [regexp.find_from]; rewrite match_here_text.
  - destruct (strip_fold_prefix l []) as [rest'|] eqn:Hs; [|done].
    intros [= <- <-]. apply strip_fold_prefix_spec in Hs as (l' & Hq & Hl).
    by exists [], l'.
  - destruct (strip_fold_prefix l (c :: q)) as [rest'|] eqn:Hs.
    + intros [= <- <-]. apply strip_fold_prefix_spec in Hs as (l' & Hq & Hl).
      by exists [], l'.
    + destruct (regexp.find_from (text_regexp l) false q) as [[i' rest']|] eqn:Hf;
        [|done].
      cbn [fmap option_fmap option_map fst snd]. intros [= <- <-].
      destruct (IH false i' Hf) as (pre & l' & -> & Hlen & Hl).
      exists (c :: pre), l'. split; [done|]. split; [simpl; lia|done].
Qed.

Lemma find_from_text_fold l l' b pre post :
  fold_equal l l' →
  ∃ i rest, regexp.find_from (text_regexp l) b (pre ++ l' ++ post) = Some (i, rest) ∧
            length (pre ++ l' ++ post) = (i + length l + length rest)%nat.
Proof.
  intros Hl.
  assert (strip_fold_prefix l (l' ++ post) = Some post) as Hs
    by (apply strip_fold_prefix_spec; by exists l').
  assert (length l = length l') as Hlen by (by eapply Forall2_length).
  revert b. induction pre as [|c pre IH]; intros b.
  - exists 0%nat, post. cbn [app].
    destruct (l' ++ post) as [|c q] eqn:Hq; cbn [regexp.find_from];
      rewrite match_here_text, Hs; (split; [done|]);
      rewrite <- Hq, length_app; lia.
  - cbn [app regexp.find_from]. rewrite match_here_text.
    destruct (strip_fold_prefix l (c :: pre ++ l' ++ post)) as [rest|] eqn:Hs'.
    + exists 0%nat, rest. split; [done|].
      apply strip_fold_prefix_length in Hs'. rewrite Hs'. lia.
    + destruct (IH false) as (i & rest & -> & Hlen').
      exists (S i), rest. split; [done|]. simpl. lia.
Qed.

Lemma text_key_matches_occurrence l q :
  forallb plain_rune l = true → l ≠ [] →
  regexp.within_limits (str "(?i)" ++ l) = true →
  occurs_folded l q → key_matches l q.
Proof.
  intros Hp Hne Hw (pre & l' & post & -> & Hl).
  exists (text_regexp l). split; [by apply text_key_compiles|].
  unfold regexp.FindString, regexp.doExecute. rewrite drop_0.
  destruct (find_from_text_fold l l' (Nat.eqb 0 0) pre post Hl)
    as (i & rest & -> & Hlen).
  intros Hnil. apply (f_equal length) in Hnil.
  rewrite length_take, length_drop in Hnil. destruct l; [done|].
  simpl in Hnil, Hlen. lia.
Qed.

(** X12: a key without placeholder is compiled without anchors and without
    regard to case, so in the fallback loop it matches every path that holds
    the key's text anywhere, in any letter case, and no other path.  The key
    is made of plain runes, is not empty and is of a size the model of
    [regexp] covers. *)
Theorem literal_key_matches_any_occurrence (l q : gostring) :
  forallb plain_rune l = true →
  l ≠ [] →
  regexp.within_limits (str "(?i)" ++ l) = true →
  route_key l = l ∧ (key_matches l q ↔ occurs_folded l q).
Proof.
  intros Hp Hne Hw. split.
  { unfold route_key. by rewrite (plain_text_no_placeholder l Hp). }
  split; [|by apply text_key_matches_occurrence].
  intros (re & Hre & Hf). rewrite (text_key_compiles l Hp Hw) in Hre.
  injection Hre as <-. unfold regexp.FindString, regexp.doExecute in Hf.
  rewrite drop_0 in Hf.
  destruct (regexp.find_from (text_regexp l) (Nat.eqb 0 0) q)
    as [[i rest]|] eqn:Hfind; [|done].
  apply find_from_text_Some in Hfind as (pre & l' & -> & _ & Hl).
  by exists pre, l', rest.
Qed.

Lemma literal_key_matches_any_occurrence_witness :
  key_matches (str "/users") (str "/api/USERS/42") ∧
  ¬ key_matches (str "/users") (str "/user/s").
Proof.
  destruct (literal_key_matches_any_occurrence (str "/users") (str "/api/USERS/42")
              eq_refl ltac:(discriminate) eq_refl) as [_ H1].
  split.
  - apply H1. exists (str "/api"), (str "/USERS"), (str "/42").
    split; [reflexivity|repeat constructor].
  - intros (re & Hre & Hf). clear H1.
    vm_compute in Hre. injection Hre as <-. apply Hf. vm_compute. reflexivity.
Defined.

(** ** Placeholder names *)

Lemma render_key_forget_names t :
  render_key (forget_names t) = render_key t.
Proof.
  induction t as [|[l|n] t IH]; [done|..]; cbn [forget_names map render_key];
    fold (forget_names t); by rewrite IH.
Qed.

Lemma existsb_is_param_forget_names t :
  existsb is_param (forget_names t) = existsb is_param t.
Proof.
  induction t as [|[l|n] t IH]; [done|..]; cbn [forget_names map existsb];
    fold (forget_names t); by rewrite IH.
Qed.

Lemma render_no_param t :
  existsb is_param t = false → render t = render_key t.
Proof.
  induction t as [|[l|n] t IH]; [done|..]; cbn [existsb is_param orb]; [|done].
  intros Ht. cbn [render render_key render_piece key_piece]. by rewrite IH.
Qed.

Lemma render_key_plain t :
  plain_template t = true → existsb is_param t = false →
  forallb plain_rune (render_key t) = true.
Proof.
  induction t as [|[l|n] t IH]; [done|..];
    cbn [plain_template forallb existsb is_param orb]; [|done].
  intros [Hl Ht]%andb_true_iff Hex. cbn [render_key key_piece].
  rewrite forallb_app, Hl. by apply IH.
Qed.

Lemma route_key_template t :
  plain_template t = true →
  route_key (render t) =
    if existsb is_param t then str "^" ++ render_key t ++ str "$"
    else render_key t.
Proof.
  intros Ht. destruct (existsb is_param t) eqn:Hex.
  - by apply route_key_render.
  - rewrite (render_no_param t Hex). unfold route_key.
    by rewrite (plain_text_no_placeholder _ (render_key_plain t Ht Hex)).
Qed.

Lemma substitute_no_lbrace l s :
  no_lbrace l = true → substitute 0 (l ++ s) = l ++ substitute 0 s.
Proof.
  unfold no_lbrace. induction l as [|c l IH]; [done|]. cbn [forallb].
  intros [Hc Hl]%andb_true_iff. apply negb_true_iff in Hc.
  cbn [app substitute placeholder_at]. rewrite Hc. by rewrite IH.
Qed.

Lemma replace_placeholders_named t :
  named_template t = true → replace_placeholders (render t) = render_key t.
Proof.
  unfold replace_placeholders. induction t as [|[l|n] t IH]; [done|..];
    cbn [named_template forallb]; intros [Hp Ht]%andb_true_iff;
    cbn [render render_piece render_key key_piece].
  - by rewrite substitute_no_lbrace, IH.
  - change ((123 :: n ++ [125]) ++ render t)
      with (123 :: (n ++ [125]) ++ render t).
    rewrite <- app_assoc. cbn [app].
    rewrite (substitute_first _ 0%nat (render t)).
    + by rewrite take_0, IH.
    + cbn [first_placeholder]. by rewrite (placeholder_at_span n (render t) Hp).
Qed.

Lemma has_placeholder_named t :
  named_template t = true → existsb is_param t = true →
  has_placeholder (render t) = true.
Proof.
  induction t as [|[l|n] t IH]; [done|..];
    cbn [named_template forallb existsb is_param];
    intros [Hp Ht]%andb_true_iff Hex; cbn [render render_piece].
  - apply has_placeholder_app. by apply IH.
  - change ((123 :: n ++ [125]) ++ render t)
      with (123 :: (n ++ [125]) ++ render t).
    rewrite <- app_assoc. apply (has_placeholder_span [] n (render t) Hp).
Qed.

Lemma no_lbrace_no_placeholder l :
  no_lbrace l = true → has_placeholder l = false.
Proof.
  unfold no_lbrace. induction l as [|c l IH]; [done|]. cbn [forallb].
  intros [Hc Hl]%andb_true_iff. apply negb_true_iff in Hc.
  cbn [has_placeholder]. unfold starts_placeholder. cbn [placeholder_at].
  by rewrite Hc, IH.
Qed.

Lemma render_no_param_no_lbrace t :
  named_template t = true → existsb is_param t = false →
  no_lbrace (render t) = true.
Proof.
  induction t as [|[l|n] t IH]; [done|..];
    cbn [named_template forallb existsb is_param orb]; [|done].
  intros [Hl Ht]%andb_true_iff Hex. cbn [render render_piece].
  unfold no_lbrace in *. rewrite forallb_app, Hl. by apply IH.
Qed.

Lemma route_key_named t :
  named_template t = true →
  route_key (render t) =
    if existsb is_param t then str "^" ++ render_key t ++ str "$"
    else render t.
Proof.
  intros Ht. unfold route_key. destruct (existsb is_param t) eqn:Hex.
  - by rewrite (has_placeholder_named t Ht Hex), (replace_placeholders_named t Ht).
  - by rewrite (no_lbrace_no_placeholder _ (render_no_param_no_lbrace t Ht Hex)).
Qed.

Lemma render_forget_names_no_param t :
  existsb is_param t = false → render (forget_names t) = render t.
Proof.
  induction t as [|[l|n] t IH]; [done|..]; cbn [existsb is_param orb]; [|done].
  intros Hex. cbn [forget_names map render render_piece].
  fold (forget_names t). by rewrite IH.
Qed.

(** X13: the key keeps nothing of the names of the placeholders.  Two routes
    whose texts hold no opening brace and whose placeholders have names the
    expression accepts, and which differ only in those names, are stored by
    [RegisterRoute] under one and the same key, so under one method the
    later registration replaces the earlier one. *)
Theorem placeholder_names_leave_no_trace (r : Router) (rm : RequestHandlerMap)
    (method : gostring) (t1 t2 : template) (h1 h2 : RequestHandler) :
  routes r = Some rm →
  named_template t1 = true →
  named_template t2 = true →
  forget_names t1 = forget_names t2 →
  ∃ key,
    RegisterRoute r method (render t1) h1 =
      Ret {| routes := Some (store rm method key (entry h1)) |} ∧
    RegisterRoute r method (render t2) h2 =
      Ret {| routes := Some (store rm method key (entry h2)) |} ∧
    (do r1 <- RegisterRoute r method (render t1) h1;
     RegisterRoute r1 method (render t2) h2) =
      Ret {| routes := Some (store rm method key (entry h2)) |}.
Proof.
  intros Hrm Ht1 Ht2 Hf.
  assert (route_key (render t1) = route_key (render t2)) as Hk.
  { rewrite (route_key_named t1 Ht1), (route_key_named t2 Ht2).
    rewrite <- (render_key_forget_names t1), <- (render_key_forget_names t2).
    rewrite <- (existsb_is_param_forget_names t1),
      <- (existsb_is_param_forget_names t2), Hf.
    destruct (existsb is_param (forget_names t2)) eqn:Hex; [done|].
    rewrite <- (render_forget_names_no_param t1), <- (render_forget_names_no_param t2).
    - by rewrite Hf.
    - by rewrite <- existsb_is_param_forget_names.
    - by rewrite <- existsb_is_param_forget_names, Hf. }
  exists (route_key (render t2)).
  rewrite !(RegisterRoute_key _ _ _ _ _ Hrm), Hk.
  split; [done|]. split; [done|]. cbn [bind].
  rewrite (RegisterRoute_key _ (store rm method (route_key (render t2)) (entry h1)))
    by reflexivity.
  by rewrite store_store.
Qed.

Lemma placeholder_names_leave_no_trace_witness :
  ∃ key,
    RegisterRoute NewRouter GET (str "/files/{id}.json") handlerA =
      Ret {| routes := Some (store ∅ GET key (entry handlerA)) |} ∧
    RegisterRoute NewRouter GET (str "/files/{name}.json") handlerB =
      Ret {| routes := Some (store ∅ GET key (entry handlerB)) |} ∧
    (do r1 <- RegisterRoute NewRouter GET (str "/files/{id}.json") handlerA;
     RegisterRoute r1 GET (str "/files/{name}.json") handlerB) =
      Ret {| routes := Some (store ∅ GET key (entry handlerB)) |}.
Proof.
  exact (placeholder_names_leave_no_trace NewRouter ∅ GET
           [Text (str "/files/"); Param (str "id"); Text (str ".json")]
           [Text (str "/files/"); Param (str "name"); Text (str ".json")]
           handlerA handlerB eq_refl eq_refl eq_refl eq_refl).
Defined.

(** ** Routers of plain routes *)

Lemma plain_route_key_compiles x :
  plain_route x → compiles (route_key (r_path x)).
Proof.
  intros (t & Hp & Ht & Hw). rewrite Hp in Hw |- *.
  rewrite (route_key_template t Ht) in Hw |- *.
  destruct (existsb is_param t) eqn:Hex.
  - exists (template_regexp t). by apply pattern_key_compiles.
  - exists (text_regexp (render_key t)).
    apply text_key_compiles; [by apply render_key_plain|done].
Qed.

Lemma last_registered_Some rs m k h :
  last_registered rs m k = Some h →
  ∃ x, x ∈ rs ∧ r_method x = m ∧ route_key (r_path x) = k ∧ r_handler x = h.
Proof.
  induction rs as [|x rs IH]; [done|]. cbn [last_registered].
  destruct (last_registered rs m k) as [h'|].
  - intros [= <-]. destruct (IH eq_refl) as (y & Hy & ?).
    exists y. split; [by apply list_elem_of_further|done].
  - destruct (decide _) as [[Hm Hk]|]; [|done]. intros [= <-].
    exists x. split; [apply list_elem_of_here|done].
Qed.

(** X14: a router set up with plain routes only never panics when it resolves
    a request and never reports an error: every key of its tables is a valid
    expression.  The handler it returns is the not-found handler or the
    handler of a registration of the request's method. *)
Theorem plain_routes_never_panic (rs : list route) :
  Forall plain_route rs →
  ∃ r, register_all NewRouter rs = Ret r ∧
       ∀ req order,
         (∀ table, method_table r (Method req) = Some table → yields table order) →
         ∃ h, findReqHandler r order req = Ret (h, None) ∧
              (h = routeNotFoundHandler ∨
               ∃ x, x ∈ rs ∧ r_method x = Method req ∧ h = r_handler x).
Proof.
  intros Hplain.
  destruct (register_all_entries rs NewRouter ∅ eq_refl)
    as (r & rm & Hreg & Hrm & Hent).
  exists r. split; [exact Hreg|]. intros req order Hy.
  assert (∀ k pkg, route_entry r (Method req) k = Some pkg →
            ∃ x, x ∈ rs ∧ r_method x = Method req ∧
                 route_key (r_path x) = k ∧ pkg = entry (r_handler x)) as Hsrc.
  { intros k pkg. rewrite Hent.
    destruct (last_registered rs (Method req) k) as [h|] eqn:Hl.
    - intros [= <-]. apply last_registered_Some in Hl as (x & ? & ? & ? & <-).
      by exists x.
    - unfold route_entry, method_table. cbn [routes NewRouter].
      by rewrite lookup_empty. }
  destruct (method_table r (Method req)) as [table|] eqn:Htab.
  - specialize (Hy table eq_refl).
    assert (Forall compiles order) as Hc.
    { apply Forall_forall. intros k Hk.
      destruct (yields_elem_of _ _ _ Hy Hk) as [pkg Hpkg].
      destruct (Hsrc k pkg) as (x & Hx & _ & <- & _).
      { unfold route_entry. by rewrite Htab. }
      apply plain_route_key_compiles. by apply (proj1 (Forall_forall _ _) Hplain). }
    destruct (findReqHandler_returns r order req Hc) as [h Hh].
    exists h. split; [exact Hh|].
    destruct (findReqHandler_source r order req table h None Htab Hy Hh)
      as [->|(k & pkg & Hk & ->)]; [by left|]. right.
    destruct (Hsrc k pkg) as (x & Hx & Hm & _ & ->).
    { unfold route_entry. by rewrite Htab. }
    by exists x.
  - exists routeNotFoundHandler. split; [|by left].
    unfold findReqHandler. by rewrite Htab.
Qed.

Lemma plain_routes_never_panic_witness :
  ∃ r, register_all NewRouter
         [mkRoute GET (str "/users/{id}") handlerB;
          mkRoute GET (str "/users/me") handlerA] = Ret r ∧
       ∃ h, findReqHandler r (some_order r GET) (mkRequest GET (str "/users/7")) =
              Ret (h, None).
Proof.
  destruct (plain_routes_never_panic
              [mkRoute GET (str "/users/{id}") handlerB;
               mkRoute GET (str "/users/me") handlerA]) as (r & Hreg & Hall).
  - constructor; [|constructor; [|constructor]].
    + exists [Text (str "/users/"); Param (str "id")]. by vm_compute.
    + exists [Text (str "/users/me")]. by vm_compute.
  - exists r. split; [exact Hreg|].
    destruct (Hall (mkRequest GET (str "/users/7")) (some_order r GET))
      as (h & Hh & _).
    + intros table Htab. unfold some_order. cbn [Method] in Htab.
      rewrite Htab. unfold yields. reflexivity.
    + by exists h.
Defined.

(** ** The scanning [RegisterRoute]: keys and malformed paths *)

Lemma parse_render_key_texts t cur s :
  plain_texts t = true →
  regexp.parse true [] [] cur (regexp.Expr false) (render_key t ++ s) =
    regexp.parse true [] [] (rev (template_items t) ++ cur)
      (regexp.Expr false) s.
Proof.
  revert cur. induction t as [|p t IH]; intros cur Ht; [done|].
  cbn [plain_texts forallb] in Ht. apply andb_true_iff in Ht as [Hp Ht].
  cbn [render_key template_items flat_map]. rewrite <- app_assoc.
  destruct p as [l|n]; cbn [key_piece piece_items].
  - rewrite parse_plain_text by (done || by right).
    rewrite (IH _ Ht). unfold template_items.
    by rewrite rev_app_distr, <- app_assoc.
  - rewrite parse_capture_group, (IH _ Ht). unfold template_items.
    rewrite rev_app_distr. cbn [rev app]. by rewrite <- app_assoc.
Qed.

(** The names of the placeholders have no part in the key, so nothing is
    asked of them. *)
Lemma anchored_key_compiles t :
  plain_texts t = true →
  regexp.within_limits (str "(?i)" ++ str "^" ++ render_key t ++ str "$") = true →
  regexp.Compile (str "(?i)" ++ str "^" ++ render_key t ++ str "$") =
    regexp.COk (template_regexp t).
Proof.
  intros Ht Hw. rewrite (Compile_folded _ Hw).
  change (regexp.parse true [] [] [] (regexp.Expr false)
            (str "^" ++ render_key t ++ str "$"))
    with (regexp.parse true [] [] [regexp.BeginText] (regexp.Expr false)
            (render_key t ++ str "$")).
  rewrite (parse_render_key_texts _ _ _ Ht).
  change (regexp.parse true [] []
            (rev (template_items t) ++ [regexp.BeginText])
            (regexp.Expr false) (str "$"))
    with (regexp.COk (regexp.finish_branch
            (regexp.EndText :: rev (template_items t) ++ [regexp.BeginText]))).
  f_equal.
  change (regexp.EndText :: rev (template_items t) ++ [regexp.BeginText])
    with ([regexp.EndText] ++ rev (template_items t) ++ [regexp.BeginText]).
  replace ([regexp.EndText] ++ rev (template_items t) ++ [regexp.BeginText])
    with (rev (regexp.BeginText :: template_items t ++ [regexp.EndText])).
  - rewrite finish_branch_rev. cbn [foldr]. unfold template_regexp.
    by rewrite foldr_app.
  - cbn [rev]. rewrite rev_app_distr. reflexivity.
Qed.

Lemma anchored_key_matches t q :
  plain_texts t = true →
  regexp.within_limits (str "(?i)" ++ str "^" ++ render_key t ++ str "$") = true →
  key_matches (str "^" ++ render_key t ++ str "$") q ↔ instantiates t q ∧ q ≠ [].
Proof.
  intros Ht Hw. split.
  - intros (re & Hre & Hf).
    rewrite (anchored_key_compiles t Ht Hw) in Hre. injection Hre as <-.
    split.
    + destruct (FindString_anchored (template_regexp t) q
                  (run_template_anchored t) Hf) as [x Hx].
      by apply run_template_sound in Hx.
    + intros ->. by rewrite FindString_empty_path in Hf.
  - intros [Hq Hne]. exists (template_regexp t).
    split; [by apply anchored_key_compiles|].
    by rewrite (FindString_instance t q Hq).
Qed.

(** X15: the scanning version anchors every key, also that of a route
    without placeholder.  A route whose texts are plain runes without braces
    and whose names, whatever else they hold, are without braces is stored
    under its text, with the capture group for each placeholder, between [^]
    and [$]; and this key matches a path exactly when the whole path, not
    empty, is the route with each text kept up to case and each placeholder
    replaced by one or more name runes. *)
Theorem scan_key_matches_exactly_instances (r : ParamScan.Router)
    (rm : gmap gostring (gmap gostring ParamScan.RequestHandlerPackage))
    (method : gostring) (t : template) (handler : RequestHandler) :
  ParamScan.routes r = Some rm →
  plain_texts t = true →
  ParamScan.well_formed t = true →
  regexp.within_limits (str "(?i)" ++ str "^" ++ render_key t ++ str "$") = true →
  ∃ pkg,
    ParamScan.RegisterRoute r method (render t) handler =
      Ret {| ParamScan.routes :=
               Some (ParamScan.store rm method
                       (str "^" ++ render_key t ++ str "$") pkg) |} ∧
    ParamScan.Handler pkg = handler ∧
    ∀ q, key_matches (str "^" ++ render_key t ++ str "$") q ↔
         instantiates t q ∧ q ≠ [].
Proof.
  intros Hrm Ht Hwf Hw. eexists.
  split; [exact (RegisterRoute_template r rm method t handler Hrm Hwf)|].
  split; [reflexivity|]. intros q. by apply anchored_key_matches.
Qed.

Lemma scan_key_matches_exactly_instances_witness :
  ∃ pkg,
    ParamScan.RegisterRoute ParamScan.NewRouter GET (str "/files/{file.name}")
      handlerA =
      Ret {| ParamScan.routes :=
               Some (ParamScan.store ∅ GET (str "^/files/([a-z0-9-_]+)$") pkg) |} ∧
    key_matches (str "^/files/([a-z0-9-_]+)$") (str "/Files/Report-1") ∧
    ¬ key_matches (str "^/files/([a-z0-9-_]+)$") (str "/files/report/1").
Proof.
  destruct (scan_key_matches_exactly_instances ParamScan.NewRouter ∅ GET
              [Text (str "/files/"); Param (str "file.name")] handlerA
              eq_refl eq_refl eq_refl eq_refl)
    as (pkg & Hreg & _ & Hkey).
  exists pkg. split; [exact Hreg|]. split.
  - apply Hkey. split; [|discriminate].
    exists (str "/Files/"), (str "Report-1"). split; [reflexivity|].
    split; [repeat constructor|].
    exists (str "Report-1"), []. split; [reflexivity|]. split; reflexivity.
  - intros [Hq _]%Hkey. apply instantiates_covers in Hq.
    apply covers_length in Hq. vm_compute in Hq. discriminate.
Defined.

Lemma slice_Ret_or_Panic s lo hi :
  (∃ x, ParamScan.slice s lo hi = Ret x) ∨ ParamScan.slice s lo hi = Panic.
Proof. unfold ParamScan.slice. destruct (_ && _); [left; by eexists|by right]. Qed.

Lemma build_loop_Ret_or_Panic path ps b :
  (∃ b', ParamScan.build_loop path ps b = Ret b') ∨
  ParamScan.build_loop path ps b = Panic.
Proof.
  revert b. induction ps as [|p ps IH]; intros b; cbn [ParamScan.build_loop].
  - left. by eexists.
  - destruct (slice_Ret_or_Panic path (ParamScan.lastPos b) (ParamScan.start p))
      as [[x ->]| ->]; [|by right]. cbn [bind]. apply IH.
Qed.

Lemma build_loop_app path ps1 ps2 b :
  ParamScan.build_loop path (ps1 ++ ps2) b =
    (do b' <- ParamScan.build_loop path ps1 b; ParamScan.build_loop path ps2 b').
Proof.
  revert b. induction ps1 as [|p ps1 IH]; intros b; [done|].
  cbn [app ParamScan.build_loop].
  destruct (ParamScan.slice path (ParamScan.lastPos b) (ParamScan.start p));
    cbn [bind]; [apply IH|done..].
Qed.

Lemma scan_step_paramList st i c :
  ∃ ps, ParamScan.paramList (ParamScan.scan_step st i c) =
          ParamScan.paramList st ++ ps.
Proof.
  unfold ParamScan.scan_step, ParamScan.scan_switch.
  destruct (c =? 47); [|destruct (c =? 123); [|destruct (c =? 125)]];
    cbn [ParamScan.found ParamScan.paramList];
    destruct (_ && _); cbn [ParamScan.paramList];
    (by exists [] ; rewrite app_nil_r) || by eexists.
Qed.

Lemma scan_loop_paramList st i s :
  ∃ ps, ParamScan.paramList (ParamScan.scan_loop st i s) =
          ParamScan.paramList st ++ ps.
Proof.
  revert st i. induction s as [|c s IH]; intros st i; cbn [ParamScan.scan_loop].
  - exists []. by rewrite app_nil_r.
  - destruct (IH (ParamScan.scan_step st i c) (S i)) as [ps2 ->].
    destruct (scan_step_paramList st i c) as [ps1 ->].
    exists (ps1 ++ ps2). by rewrite app_assoc.
Qed.

Lemma scan_step_foundAt st i c :
  (ParamScan.foundAt st ≤ i)%nat →
  (ParamScan.foundAt (ParamScan.scan_step st i c) ≤ i)%nat.
Proof.
  unfold ParamScan.scan_step, ParamScan.scan_switch. intros Hle.
  destruct (c =? 47); [|destruct (c =? 123); [|destruct (c =? 125)]];
    cbn [ParamScan.found ParamScan.foundAt];
    destruct (_ && _); cbn [ParamScan.foundAt]; lia.
Qed.

Lemma scan_loop_foundAt st i s :
  (ParamScan.foundAt st ≤ i)%nat →
  (ParamScan.foundAt (ParamScan.scan_loop st i s) ≤ i + length s)%nat.
Proof.
  revert st i. induction s as [|c s IH]; intros st i Hle; cbn [ParamScan.scan_loop length].
  - lia.
  - pose proof (scan_step_foundAt st i c Hle).
    pose proof (IH (ParamScan.scan_step st i c) (S i)). lia.
Qed.

Lemma scan_step_closing st i :
  ParamScan.scan_step st i 125 =
    {| ParamScan.paramList := ParamScan.paramList st ++
         [{| ParamScan.start := ParamScan.foundAt st; ParamScan.end_ := i;
             ParamScan.pos := ParamScan.pathDepth st;
             ParamScan.name := ParamScan.paramNameBuilder st |}];
       ParamScan.pathDepth := ParamScan.pathDepth st;
       ParamScan.found := false; ParamScan.foundAt := ParamScan.foundAt st;
       ParamScan.paramNameBuilder := [] |}.
Proof. reflexivity. Qed.

(** X16: a second closing brace with no opening brace since the first makes
    the scanning [RegisterRoute] panic, whatever the rest of the path: the
    second loop slices the path from after the first closing brace back to
    the last opening brace (or the start of the path). *)
Theorem scan_second_closing_brace_panics (r : ParamScan.Router)
    (rm : gmap gostring (gmap gostring ParamScan.RequestHandlerPackage))
    (method : gostring) (a b c : gostring) (handler : RequestHandler) :
  ParamScan.routes r = Some rm →
  brace_free b = true →
  ParamScan.RegisterRoute r method (a ++ [125] ++ b ++ [125] ++ c) handler = Panic.
Proof.
  intros Hrm Hb. unfold ParamScan.RegisterRoute. rewrite Hrm. cbv zeta.
  set (path := a ++ [125] ++ b ++ [125] ++ c).
  set (sa := ParamScan.scan_loop ParamScan.scan_init 0 a).
  assert (ParamScan.foundAt sa ≤ length a)%nat as Hfa.
  { apply (scan_loop_foundAt ParamScan.scan_init 0 a). cbn. lia. }
  assert (∃ ps,
    ParamScan.paramList (ParamScan.scan_loop ParamScan.scan_init 0 path) =
      ParamScan.paramList sa ++
      [{| ParamScan.start := ParamScan.foundAt sa; ParamScan.end_ := length a;
          ParamScan.pos := ParamScan.pathDepth sa;
          ParamScan.name := ParamScan.paramNameBuilder sa |}] ++
      [{| ParamScan.start := ParamScan.foundAt sa;
          ParamScan.end_ := (S (length a) + length b)%nat;
          ParamScan.pos := (ParamScan.pathDepth sa + count_slash b)%Z;
          ParamScan.name := [] |}] ++ ps) as [ps ->].
  { unfold path. rewrite scan_loop_app. fold sa. cbn [app ParamScan.scan_loop Nat.add].
    rewrite scan_step_closing, scan_loop_app.
    rewrite (scan_text _ _ b Hb) by reflexivity.
    cbn [ParamScan.paramList ParamScan.pathDepth ParamScan.foundAt
         ParamScan.paramNameBuilder ParamScan.scan_loop app].
    rewrite scan_step_closing.
    cbn [ParamScan.paramList ParamScan.pathDepth ParamScan.foundAt
         ParamScan.paramNameBuilder].
    match goal with
    | |- ∃ ps, ParamScan.paramList (ParamScan.scan_loop ?st ?i c) = _ =>
        destruct (scan_loop_paramList st i c) as [ps ->]
    end.
    exists ps. cbn [ParamScan.paramList]. by rewrite <- !app_assoc. }
  rewrite build_loop_app.
  destruct (build_loop_Ret_or_Panic path (ParamScan.paramList sa)
              {| ParamScan.lastPos := 0; ParamScan.pathBuilder := [];
                 ParamScan.reqParamList := ∅ |}) as [[b1 ->]| ->]; [|done].
  cbn [bind app ParamScan.build_loop ParamScan.start ParamScan.end_].
  destruct (slice_Ret_or_Panic path (ParamScan.lastPos b1) (ParamScan.foundAt sa))
    as [[x ->]| ->]; [|done].
  cbn [bind ParamScan.lastPos]. unfold ParamScan.slice.
  destruct (Nat.leb_spec (S (length a)) (ParamScan.foundAt sa)); [lia|done].
Qed.

Lemma scan_second_closing_brace_panics_witness :
  ParamScan.RegisterRoute ParamScan.NewRouter GET (str "/users/{id}}") handlerA =
    Panic.
Proof.
  exact (scan_second_closing_brace_panics ParamScan.NewRouter ∅ GET
           (str "/users/{id") [] [] handlerA eq_refl eq_refl).
Defined.

Lemma slice_empty s : ParamScan.slice s 0 0 = Ret [].
Proof. unfold ParamScan.slice. cbn [Nat.leb andb Nat.sub take]. done. Qed.

(** X17: a closing brace that no opening brace precedes is taken for a
    placeholder that starts at the beginning of the path: the text before it
    is lost from the key, which holds a capture group in its place, and the
    parameter map gets an empty name at the depth of the brace. *)
Theorem scan_stray_closing_brace_drops_text (r : ParamScan.Router)
    (rm : gmap gostring (gmap gostring ParamScan.RequestHandlerPackage))
    (method : gostring) (a : gostring) (t : template) (handler : RequestHandler) :
  ParamScan.routes r = Some rm →
  brace_free a = true →
  ParamScan.well_formed t = true →
  ParamScan.RegisterRoute r method (a ++ [125] ++ render t) handler =
    Ret {| ParamScan.routes :=
             Some (ParamScan.store rm method
                     (str "^" ++ (capture_group ++ render_key t) ++ str "$")
                     {| ParamScan.Handler := handler;
                        ParamScan.ParamList :=
                          ParamScan.param_map
                            (ParamScan.params_of (S (length a)) (depth_after a) t)
                            {[depth_after a := []]} |}) |}.
Proof.
  intros Hrm Ha Hw. unfold ParamScan.RegisterRoute. rewrite Hrm. cbv zeta.
  rewrite scan_loop_app, (scan_text _ _ a Ha) by reflexivity.
  cbn [app ParamScan.scan_loop Nat.add]. rewrite scan_step_closing.
  cbn [ParamScan.paramList ParamScan.pathDepth ParamScan.foundAt
       ParamScan.paramNameBuilder ParamScan.scan_init app].
  match goal with
  | |- context [ParamScan.scan_loop ?st ?i (render t)] =>
      destruct (scan_template t st i Hw eq_refl eq_refl) as [fa ->]
  end.
  cbn [ParamScan.paramList ParamScan.pathDepth app ParamScan.build_loop
       ParamScan.lastPos ParamScan.start].
  rewrite slice_empty.
  cbn [bind ParamScan.end_ ParamScan.pos ParamScan.name ParamScan.pathBuilder
       ParamScan.reqParamList app].
  replace (-1 + count_slash a)%Z with (depth_after a) by (unfold depth_after; lia).
  destruct (build_template t (a ++ 125 :: render t) (a ++ [125]) []
              capture_group (<[depth_after a := []]> ∅) (depth_after a))
    as (b & Hb & Hlast & Hkey & Hmap).
  { by rewrite <- app_assoc. }
  rewrite length_app in Hb, Hmap. cbn [length] in Hb, Hmap.
  replace (length a + 1 + 0)%nat with (S (length a)) in Hb, Hmap by lia.
  replace (length a + 1)%nat with (S (length a)) in Hb by lia.
  rewrite Hb. cbn [bind]. rewrite (slice_to_end _ _ Hlast). cbn [bind].
  rewrite Hkey, Hmap. reflexivity.
Qed.

Lemma scan_stray_closing_brace_drops_text_witness :
  ∃ pkg,
    ParamScan.RegisterRoute ParamScan.NewRouter GET (str "/users}/posts") handlerA =
      Ret {| ParamScan.routes :=
               Some (ParamScan.store ∅ GET (str "^([a-z0-9-_]+)/posts$") pkg) |} ∧
    ParamScan.ParamList pkg !! 0%Z = Some [].
Proof.
  eexists. split.
  - exact (scan_stray_closing_brace_drops_text ParamScan.NewRouter ∅ GET
             (str "/users") [Text (str "/posts")] handlerA
             eq_refl eq_refl eq_refl).
  - reflexivity.
Defined.

(** X18: the two versions of [RegisterRoute] agree on the key of a route
    with placeholders (plain runes, well-formed placeholders); for a route
    without placeholder the version with [regexp] stores the path as it is
    and the scanning version stores it between [^] and [$]. *)
Theorem scan_and_regexp_keys_agree (r : Router) (rm : RequestHandlerMap)
    (r2 : ParamScan.Router)
    (rm2 : gmap gostring (gmap gostring ParamScan.RequestHandlerPackage))
    (method : gostring) (t : template) (handler : RequestHandler) :
  routes r = Some rm →
  ParamScan.routes r2 = Some rm2 →
  plain_template t = true →
  ParamScan.well_formed t = true →
  ∃ pkg,
    RegisterRoute r method (render t) handler =
      Ret {| routes := Some (store rm method (route_key (render t))
                               (entry handler)) |} ∧
    ParamScan.RegisterRoute r2 method (render t) handler =
      Ret {| ParamScan.routes :=
               Some (ParamScan.store rm2 method
                       (if existsb is_param t then route_key (render t)
                        else str "^" ++ route_key (render t) ++ str "$")
                       pkg) |}.
Proof.
  intros Hrm Hrm2 Ht Hw. eexists.
  split; [exact (RegisterRoute_key _ _ _ _ _ Hrm)|].
  rewrite (RegisterRoute_template r2 rm2 method t handler Hrm2 Hw).
  rewrite (route_key_template t Ht). by destruct (existsb is_param t).
Qed.

Lemma scan_and_regexp_keys_agree_witness :
  ∃ pkg,
    RegisterRoute NewRouter GET (str "/users/{id}") handlerA =
      Ret {| routes := Some (store ∅ GET (str "^/users/([a-z0-9-_]+)$")
                               (entry handlerA)) |} ∧
    ParamScan.RegisterRoute ParamScan.NewRouter GET (str "/users/{id}") handlerA =
      Ret {| ParamScan.routes :=
               Some (ParamScan.store ∅ GET (str "^/users/([a-z0-9-_]+)$") pkg) |}.
Proof.
  exact (scan_and_regexp_keys_agree NewRouter ∅ ParamScan.NewRouter ∅ GET
           [Text (str "/users/"); Param (str "id")] handlerA
           eq_refl eq_refl eq_refl eq_refl).
Defined.

(** ** The exact-match router *)

Lemma exact_register_all_entries rs r rm :
  ExactRouter.routes r = Some rm →
  ∃ r' rm', ExactRouter.register_all r rs = Ret r' ∧
            ExactRouter.routes r' = Some rm' ∧
            ∀ m p, (rm' !! m ≫= (.!! p)) =
                     match ExactRouter.last_registered rs m p with
                     | Some h => Some h
                     | None => rm !! m ≫= (.!! p)
                     end.
Proof.
  revert r rm. induction rs as [|x rs IH]; intros r rm Hrm.
  - exists r, rm. done.
  - cbn [ExactRouter.register_all]. unfold ExactRouter.RegisterRoute at 1.
    rewrite Hrm. cbn [bind].
    destruct (IH {| ExactRouter.routes :=
                      Some (<[r_method x :=
                               <[r_path x := r_handler x]>
                                 (default ∅ (rm !! r_method x))]> rm) |}
                _ eq_refl)
      as (r' & rm' & Hreg & Hrm' & Hent).
    exists r', rm'. split; [exact Hreg|]. split; [exact Hrm'|].
    intros m p. rewrite Hent. cbn [ExactRouter.last_registered].
    destruct (ExactRouter.last_registered rs m p); [done|].
    destruct (decide (r_method x = m)) as [<-|Hm].
    + rewrite lookup_insert_eq. cbn [mbind option_bind].
      destruct (decide (r_path x = p)) as [<-|Hp].
      * rewrite lookup_insert_eq. by rewrite decide_True.
      * rewrite lookup_insert_ne by done. rewrite decide_False by (by intros [_ ?]).
        by destruct (rm !! r_method x).
    + rewrite lookup_insert_ne by done. by rewrite decide_False by (by intros [? _]).
Qed.

(** X19: the exact-match router after any set-up: a request resolves to the
    handler of the last registration with its method and its very path, and
    to the not-found handler when there is none; the error is nil, so
    [ServeHTTP] logs the request and calls that handler. *)
Theorem exact_router_dispatch (rs : list route) :
  ∃ r, ExactRouter.register_all ExactRouter.NewRouter rs = Ret r ∧
       ∀ req,
         let h := default routeNotFoundHandler
                    (ExactRouter.last_registered rs (Method req) (Path req)) in
         ExactRouter.findReqHandler r req = (h, None) ∧
         ∀ rw, ExactRouter.ServeHTTP r rw req =
                 (do rw' <- call h rw req;
                  Ret ([LogDebug (Method req) (Path req); Call h], rw')).
Proof.
  destruct (exact_register_all_entries rs ExactRouter.NewRouter ∅ eq_refl)
    as (r & rm & Hreg & Hrm & Hent).
  exists r. split; [exact Hreg|]. intros req h.
  assert (ExactRouter.findReqHandler r req = (h, None)) as Hf.
  { unfold ExactRouter.findReqHandler. rewrite Hrm.
    specialize (Hent (Method req) (Path req)). subst h.
    destruct (ExactRouter.last_registered rs (Method req) (Path req)) as [h|].
    - destruct (rm !! Method req) as [table|]; [|done].
      cbn [mbind option_bind] in Hent. by rewrite Hent.
    - rewrite lookup_empty in Hent. cbn [mbind option_bind] in Hent.
      destruct (rm !! Method req) as [table|]; [|done].
      cbn [mbind option_bind] in Hent. by rewrite Hent. }
  split; [exact Hf|]. intros rw. unfold ExactRouter.ServeHTTP. by rewrite Hf.
Qed.

(** ** The server *)

(** X20: the router of a new server has no route: it answers every request,
    of any method and path, with the not-found response. *)
Theorem new_server_answers_not_found (addr : gostring) (port : Z)
    (order : list gostring) (rw : ResponseWriter) (req : Request) :
  wroteHeader rw = false →
  ∃ rw', ServeHTTP (GetRouter (NewServer addr port)) order rw req =
           Ret ([LogDebug (Method req) (Path req); Call routeNotFoundHandler], rw') ∧
         is_not_found_response rw rw'.
Proof.
  intros Hw.
  assert (findReqHandler (GetRouter (NewServer addr port)) order req =
            Ret (routeNotFoundHandler, None)) as Hf.
  { unfold findReqHandler, method_table. cbn [GetRouter NewServer router NewRouter routes].
    by rewrite lookup_empty. }
  rewrite (ServeHTTP_resolved _ _ _ _ _ Hf).
  rewrite (routeNotFoundHandler_response rw req Hw).
  eexists. split; [reflexivity|].
  unfold is_not_found_response. simpl. rewrite !lookup_insert_eq. done.
Qed.

Lemma new_server_answers_not_found_witness :
  ∃ rw', ServeHTTP (GetRouter (NewServer [] 8080)) [] NewRecorder
           (mkRequest GET (str "/test")) =
           Ret ([LogDebug GET (str "/test"); Call routeNotFoundHandler], rw') ∧
         is_not_found_response NewRecorder rw'.
Proof.
  exact (new_server_answers_not_found [] 8080 [] NewRecorder
           (mkRequest GET (str "/test")) eq_refl).
Defined.

(** ** Literal routes in the dispatch *)

(** X21: take a route without placeholder whose path is made of plain runes,
    is not empty and is of a size the model of [regexp] covers.  A request
    whose path holds the text of the route, anywhere and in any letter case,
    and is not itself a key of the method, is answered by that route's
    handler whenever the keys iterated before the route's key reject the
    path. *)
Theorem literal_route_answers_occurrences (r : Router) (rm : RequestHandlerMap)
    (method l : gostring) (handler : RequestHandler) (q : gostring)
    (pre rest : list gostring) :
  routes r = Some rm →
  forallb plain_rune l = true →
  l ≠ [] →
  regexp.within_limits (str "(?i)" ++ l) = true →
  occurs_folded l q →
  Forall (fun k => key_rejects k q) pre →
  ∃ r', RegisterRoute r method l handler = Ret r' ∧
        (route_entry r' method q = None →
         findReqHandler r' (pre ++ l :: rest) (mkRequest method q) =
           Ret (handler, None)).
Proof.
  intros Hrm Hp Hne Hw Hq Hpre. eexists.
  split; [exact (RegisterRoute_key _ _ _ _ _ Hrm)|].
  assert (route_key l = l) as ->
    by (unfold route_key; by rewrite (plain_text_no_placeholder l Hp)).
  unfold route_entry, findReqHandler. cbn [Method Path].
  rewrite method_table_store. intros ->.
  assert (matchRoutePattern (pre ++ l :: rest) q = Ret (l, true)) as ->.
  { induction Hpre as [|k' pre Hk' _ IH]; cbn [app].
    - apply matchRoutePattern_matched. by apply text_key_matches_occurrence.
    - by rewrite (matchRoutePattern_rejected _ _ _ Hk'). }
  cbn [bind snd fst]. by rewrite lookup_insert_eq.
Qed.

Lemma literal_route_answers_occurrences_witness :
  ∃ r', RegisterRoute users_router GET (str "/posts") handlerA = Ret r' ∧
        findReqHandler r'
          [str "^/users/([a-z0-9-_]+)$"; str "/posts"; str "/users/me"]
          (mkRequest GET (str "/api/Posts/2024/first")) = Ret (handlerA, None).
Proof.
  destruct (literal_route_answers_occurrences users_router _ GET (str "/posts")
              handlerA (str "/api/Posts/2024/first")
              [str "^/users/([a-z0-9-_]+)$"] [str "/users/me"]
              eq_refl eq_refl ltac:(discriminate) eq_refl)
    as (r' & Hreg & Hfind).
  - exists (str "/api"), (str "/Posts"), (str "/2024/first").
    split; [reflexivity|repeat constructor].
  - constructor; [|constructor]. eexists. split; vm_compute; reflexivity.
  - exists r'. split; [exact Hreg|]. apply Hfind.
    clear Hfind. vm_compute in Hreg. injection Hreg as <-. vm_compute. reflexivity.
Defined.

(** ** The scanning [RegisterRoute] on a path without closing brace *)

Lemma scan_loop_no_closing st i s :
  forallb (fun c => negb (c =? 125)) s = true →
  ParamScan.paramList (ParamScan.scan_loop st i s) = ParamScan.paramList st.
Proof.
  revert st i. induction s as [|c s IH]; intros st i; [done|].
  cbn [forallb ParamScan.scan_loop]. intros [Hc Hs]%andb_true_iff.
  rewrite (IH _ _ Hs). apply negb_true_iff in Hc.
  unfold ParamScan.scan_step, ParamScan.scan_switch. rewrite Hc.
  destruct (c =? 47); [|destruct (c =? 123)];
    cbn [ParamScan.found ParamScan.paramList];
    by destruct (_ && _).
Qed.

(** X22: the scanning version finds a placeholder only at a closing brace: a
    path without one, whatever opening braces it holds, is stored whole
    between [^] and [$] with an empty parameter map. *)
Theorem scan_unclosed_brace_is_text (r : ParamScan.Router)
    (rm : gmap gostring (gmap gostring ParamScan.RequestHandlerPackage))
    (method path : gostring) (handler : RequestHandler) :
  ParamScan.routes r = Some rm →
  forallb (fun c => negb (c =? 125)) path = true →
  ParamScan.RegisterRoute r method path handler =
    Ret {| ParamScan.routes :=
             Some (ParamScan.store rm method (str "^" ++ path ++ str "$")
                     {| ParamScan.Handler := handler;
                        ParamScan.ParamList := ∅ |}) |}.
Proof.
  intros Hrm Hp. unfold ParamScan.RegisterRoute. rewrite Hrm. cbv zeta.
  rewrite (scan_loop_no_closing _ _ _ Hp).
  cbn [ParamScan.paramList ParamScan.scan_init ParamScan.build_loop bind
       ParamScan.lastPos ParamScan.pathBuilder ParamScan.reqParamList].
  rewrite slice_to_end by lia. cbn [bind drop app]. reflexivity.
Qed.

Lemma scan_unclosed_brace_is_text_witness :
  ParamScan.RegisterRoute ParamScan.NewRouter GET (str "/users/{id") handlerA =
    Ret {| ParamScan.routes :=
             Some (ParamScan.store ∅ GET (str "^/users/{id$")
                     {| ParamScan.Handler := handlerA;
                        ParamScan.ParamList := ∅ |}) |}.
Proof.
  exact (scan_unclosed_brace_is_text ParamScan.NewRouter ∅ GET (str "/users/{id")
           handlerA eq_refl eq_refl).
Defined.

(** ** The dispatcher of the scanning version *)

(** X23: in the scanning version a route whose texts are plain runes without
    braces and whose names are without braces, alone under its method,
    answers a request of the method exactly when the path is the key itself
    or the whole, non-empty path is an instance of the route up to letter
    case; every other request of the method resolves to the not-found
    handler.  A literal route no longer takes longer paths. *)
Theorem scan_route_answers_exactly_instances (r : ParamScan.Router)
    (rm : gmap gostring (gmap gostring ParamScan.RequestHandlerPackage))
    (method : gostring) (t : template) (handler : RequestHandler) :
  ParamScan.routes r = Some rm →
  rm !! method = None →
  plain_texts t = true →
  ParamScan.well_formed t = true →
  regexp.within_limits (str "(?i)" ++ str "^" ++ render_key t ++ str "$") = true →
  ∃ r' table,
    ParamScan.RegisterRoute r method (render t) handler = Ret r' ∧
    ParamScanDispatch.method_table r' method = Some table ∧
    ∀ order q, ParamScanDispatch.yields table order →
      let hit := q = str "^" ++ render_key t ++ str "$" ∨
                 (instantiates t q ∧ q ≠ []) in
      (hit → ParamScanDispatch.findReqHandler r' order (mkRequest method q) =
               Ret (handler, None)) ∧
      (¬ hit → ParamScanDispatch.findReqHandler r' order (mkRequest method q) =
                 Ret (routeNotFoundHandler, None)).
Proof.
  intros Hrm Hnone Ht Hwf Hw. eexists _, _.
  split; [exact (RegisterRoute_template r rm method t handler Hrm Hwf)|].
  unfold ParamScanDispatch.method_table, ParamScan.store. cbn [ParamScan.routes].
  rewrite lookup_insert_eq, Hnone. cbn [default].
  split; [reflexivity|]. intros order q Hy. cbv zeta.
  unfold ParamScanDispatch.yields in Hy. rewrite insert_empty in Hy.
  rewrite map_to_list_singleton in Hy. cbn [fmap list_fmap fst] in Hy.
  symmetry in Hy. apply Permutation_singleton_l in Hy as <-.
  unfold ParamScanDispatch.findReqHandler, ParamScanDispatch.method_table.
  cbn [ParamScan.routes Method Path]. rewrite lookup_insert_eq.
  destruct (decide (q = str "^" ++ render_key t ++ str "$")) as [->|Hq].
  { rewrite lookup_insert_eq. split; [done|]. intros Hn. destruct Hn. by left. }
  rewrite lookup_insert_ne by done. rewrite lookup_empty.
  pose proof (anchored_key_matches t q Ht Hw) as Hkey.
  rewrite matchRoutePattern_cons.
  rewrite (MustCompile_Ret _ _ (anchored_key_compiles t Ht Hw)). cbn [bind].
  destruct (regexp.FindString (template_regexp t) q) as [|c f] eqn:Hf.
  - cbn [length Nat.eqb negb matchRoutePattern bind snd]. split; [|done].
    intros [Hhit|Hhit]; [done|]. apply Hkey in Hhit as (re & Hre & Hne).
    rewrite (anchored_key_compiles t Ht Hw) in Hre. injection Hre as <-. done.
  - cbn [length Nat.eqb negb bind snd fst].
    rewrite placeholder_expr_compiles. cbn [bind].
    rewrite lookup_insert_eq. cbn [default ParamScan.Handler].
    split; [done|]. intros Hn. destruct Hn. right. apply Hkey.
    exists (template_regexp t). split; [by apply anchored_key_compiles|].
    by rewrite Hf.
Qed.

Lemma scan_route_answers_exactly_instances_witness :
  ∃ r',
    ParamScan.RegisterRoute ParamScan.NewRouter GET (str "/users") handlerA =
      Ret r' ∧
    ParamScanDispatch.findReqHandler r' [str "^/users$"]
      (mkRequest GET (str "/Users")) = Ret (handlerA, None) ∧
    ParamScanDispatch.findReqHandler r' [str "^/users$"]
      (mkRequest GET (str "/users/123")) = Ret (routeNotFoundHandler, None).
Proof.
  destruct (scan_route_answers_exactly_instances ParamScan.NewRouter ∅ GET
              [Text (str "/users")] handlerA eq_refl eq_refl eq_refl eq_refl
              eq_refl) as (r' & table & Hreg & Htab & Hall).
  assert (ParamScanDispatch.yields table [str "^/users$"]) as Hy.
  { clear Hall. vm_compute in Hreg. injection Hreg as <-.
    vm_compute in Htab. injection Htab as <-.
    unfold ParamScanDispatch.yields. reflexivity. }
  exists r'. split; [exact Hreg|]. split.
  - apply (Hall _ (str "/Users") Hy). right. split; [|discriminate].
    exists (str "/Users"), []. split; [reflexivity|].
    split; [repeat constructor|reflexivity].
  - apply (Hall _ (str "/users/123") Hy). intros [Hq|[Hq _]]; [discriminate|].
    destruct Hq as (l' & q' & Hq & Hl & ->).
    rewrite app_nil_r in Hq. subst l'. apply Forall2_length in Hl.
    vm_compute in Hl. discriminate.
Defined.

(** ** The route key of the code and the route key of the specification *)

Lemma opaque_span_name n rest :
  forallb (fun c => negb (c =? 125)) n = true →
  opaque_span (n ++ 125 :: rest) = Some (n, rest).
Proof.
  induction n as [|c n IH]; [done|]. cbn [forallb app opaque_span].
  intros [Hc Hn]%andb_true_iff. apply negb_true_iff in Hc.
  by rewrite Hc, IH.
Qed.

Lemma valid_name_no_rbrace n :
  valid_name n = true → forallb (fun c => negb (c =? 125)) n = true.
Proof.
  unfold valid_name. intros [_ Hn]%andb_true_iff.
  induction n as [|c n IH]; [done|]. cbn [forallb] in *.
  apply andb_true_iff in Hn as [Hc Hn].
  by rewrite (name_rune_not_rbrace c Hc), IH.
Qed.

Lemma opaque_substitute_skip pre rest :
  opaque_substitute (length pre) (pre ++ rest) = opaque_substitute 0 rest.
Proof. induction pre as [|c pre IH]; [done|]. exact IH. Qed.

Lemma opaque_substitute_text l s :
  no_lbrace l = true → opaque_substitute 0 (l ++ s) = l ++ opaque_substitute 0 s.
Proof.
  unfold no_lbrace. induction l as [|c l IH]; [done|]. cbn [forallb].
  intros [Hc Hl]%andb_true_iff. apply negb_true_iff in Hc.
  cbn [app opaque_substitute opaque_placeholder_at]. rewrite Hc. by rewrite IH.
Qed.

Lemma opaque_substitute_render t :
  named_template t = true → opaque_substitute 0 (render t) = render_key t.
Proof.
  induction t as [|[l|n] t IH]; [done|..];
    cbn [named_template forallb]; intros [Hp Ht]%andb_true_iff;
    cbn [render render_piece render_key key_piece].
  - by rewrite opaque_substitute_text, IH.
  - change ((123 :: n ++ [125]) ++ render t)
      with (123 :: (n ++ [125]) ++ render t).
    rewrite <- app_assoc. cbn [app opaque_substitute opaque_placeholder_at].
    change (123 =? 123) with true. cbv iota.
    rewrite (opaque_span_name n (render t) (valid_name_no_rbrace n Hp)).
    f_equal.
    change (n ++ 125 :: render t) with (n ++ [125] ++ render t).
    rewrite app_assoc.
    replace (S (length n)) with (length (n ++ [125]))
      by (rewrite length_app; simpl; lia).
    by rewrite opaque_substitute_skip, IH.
Qed.

Lemma opaque_has_placeholder_text l s :
  no_lbrace l = true →
  opaque_has_placeholder (l ++ s) = opaque_has_placeholder s.
Proof.
  unfold no_lbrace. induction l as [|c l IH]; [done|]. cbn [forallb].
  intros [Hc Hl]%andb_true_iff. apply negb_true_iff in Hc.
  cbn [app opaque_has_placeholder opaque_placeholder_at]. rewrite Hc.
  by apply IH.
Qed.

Lemma opaque_has_placeholder_render t :
  named_template t = true →
  opaque_has_placeholder (render t) = existsb is_param t.
Proof.
  induction t as [|[l|n] t IH]; [done|..];
    cbn [named_template forallb]; intros [Hp Ht]%andb_true_iff;
    cbn [render render_piece existsb is_param orb].
  - by rewrite opaque_has_placeholder_text, IH.
  - change ((123 :: n ++ [125]) ++ render t)
      with (123 :: (n ++ [125]) ++ render t).
    rewrite <- app_assoc. cbn [app opaque_has_placeholder opaque_placeholder_at].
    change (123 =? 123) with true. cbv iota.
    by rewrite (opaque_span_name n (render t) (valid_name_no_rbrace n Hp)).
Qed.

Lemma spec_route_key_named t :
  named_template t = true →
  spec_route_key (render t) =
    if existsb is_param t then str "^" ++ render_key t ++ str "$"
    else render t.
Proof.
  intros Ht. unfold spec_route_key.
  by rewrite (opaque_has_placeholder_render t Ht), (opaque_substitute_render t Ht).
Qed.

(** C3 as stated fails: for the specification a placeholder is any span
    between braces, whatever its name, but [RegisterRoute] replaces only the
    spans its expression matches.  The path /files/{file.name} is stored as
    it is, where the specification gives the key ^/files/([a-z0-9-_]+)$; and
    in /{d.e}/{b} only the second span is replaced. *)
Lemma C3_counterexample :
  RegisterRoute NewRouter GET (str "/files/{file.name}") handlerA =
    Ret {| routes := Some {[GET := {[str "/files/{file.name}" := entry handlerA]}]} |}
  ∧ spec_route_key (str "/files/{file.name}") = str "^/files/([a-z0-9-_]+)$"
  ∧ RegisterRoute NewRouter GET (str "/{d.e}/{b}") handlerA =
      Ret {| routes :=
               Some {[GET := {[str "^/{d.e}/([a-z0-9-_]+)$" := entry handlerA]}]} |}
  ∧ spec_route_key (str "/{d.e}/{b}") = str "^/([a-z0-9-_]+)/([a-z0-9-_]+)$".
Proof.
  split; [vm_compute; reflexivity|]. split; [reflexivity|].
  split; [vm_compute; reflexivity|]. reflexivity.
Qed.

(** C3, amended: a placeholder is a span between braces whose name is not
    empty and made of name runes only.  [RegisterRoute] stores the handler,
    with an empty parameter map, under the route key of the path: the path
    itself when it holds no placeholder, and otherwise the path with every
    placeholder replaced by the capture group [([a-z0-9-_]+)], between [^]
    and [$].  This holds on every router whose table was made, for every
    method, path and handler.  When the path is a sequence of texts without
    opening brace and of placeholders, the key is the one the specification
    describes. *)
Theorem C3_route_key (r : Router) (rm : RequestHandlerMap)
    (method path : gostring) (handler : RequestHandler) :
  routes r = Some rm →
  RegisterRoute r method path handler =
    Ret {| routes := Some (store rm method (route_key path) (entry handler)) |} ∧
  (has_placeholder path = true ↔
   ∃ pre name post, path = pre ++ 123 :: name ++ 125 :: post ∧
                    valid_name name = true) ∧
  (has_placeholder path = false → route_key path = path) ∧
  (has_placeholder path = true →
   route_key path = str "^" ++ replace_placeholders path ++ str "$") ∧
  (∀ t, path = render t → named_template t = true →
        route_key path =
          (if existsb is_param t then str "^" ++ render_key t ++ str "$"
           else path) ∧
        route_key path = spec_route_key path).
Proof.
  intros Hrm. split; [by apply RegisterRoute_key|]. split.
  { split; [apply has_placeholder_inv|].
    intros (pre & name & post & -> & Hv). by apply has_placeholder_span. }
  split; [unfold route_key; by intros ->|].
  split; [unfold route_key; by intros ->|].
  intros t -> Ht.
  by rewrite (route_key_named t Ht), (spec_route_key_named t Ht).
Qed.

Lemma C3_route_key_witness :
  RegisterRoute NewRouter GET (str "/files/{id}.json") handlerB =
    Ret {| routes := Some (store ∅ GET (route_key (str "/files/{id}.json"))
                             (entry handlerB)) |} ∧
  route_key (str "/files/{id}.json") = str "^/files/([a-z0-9-_]+).json$" ∧
  route_key (str "/files/{id}.json") = spec_route_key (str "/files/{id}.json").
Proof.
  destruct (C3_route_key NewRouter ∅ GET (str "/files/{id}.json") handlerB eq_refl)
    as (H1 & _ & _ & _ & H5).
  split; [exact H1|].
  exact (H5 [Text (str "/files/"); Param (str "id"); Text (str ".json")]
            eq_refl eq_refl).
Defined.

(** ** The keys a dispatch reaches *)

Lemma visited_cons k rest path :
  visited (k :: rest) path =
    k :: match regexp.Compile (str "(?i)" ++ k) with
         | regexp.COk re =>
             if negb (Nat.eqb (length (regexp.FindString re path)) 0)
             then []
             else visited rest path
         | _ => []
         end.
Proof. reflexivity. Qed.

Lemma matchRoutePattern_visited_returns order path :
  Forall compiles (visited order path) →
  ∃ res, matchRoutePattern order path = Ret res.
Proof.
  induction order as [|k rest IH]; [by eexists|].
  rewrite visited_cons. intros Hc. apply Forall_cons in Hc as [[re Hre] Hrest].
  rewrite matchRoutePattern_cons, (MustCompile_Ret _ _ Hre). cbn [bind].
  rewrite Hre in Hrest.
  destruct (negb (Nat.eqb (length (regexp.FindString re path)) 0));
    [by eexists|by apply IH].
Qed.

Lemma matchRoutePattern_visited_panics order path k e :
  k ∈ visited order path →
  regexp.Compile (str "(?i)" ++ k) = regexp.CError e →
  matchRoutePattern order path = Panic.
Proof.
  intros Hk He. induction order as [|k' rest IH]; [by apply elem_of_nil in Hk|].
  rewrite visited_cons in Hk. rewrite matchRoutePattern_cons.
  unfold regexp.MustCompile.
  destruct (regexp.Compile (str "(?i)" ++ k')) as [re| |] eqn:Hre; cbn [bind].
  - destruct (negb (Nat.eqb (length (regexp.FindString re path)) 0)).
    + apply list_elem_of_singleton in Hk as ->. congruence.
    + apply elem_of_cons in Hk as [->|Hk]; [congruence|by apply IH].
  - done.
  - apply list_elem_of_singleton in Hk as ->. congruence.
Qed.

Lemma findReqHandler_compiled_returns r order req :
  Forall compiles (compiled_keys r order req) →
  ∃ h, findReqHandler r order req = Ret (h, None).
Proof.
  unfold compiled_keys, findReqHandler.
  destruct (method_table r (Method req)) as [table|]; [|by eexists].
  destruct (table !! Path req); [by eexists|]. intros Hc.
  destruct (matchRoutePattern_visited_returns order (Path req) Hc) as [[k b] ->].
  cbn [bind snd]. destruct b; by eexists.
Qed.

Lemma findReqHandler_compiled_panics r order req k e :
  k ∈ compiled_keys r order req →
  regexp.Compile (str "(?i)" ++ k) = regexp.CError e →
  findReqHandler r order req = Panic.
Proof.
  unfold compiled_keys, findReqHandler.
  destruct (method_table r (Method req)) as [table|];
    [|by intros ?%elem_of_nil].
  destruct (table !! Path req); [by intros ?%elem_of_nil|].
  intros Hk He. by rewrite (matchRoutePattern_visited_panics _ _ _ _ Hk He).
Qed.

Lemma findReqHandler_reaches_match r table pre k rest req :
  method_table r (Method req) = Some table →
  table !! Path req = None →
  Forall (fun k' => key_rejects k' (Path req)) pre →
  key_matches k (Path req) →
  findReqHandler r (pre ++ k :: rest) req =
    Ret (Handler (default zeroPackage (table !! k)), None).
Proof.
  intros Ht Hp Hpre Hk. unfold findReqHandler. rewrite Ht, Hp.
  assert (matchRoutePattern (pre ++ k :: rest) (Path req) = Ret (k, true)) as ->.
  { induction Hpre as [|k' pre Hk' _ IH]; cbn [app].
    - by apply matchRoutePattern_matched.
    - by rewrite (matchRoutePattern_rejected _ _ _ Hk'). }
  reflexivity.
Qed.

Lemma findReqHandler_reaches_invalid r table pre k rest req e :
  method_table r (Method req) = Some table →
  table !! Path req = None →
  Forall (fun k' => key_rejects k' (Path req)) pre →
  regexp.Compile (str "(?i)" ++ k) = regexp.CError e →
  findReqHandler r (pre ++ k :: rest) req = Panic.
Proof.
  intros Ht Hp Hpre He. unfold findReqHandler. rewrite Ht, Hp.
  assert (matchRoutePattern (pre ++ k :: rest) (Path req) = Panic) as ->.
  { induction Hpre as [|k' pre Hk' _ IH]; cbn [app].
    - by apply (matchRoutePattern_first_fails _ _ _ e).
    - by rewrite (matchRoutePattern_rejected _ _ _ Hk'). }
  reflexivity.
Qed.

(** C9 as stated fails: with the route GET /a(/{id} registered, whose pattern
    key ^/a(/([a-z0-9-_]+)$ is not a valid expression, the dispatch of GET /b
    returns no handler at all; it panics inside [regexp.MustCompile], on
    every iteration order. *)
Lemma C9_counterexample :
  ∃ r table,
    RegisterRoute NewRouter GET (str "/a(/{id}") handlerA = Ret r ∧
    method_table r GET = Some table ∧
    ∀ order, yields table order →
      findReqHandler r order (mkRequest GET (str "/b")) = Panic ∧
      ¬ ∃ h, findReqHandler r order (mkRequest GET (str "/b")) = Ret (h, None).
Proof.
  exists {| routes :=
              Some {[GET := {[str "^/a(/([a-z0-9-_]+)$" := entry handlerA]}]} |},
         {[str "^/a(/([a-z0-9-_]+)$" := entry handlerA]}.
  split; [vm_compute; reflexivity|]. split; [vm_compute; reflexivity|].
  intros order Hy. apply yields_singleton in Hy as ->.
  assert (findReqHandler
            {| routes :=
                 Some {[GET := {[str "^/a(/([a-z0-9-_]+)$" := entry handlerA]}]} |}
            [str "^/a(/([a-z0-9-_]+)$"] (mkRequest GET (str "/b")) = Panic) as Hp
    by (vm_compute; reflexivity).
  split; [exact Hp|]. intros [h Hh]. rewrite Hp in Hh. discriminate.
Qed.

(** C9, amended: every return path of [findReqHandler] carries a nil error.
    The call returns a handler when every key it compiles for the request
    (the keys of the iteration up to the first that matches, none on an
    exact match or an unknown method) compiles; the handler is then the
    not-found handler or the handler of an entry of the method's table.  If
    one of those keys is not a valid expression the call panics and
    [ServeHTTP] with it.  [ServeHTTP] never reaches its fatal branch (it can
    end the process only if the handler it calls does); and a dispatch that
    returns has logged the request and called exactly one handler, the one
    resolved. *)
Theorem C9_nil_error_one_handler (r : Router) (order : list gostring)
    (rw : ResponseWriter) (req : Request) :
  Forall compiles (compiled_keys r order req) →
  (∀ r' order' req' h e, findReqHandler r' order' req' = Ret (h, e) → e = None) ∧
  (∃ h, findReqHandler r order req = Ret (h, None) ∧
        (method_table r (Method req) = None → h = routeNotFoundHandler) ∧
        (∀ table, method_table r (Method req) = Some table → yields table order →
           h = routeNotFoundHandler ∨
           ∃ k pkg, table !! k = Some pkg ∧ h = Handler pkg) ∧
        ServeHTTP r order rw req =
          (do rw' <- call h rw req;
           Ret ([LogDebug (Method req) (Path req); Call h], rw'))) ∧
  (∀ r' order' req' k e,
     k ∈ compiled_keys r' order' req' →
     regexp.Compile (str "(?i)" ++ k) = regexp.CError e →
     findReqHandler r' order' req' = Panic ∧
     ∀ rw0, ServeHTTP r' order' rw0 req' = Panic) ∧
  (∀ r' order' rw0 req', ServeHTTP r' order' rw0 req' = Fatal →
     ∃ h, findReqHandler r' order' req' = Ret (h, None) ∧ call h rw0 req' = Fatal) ∧
  (∀ r' order' rw0 req' evs rw', ServeHTTP r' order' rw0 req' = Ret (evs, rw') →
     ∃ h, findReqHandler r' order' req' = Ret (h, None) ∧
          evs = [LogDebug (Method req') (Path req'); Call h] ∧
          call h rw0 req' = Ret rw').
Proof.
  intros Hc. split; [exact findReqHandler_nil_error|]. split.
  { destruct (findReqHandler_compiled_returns r order req Hc) as [h Hh].
    exists h. split; [exact Hh|]. split; [|split].
    - intros Hnone. unfold findReqHandler in Hh. rewrite Hnone in Hh.
      by injection Hh as <-.
    - intros table Ht Hy. by apply (findReqHandler_source r order req table h None).
    - by apply ServeHTTP_resolved. }
  split.
  { intros r' order' req' k e Hk He.
    pose proof (findReqHandler_compiled_panics r' order' req' k e Hk He) as Hp.
    split; [exact Hp|]. intros rw0. unfold ServeHTTP. by rewrite Hp. }
  split.
  - intros r' order' rw0 req' HF.
    pose proof (findReqHandler_not_fatal r' order' req') as Hnf.
    destruct (findReqHandler r' order' req') as [[h e]| | |] eqn:Hf;
      try done;
      try (unfold ServeHTTP in HF; rewrite Hf in HF; discriminate).
    pose proof (findReqHandler_nil_error _ _ _ _ _ Hf) as ->.
    rewrite (ServeHTTP_resolved _ _ _ _ _ Hf) in HF.
    exists h. split; [done|]. by destruct (call h rw0 req').
  - intros r' order' rw0 req' evs rw' HR.
    destruct (findReqHandler r' order' req') as [[h e]| | |] eqn:Hf;
      try (unfold ServeHTTP in HR; rewrite Hf in HR; discriminate).
    pose proof (findReqHandler_nil_error _ _ _ _ _ Hf) as ->.
    rewrite (ServeHTTP_resolved _ _ _ _ _ Hf) in HR.
    exists h. split; [done|].
    destruct (call h rw0 req'); simpl in HR; try discriminate.
    by injection HR as <- <-.
Qed.

Lemma mixed_keys_reached :
  Forall compiles
    (compiled_keys mixed_router [str "^/users/([a-z0-9-_]+)$"; str "/a("]
       (mkRequest GET (str "/users/42"))).
Proof.
  assert (compiled_keys mixed_router [str "^/users/([a-z0-9-_]+)$"; str "/a("]
            (mkRequest GET (str "/users/42")) = [str "^/users/([a-z0-9-_]+)$"])
    as -> by (vm_compute; reflexivity).
  repeat constructor. eexists. vm_compute. reflexivity.
Qed.

Lemma C9_nil_error_one_handler_witness :
  ∃ h, findReqHandler mixed_router [str "^/users/([a-z0-9-_]+)$"; str "/a("]
         (mkRequest GET (str "/users/42")) = Ret (h, None) ∧
       ServeHTTP mixed_router [str "^/users/([a-z0-9-_]+)$"; str "/a("]
         NewRecorder (mkRequest GET (str "/users/42")) =
         (do rw' <- call h NewRecorder (mkRequest GET (str "/users/42"));
          Ret ([LogDebug GET (str "/users/42"); Call h], rw')).
Proof.
  destruct (C9_nil_error_one_handler mixed_router
              [str "^/users/([a-z0-9-_]+)$"; str "/a("] NewRecorder
              (mkRequest GET (str "/users/42")) mixed_keys_reached)
    as (_ & (h & Hh & _ & _ & Hs) & _).
  exists h. split; [exact Hh|exact Hs].
Defined.

(** ** A literal key that is no valid expression *)

(** C10 as stated fails: the loop stops at the first key that matches, so not
    every stored key is compiled.  With GET /a( and GET /users/{id}
    registered, GET /users/1 is answered by the handler of the pattern route
    when the pattern key is iterated first, and panics when /a( is. *)
Lemma C10_counterexample :
  ∃ r table,
    (do r1 <- RegisterRoute NewRouter GET (str "/a(") handlerA;
     RegisterRoute r1 GET (str "/users/{id}") handlerB) = Ret r ∧
    method_table r GET = Some table ∧
    table !! str "/users/1" = None ∧
    yields table [str "^/users/([a-z0-9-_]+)$"; str "/a("] ∧
    findReqHandler r [str "^/users/([a-z0-9-_]+)$"; str "/a("]
      (mkRequest GET (str "/users/1")) = Ret (handlerB, None) ∧
    yields table [str "/a("; str "^/users/([a-z0-9-_]+)$"] ∧
    findReqHandler r [str "/a("; str "^/users/([a-z0-9-_]+)$"]
      (mkRequest GET (str "/users/1")) = Panic.
Proof.
  exists mixed_router, mixed_table.
  split; [vm_compute; reflexivity|]. split; [vm_compute; reflexivity|].
  split; [vm_compute; reflexivity|].
  assert (yields mixed_table [str "/a("; str "^/users/([a-z0-9-_]+)$"]) as Hy.
  { unfold mixed_table.
    pose proof (yields_insert {[str "^/users/([a-z0-9-_]+)$" := entry handlerB]}
                  (str "/a(") (entry handlerA)) as Hy.
    rewrite delete_id in Hy by (vm_compute; reflexivity).
    by rewrite map_to_list_singleton in Hy. }
  split; [|split; [vm_compute; reflexivity|split; [exact Hy|vm_compute; reflexivity]]].
  unfold yields in *. rewrite <- Hy. apply perm_swap.
Qed.

(** C10, amended: the fallback loop compiles, prefixed by (?i), each key it
    reaches when the request is dispatched.  A path in which [RegisterRoute]
    finds no placeholder is stored verbatim; if that key is not a valid
    expression, a request of the method that is no exact match panics when
    the iteration reaches the key, that is when the keys before it reject the
    path, and is answered when a key that matches comes before it.  So every
    such request panics on some iteration order, and on every one when the
    method has no other route; and a dispatch returns a handler whenever
    the keys it reaches compile. *)
Theorem C10_invalid_literal_key_panics (r : Router) (rm : RequestHandlerMap)
    (method path : gostring) (handler : RequestHandler) (e : regexp.ErrorCode) :
  routes r = Some rm →
  has_placeholder path = false →
  regexp.Compile (str "(?i)" ++ path) = regexp.CError e →
  (∃ r' table,
     RegisterRoute r method path handler = Ret r' ∧
     method_table r' method = Some table ∧
     table !! path = Some (entry handler) ∧
     ∀ req, Method req = method → table !! Path req = None →
       (∀ pre rest, Forall (fun k => key_rejects k (Path req)) pre →
          findReqHandler r' (pre ++ path :: rest) req = Panic) ∧
       (∀ pre k rest, Forall (fun k' => key_rejects k' (Path req)) pre →
          key_matches k (Path req) →
          findReqHandler r' (pre ++ k :: rest) req =
            Ret (Handler (default zeroPackage (table !! k)), None)) ∧
       (∃ order, yields table order ∧ findReqHandler r' order req = Panic) ∧
       (rm !! method = None →
        ∀ order, yields table order → findReqHandler r' order req = Panic)) ∧
  (∀ r0 table k e0 req,
     method_table r0 (Method req) = Some table →
     is_Some (table !! k) →
     regexp.Compile (str "(?i)" ++ k) = regexp.CError e0 →
     table !! Path req = None →
     ∃ order, yields table order ∧ findReqHandler r0 order req = Panic) ∧
  (∀ r0 order req, Forall compiles (compiled_keys r0 order req) →
     ∃ h, findReqHandler r0 order req = Ret (h, None)).
Proof.
  intros Hrm Hno He.
  split; [|split; [exact invalid_key_can_panic
                  |exact findReqHandler_compiled_returns]].
  eexists _, _. rewrite (RegisterRoute_key _ _ _ _ _ Hrm). unfold route_key.
  rewrite Hno. split; [reflexivity|]. split; [apply method_table_store|].
  split; [apply lookup_insert_eq|].
  intros req Hm Hp.
  assert (method_table {| routes := Some (store rm method path (entry handler)) |}
            (Method req) =
          Some (<[path := entry handler]> (default ∅ (rm !! method)))) as Ht
    by (rewrite Hm; apply method_table_store).
  assert (∀ pre rest, Forall (fun k => key_rejects k (Path req)) pre →
            findReqHandler
              {| routes := Some (store rm method path (entry handler)) |}
              (pre ++ path :: rest) req = Panic) as Hreach.
  { intros pre rest Hpre.
    by apply (findReqHandler_reaches_invalid _ _ pre path rest req e Ht Hp). }
  split; [exact Hreach|]. split; [|split].
  - intros pre k rest Hpre Hk.
    by apply (findReqHandler_reaches_match _ _ pre k rest req Ht Hp).
  - eexists. split; [apply yields_insert|]. apply (Hreach [] _). constructor.
  - intros Hnone order Hy. rewrite Hnone in Hy. simpl in Hy.
    assert (<[path := entry handler]> (∅ : RouteTable) = {[path := entry handler]})
      as Heq by done.
    rewrite Heq in Hy. apply yields_singleton in Hy as ->.
    apply (Hreach [] []). constructor.
Qed.

Lemma C10_invalid_literal_key_panics_witness :
  ∃ r' table,
    RegisterRoute users_router GET (str "/a(") handlerA = Ret r' ∧
    method_table r' GET = Some table ∧
    table !! str "/a(" = Some (entry handlerA) ∧
    findReqHandler r' [str "/users/me"; str "/a("; str "^/users/([a-z0-9-_]+)$"]
      (mkRequest GET (str "/users/7")) = Panic ∧
    findReqHandler r' [str "/users/me"; str "^/users/([a-z0-9-_]+)$"; str "/a("]
      (mkRequest GET (str "/users/7")) = Ret (handlerB, None).
Proof.
  destruct (C10_invalid_literal_key_panics users_router _ GET (str "/a(")
              handlerA regexp.ErrMissingParen eq_refl eq_refl eq_refl)
    as [(r' & table & Hreg & Htab & Hk & Hall) _].
  exists r', table. split; [exact Hreg|]. split; [exact Htab|].
  split; [exact Hk|].
  assert (table !! str "/users/7" = None ∧
          Handler (default zeroPackage (table !! str "^/users/([a-z0-9-_]+)$")) =
            handlerB) as [Hnone Hpat].
  { clear Hall. vm_compute in Hreg. injection Hreg as <-.
    vm_compute in Htab. injection Htab as <-. split; vm_compute; reflexivity. }
  assert (key_rejects (str "/users/me") (str "/users/7")) as Hrej
    by (eexists; split; vm_compute; reflexivity).
  destruct (Hall (mkRequest GET (str "/users/7")) eq_refl Hnone)
    as (Hpanic & Hmatch & _).
  split.
  - apply (Hpanic [str "/users/me"] [str "^/users/([a-z0-9-_]+)$"]).
    by constructor.
  - rewrite <- Hpat.
    apply (Hmatch [str "/users/me"] (str "^/users/([a-z0-9-_]+)$") [str "/a("]).
    + by constructor.
    + eexists. split; [vm_compute; reflexivity|]. vm_compute. discriminate.
Defined.
